(** * oh-my-md: the markdown preview segmenter and the saved-files store

    A shallow embedding of [src/components/MarkdownPreview.tsx] (the two
    memos [processedContent] and [segments]) and of the files store
    ([createFile], [deleteFile] and what they call), followed by the
    properties proved about them.

    JavaScript strings are sequences of UTF-16 code units; they are modelled
    as lists of code units ([N]).  The markdown-it parser is an npm
    dependency, not part of the repository: its tokenizer and its own
    rendering of tokens are parameters of the embedding, and [MiniMd] gives
    a small concrete instance on which the segmenter can be run. *)

From Stdlib Require Import String Ascii.
From Stdlib Require Decimal DecimalString DecimalNat.
From Stdlib Require Import List NArith ZArith Arith Bool Lia.
From Stdlib Require Import Permutation Sorted.
Import ListNotations.

Set Implicit Arguments.

(* ================================================================= *)
(** ** JavaScript strings *)

Module Js.

Definition str := list N.

(** An ASCII literal as a sequence of code units. *)
Definition lit (s : string) : str :=
  map N_of_ascii (list_ascii_of_string s).
Arguments lit s%_string.

(** The double quote, U+0022. *)
Definition quote : N := 34%N.

(** The line feed, U+000A. *)
Definition lf : N := 10%N.

Fixpoint eqb (a b : str) : bool :=
  match a, b with
  | [], [] => true
  | x :: a', y :: b' => N.eqb x y && eqb a' b'
  | _, _ => false
  end.

(** A string is falsy exactly when it is empty. *)
Definition truthy (s : str) : bool :=
  match s with
  | [] => false
  | _ :: _ => true
  end.

(** ECMAScript [WhiteSpace] and [LineTerminator] code points, the ones
    [String.prototype.trim] removes. *)
Definition isWhiteSpace (c : N) : bool :=
  ((9 <=? c) && (c <=? 13) || (c =? 32) || (c =? 160) || (c =? 5760)
   || (8192 <=? c) && (c <=? 8202)
   || (c =? 8232) || (c =? 8233) || (c =? 8239) || (c =? 8287)
   || (c =? 12288) || (c =? 65279))%N.

Fixpoint trimStart (s : str) : str :=
  match s with
  | [] => []
  | c :: s' => if isWhiteSpace c then trimStart s' else s
  end.

Definition trimEnd (s : str) : str := rev (trimStart (rev s)).

Definition trim (s : str) : str := trimEnd (trimStart s).

(** [s.slice(a, b)] for indices [0 <= a] and [0 <= b]. *)
Definition slice (s : str) (a b : nat) : str := firstn (b - a) (skipn a s).

(** [s.slice(a)]. *)
Definition sliceFrom (s : str) (a : nat) : str := skipn a s.

(** [s.replace(/\n$/, '')]: without the [m] flag [$] only matches at the
    end of the input, so at most the final line feed is removed. *)
Fixpoint replaceFinalLf (s : str) : str :=
  match s with
  | [] => []
  | c :: s' =>
      match s' with
      | [] => if N.eqb c lf then [] else [c]
      | _ :: _ => c :: replaceFinalLf s'
      end
  end.

(** The decimal rendering of a non-negative integer, as a template
    literal produces it. *)
Definition numToString (n : nat) : str :=
  lit (DecimalString.NilEmpty.string_of_uint (Nat.to_uint n)).

Fixpoint startsWith (pat s : str) : bool :=
  match pat with
  | [] => true
  | c :: pat' =>
      match s with
      | [] => false
      | d :: s' => N.eqb c d && startsWith pat' s'
      end
  end.

End Js.

(* ================================================================= *)
(** ** The files store *)

Module FilesStore.

Import Js.

Record SavedFile := {
  id : str;
  name : str;
  content : str;
  createdAt : N;
  updatedAt : N
}.

(** The two [localStorage] entries the store owns; [None] is an absent
    key.  The JSON text under [STORAGE_KEY] is kept as the list it
    encodes. *)
Record LocalStorage := {
  storedFiles : option (list SavedFile);
  storedCurrentFile : option str
}.

(** The module's signals and its environment; [window = None] is
    [typeof window === 'undefined']. *)
Record Store := {
  files : list SavedFile;
  currentFileId : option str;
  window : option LocalStorage
}.

Definition setFiles (updated : list SavedFile) (st : Store) : Store :=
  {| files := updated;
     currentFileId := currentFileId st;
     window := window st |}.

Definition setCurrentFileIdInternal (i : option str) (st : Store) : Store :=
  {| files := files st;
     currentFileId := i;
     window := window st |}.

Definition saveToStorage (fs : list SavedFile) (st : Store) : Store :=
  match window st with
  | None => st
  | Some ls =>
      {| files := files st;
         currentFileId := currentFileId st;
         window := Some {| storedFiles := Some fs;
                           storedCurrentFile := storedCurrentFile ls |} |}
  end.

Definition saveCurrentFileId (i : option str) (st : Store) : Store :=
  match window st with
  | None => st
  | Some ls =>
      let entry :=
        match i with
        | Some s => if truthy s then Some s else None
        | None => None
        end in
      {| files := files st;
         currentFileId := currentFileId st;
         window := Some {| storedFiles := storedFiles ls;
                           storedCurrentFile := entry |} |}
  end.

Definition setCurrentFileId (i : option str) (st : Store) : Store :=
  saveCurrentFileId i (setCurrentFileIdInternal i st).

(** [createFile(name, content)].  [now] is the value [Date.now()] returns
    on the first line and [newId] the value of [generateId()], which
    reads the clock and the random generator on its own. *)
Definition createFile (now : N) (newId : str) (name0 content0 : str)
    (st : Store) : SavedFile * Store :=
  let file := {| id := newId;
                 name := if truthy name0 then name0 else lit "Untitled";
                 content := content0;
                 createdAt := now;
                 updatedAt := now |} in
  let updated := files st ++ [file] in
  (file, saveToStorage updated (setFiles updated st)).

(** [currentFileId() === id] for a string [id]. *)
Definition isCurrent (st : Store) (i : str) : bool :=
  match currentFileId st with
  | Some c => eqb c i
  | None => false
  end.

Definition deleteFile (i : str) (st : Store) : Store :=
  let updated := filter (fun f => negb (eqb (id f) i)) (files st) in
  let st1 := saveToStorage updated (setFiles updated st) in
  if isCurrent st1 i then setCurrentFileId None st1 else st1.

(** Equality of documents is decidable, field by field. *)
Definition SavedFile_eq_dec (a b : SavedFile) : {a = b} + {a <> b}.
Proof.
  decide equality; try apply N.eq_dec; apply (list_eq_dec N.eq_dec).
Defined.

End FilesStore.

(* ================================================================= *)
(** ** The markdown preview *)

Module Preview.

Import Js.

Record CodeBlockData := {
  id : str;
  code : str;
  language : str
}.

Inductive Segment :=
| SegHtml (content : str)
| SegCode (data : CodeBlockData).

(** The value of the first memo, [{ html, codeBlocks }]. *)
Record Processed := {
  html : str;
  codeBlocks : list CodeBlockData
}.

(** *** The parser's tokens and renderer table *)

(** The node kinds the renderer dispatches on: the two the component
    overrides, the [inline] container, and every other kind by name. *)
Inductive TokenType :=
| fence
| code_block
| inline
| other (kind : string).

(** The fields of a markdown-it token the component reads, and the tag
    the library renders it with. *)
Record Token := {
  type : TokenType;
  tag : str;
  info : str;
  content : str
}.

(** The function values that can sit in [md.renderer.rules]: one of the
    library's own rules, or one of the five closures the first memo
    installs. *)
Inductive Rule :=
| libRule (ruleName : string)
| fenceClosure
| codeBlockClosure
| imageClosure
| linkOpenClosure
| linkCloseClosure.

(** The five entries of [md.renderer.rules] the component touches;
    [None] is [undefined]. *)
Record RendererRules := {
  rules_fence : option Rule;
  rules_code_block : option Rule;
  rules_image : option Rule;
  rules_link_open : option Rule;
  rules_link_close : option Rule
}.

Definition set_fence (v : option Rule) (r : RendererRules) :=
  {| rules_fence := v;
     rules_code_block := rules_code_block r;
     rules_image := rules_image r;
     rules_link_open := rules_link_open r;
     rules_link_close := rules_link_close r |}.

Definition set_code_block (v : option Rule) (r : RendererRules) :=
  {| rules_fence := rules_fence r;
     rules_code_block := v;
     rules_image := rules_image r;
     rules_link_open := rules_link_open r;
     rules_link_close := rules_link_close r |}.

Definition set_image (v : option Rule) (r : RendererRules) :=
  {| rules_fence := rules_fence r;
     rules_code_block := rules_code_block r;
     rules_image := v;
     rules_link_open := rules_link_open r;
     rules_link_close := rules_link_close r |}.

Definition set_link_open (v : option Rule) (r : RendererRules) :=
  {| rules_fence := rules_fence r;
     rules_code_block := rules_code_block r;
     rules_image := rules_image r;
     rules_link_open := v;
     rules_link_close := rules_link_close r |}.

Definition set_link_close (v : option Rule) (r : RendererRules) :=
  {| rules_fence := rules_fence r;
     rules_code_block := rules_code_block r;
     rules_image := rules_image r;
     rules_link_open := rules_link_open r;
     rules_link_close := v |}.

(** *** The two intercepting closures *)

(** The variables of one run of the first memo that its closures
    capture: the array [codeBlocks] and the counter [blockIndex]. *)
Record Pass := {
  pushed : list CodeBlockData;
  blockIndex : nat
}.

Definition markerOpen : str := lit "<div data-code-block-id=" ++ [quote].
Definition markerClose : str := [quote] ++ lit "></div>".

(** The placeholder element for an identifier: the opening text up to
    and including the attribute's double quote, the identifier, and the
    closing text from the double quote on. *)
Definition placeholder (i : str) : str := markerOpen ++ i ++ markerClose.

(** [`code-block-${n}`] *)
Definition blockId (n : nat) : str := lit "code-block-" ++ numToString n.

(** [md.renderer.rules.fence = (tokens, idx) => ...], applied to
    [tokens[idx]]. *)
Definition fenceRule (token : Token) (p : Pass) : str * Pass :=
  let code0 := content token in
  let language0 := if truthy (info token) then info token
                   else lit "plaintext" in
  let id0 := blockId (blockIndex p) in
  (placeholder id0,
   {| pushed := pushed p ++ [ {| id := id0;
                                 code := replaceFinalLf code0;
                                 language := language0 |} ];
      blockIndex := S (blockIndex p) |}).

(** [md.renderer.rules.code_block = (tokens, idx) => ...], applied to
    [tokens[idx]]. *)
Definition codeBlockRule (token : Token) (p : Pass) : str * Pass :=
  let code0 := content token in
  let id0 := blockId (blockIndex p) in
  (placeholder id0,
   {| pushed := pushed p ++ [ {| id := id0;
                                 code := replaceFinalLf code0;
                                 language := lit "plaintext" |} ];
      blockIndex := S (blockIndex p) |}).

(** *** The parser *)

Section Parser.

(** markdown-it's tokenizer, [md.parse]. *)
Variable parse : str -> list Token.

(** What markdown-it's renderer appends for [tokens[i]] under a rules
    table whenever the entry it dispatches to is not one of the two
    code closures above: its own rules, [renderToken], the inline
    renderer (which is where the image and link entries are used). *)
Variable libPiece : RendererRules -> list Token -> nat -> str.

(** [md.renderer.rules] as the library set it up, read when the
    module is loaded. *)
Variable libRules : RendererRules.

Definition originalFence := rules_fence libRules.
Definition originalCodeBlock := rules_code_block libRules.
Definition originalImage := rules_image libRules.
Definition originalLinkOpen := rules_link_open libRules.
Definition originalLinkClose := rules_link_close libRules.

(** The table entry a block-level token kind dispatches to. *)
Definition ruleFor (rules : RendererRules) (ty : TokenType)
    : option Rule :=
  match ty with
  | fence => rules_fence rules
  | code_block => rules_code_block rules
  | inline => None
  | other _ => None
  end.

(** One turn of the loop of [Renderer.prototype.render]. *)
Definition renderPiece (rules : RendererRules) (tokens : list Token)
    (i : nat) (token : Token) (p : Pass) : str * Pass :=
  match ruleFor rules (type token) with
  | Some fenceClosure => fenceRule token p
  | Some codeBlockClosure => codeBlockRule token p
  | _ => (libPiece rules tokens i, p)
  end.

Fixpoint renderFrom (rules : RendererRules) (tokens rest : list Token)
    (i : nat) (result : str) (p : Pass) : str * Pass :=
  match rest with
  | [] => (result, p)
  | token :: rest' =>
      let '(piece, p') := renderPiece rules tokens i token p in
      renderFrom rules tokens rest' (S i) (result ++ piece) p'
  end.

(** [md.render(source)] under the table [rules]. *)
Definition render (rules : RendererRules) (source : str) (p : Pass)
    : str * Pass :=
  let tokens := parse source in
  renderFrom rules tokens tokens 0 [] p.

(** *** First memo: [processedContent] *)

(** The memo reads [props.content] and the shared table
    [md.renderer.rules], and leaves a table behind. *)
Definition processedContent (rules : RendererRules) (source : str)
    : Processed * RendererRules :=
  if negb (truthy (trim source)) then
    ({| html := []; codeBlocks := [] |}, rules)
  else
    let p0 := {| pushed := []; blockIndex := 0 |} in
    let rules := set_fence (Some fenceClosure) rules in
    let rules := set_code_block (Some codeBlockClosure) rules in
    let rules := set_image (Some imageClosure) rules in
    let rules := set_link_open (Some linkOpenClosure) rules in
    let rules := set_link_close (Some linkCloseClosure) rules in
    let '(html0, p) := render rules source p0 in
    let rules := set_fence originalFence rules in
    let rules := set_code_block originalCodeBlock rules in
    let rules := set_image originalImage rules in
    let rules := set_link_open originalLinkOpen rules in
    let rules := set_link_close originalLinkClose rules in
    ({| html := html0; codeBlocks := pushed p |}, rules).

End Parser.

(** *** Second memo: [segments] *)

(** A JavaScript [Map] from identifiers to descriptors: [set] on a key
    that is present overwrites its value. *)
Definition JsMap := list (str * CodeBlockData).

Fixpoint mapSet (m : JsMap) (k : str) (v : CodeBlockData) : JsMap :=
  match m with
  | [] => [(k, v)]
  | (k', v') :: m' =>
      if eqb k' k then (k', v) :: m' else (k', v') :: mapSet m' k v
  end.

Fixpoint mapGet (m : JsMap) (k : str) : option CodeBlockData :=
  match m with
  | [] => None
  | (k', v') :: m' => if eqb k' k then Some v' else mapGet m' k
  end.

(** [new Map(entries)] *)
Definition newMap (entries : list (str * CodeBlockData)) : JsMap :=
  fold_left (fun m e => mapSet m (fst e) (snd e)) entries [].

(** A successful [regex.exec]: [match.index], [match[0].length] and
    [match[1]]. *)
Record Match := {
  index : nat;
  length0 : nat;
  group1 : str
}.

(** The longest run of code units other than the double quote, what the
    greedy negated class of the regular expression consumes. *)
Fixpoint takeNonQuote (s : str) : str :=
  match s with
  | [] => []
  | c :: s' => if N.eqb c quote then [] else c :: takeNonQuote s'
  end.

(** The placeholder regular expression anchored at the start of [s]:
    [markerOpen], one or more code units other than the double quote
    (group 1), [markerClose].  The class can only stop in front of a
    double quote, so backtracking never yields a second candidate. *)
Definition matchHere (s : str) : option (str * nat) :=
  if startsWith markerOpen s then
    let after := skipn (length markerOpen) s in
    let g := takeNonQuote after in
    if truthy g && startsWith markerClose (skipn (length g) after) then
      Some (g, length markerOpen + length g + length markerClose)
    else None
  else None.

(** The leftmost match in [s], where [s] starts at position [i]. *)
Fixpoint search (s : str) (i : nat) : option Match :=
  match matchHere s with
  | Some (g, n) => Some {| index := i; length0 := n; group1 := g |}
  | None =>
      match s with
      | [] => None
      | _ :: s' => search s' (S i)
      end
  end.

(** [regex.exec(html)] with [regex.lastIndex = lastIndex]. *)
Definition exec (html0 : str) (lastIndex : nat) : option Match :=
  search (skipn lastIndex html0) lastIndex.

Definition push (result : list Segment) (s : Segment) : list Segment :=
  result ++ [s].

(** The [while (match !== null)] loop.  It returns [lastIndex] and
    [result] as they are when [exec] finds nothing more; [fuel] bounds
    the number of turns. *)
Fixpoint scanLoop (fuel : nat) (html0 : str) (codeBlockMap : JsMap)
    (lastIndex : nat) (result : list Segment)
    : option (nat * list Segment) :=
  match fuel with
  | 0 => None
  | S fuel' =>
      match exec html0 lastIndex with
      | None => Some (lastIndex, result)
      | Some m =>
          let result :=
            if lastIndex <? index m then
              let htmlContent := slice html0 lastIndex (index m) in
              if truthy (trim htmlContent)
              then push result (SegHtml htmlContent)
              else result
            else result in
          let result :=
            match mapGet codeBlockMap (group1 m) with
            | Some codeBlock => push result (SegCode codeBlock)
            | None => result
            end in
          scanLoop fuel' html0 codeBlockMap (index m + length0 m) result
      end
  end.

(** The second memo on the value of the first; every match is at least
    one code unit long, so [length html + 1] turns are enough (see
    [segmentsOf_total]). *)
Definition segmentsOf (pc : Processed) : option (list Segment) :=
  let html0 := html pc in
  if negb (truthy html0) then Some []
  else
    let codeBlockMap :=
      newMap (map (fun cb => (id cb, cb)) (codeBlocks pc)) in
    match scanLoop (S (length html0)) html0 codeBlockMap 0 [] with
    | None => None
    | Some (lastIndex, result) =>
        Some
          (if lastIndex <? length html0 then
             let htmlContent := sliceFrom html0 lastIndex in
             if truthy (trim htmlContent)
             then push result (SegHtml htmlContent)
             else result
           else result)
    end.

(** The component's segment list for a document, from the table
    [rules] the first memo finds. *)
Definition segments (parse : str -> list Token)
    (libPiece : RendererRules -> list Token -> nat -> str)
    (libRules rules : RendererRules) (source : str)
    : option (list Segment) :=
  segmentsOf (fst (processedContent parse libPiece libRules rules source)).

End Preview.

(* ================================================================= *)
(** ** A concrete parser to run the component on *)

(** An instance of the two library parameters.  It follows markdown-it's
    block rules and renderer on a small family of documents: every line is
    blank (spaces and tabs only), a backquote fence at column 0, text
    indented by four or more spaces, a one-line link reference definition,
    or plain words (letters, digits and single spaces, none at either end).
    Nothing is proved about markdown-it; the instance serves to evaluate
    the component on the documents listed at the end of the module. *)
Module MiniMd.

Import Js Preview.

(** The lines of the source, each with whether a line feed ends it. *)
Fixpoint lines (cur s : str) : list (str * bool) :=
  match s with
  | [] => match cur with [] => [] | _ :: _ => [(cur, false)] end
  | c :: s' =>
      if N.eqb c lf then (cur, true) :: lines [] s'
      else lines (cur ++ [c]) s'
  end.

Definition isSpace (c : N) : bool := (N.eqb c 32 || N.eqb c 9)%N.

Definition isBlank (l : str) : bool := forallb isSpace l.

Fixpoint countLeading (c : N) (l : str) : nat :=
  match l with
  | [] => 0
  | d :: l' => if N.eqb d c then S (countLeading c l') else 0
  end.

Definition backquote : N := 96%N.

(** An opening fence: at least three backquotes, then an info string
    without backquotes.  Yields the fence length and the info string. *)
Definition fenceOpen (l : str) : option (nat * str) :=
  let n := countLeading backquote l in
  if 3 <=? n then
    let params := skipn n l in
    if existsb (N.eqb backquote) params then None else Some (n, params)
  else None.

Definition fenceClose (n : nat) (l : str) : bool :=
  let k := countLeading backquote l in
  (n <=? k) && isBlank (skipn k l).

Definition isAlnum (c : N) : bool :=
  ((48 <=? c) && (c <=? 57) || (65 <=? c) && (c <=? 90)
   || (97 <=? c) && (c <=? 122))%N.

Definition isUrlChar (c : N) : bool :=
  (isAlnum c || (c =? 47) || (c =? 46) || (c =? 58) || (c =? 45)
   || (c =? 95))%N.

Fixpoint takeWhile (f : N -> bool) (l : str) : str :=
  match l with
  | [] => []
  | c :: l' => if f c then c :: takeWhile f l' else []
  end.

(** A one-line link reference definition: a bracketed label of letters
    and digits, a colon, spaces, and a destination up to the end of the
    line. *)
Definition isRefDef (l : str) : bool :=
  match l with
  | c :: l1 =>
      if N.eqb c 91 then
        let label := takeWhile isAlnum l1 in
        let l2 := skipn (length label) l1 in
        truthy label && startsWith (lit "]:") l2 &&
        (let l3 := skipn 2 l2 in
         let dest := skipn (countLeading 32%N l3) l3 in
         truthy dest && forallb isUrlChar dest)
      else false
  | [] => false
  end.

Definition mkToken (ty : TokenType) (tg info0 content0 : str) : Token :=
  {| type := ty; tag := tg; info := info0; content := content0 |}.

Definition paragraph (text : str) : list Token :=
  [ mkToken (other "paragraph_open") (lit "p") [] [];
    mkToken inline [] [] (trim text);
    mkToken (other "paragraph_close") (lit "p") [] [] ].

Definition fenceToken (params body : str) : Token :=
  mkToken fence (lit "code") params body.

Definition codeToken (body : str) : Token :=
  mkToken code_block (lit "code") [] body.

Inductive Mode :=
  | Top
  | InPara (text : str)
  | InFence (n : nat) (params body : str)
  | InCode (body blanks : str).

Definition withLf (l : str) (terminated : bool) : str :=
  if terminated then l ++ [lf] else l.

(** A line met outside of any open block. *)
Definition startBlock (l : str) : Mode :=
  if isBlank l then Top
  else if 4 <=? countLeading 32%N l then InCode (skipn 4 l ++ [lf]) []
  else match fenceOpen l with
       | Some (n, params) => InFence n params []
       | None => if isRefDef l then Top else InPara l
       end.

Fixpoint blocks (mode : Mode) (ls : list (str * bool)) : list Token :=
  match ls with
  | [] =>
      match mode with
      | Top => []
      | InPara text => paragraph text
      | InFence _ params body => [fenceToken params body]
      | InCode body _ => [codeToken body]
      end
  | (l, terminated) :: ls' =>
      match mode with
      | Top => blocks (startBlock l) ls'
      | InPara text =>
          if isBlank l then paragraph text ++ blocks Top ls'
          else match fenceOpen l with
               | Some (n, params) =>
                   paragraph text ++ blocks (InFence n params []) ls'
               | None => blocks (InPara (text ++ [lf] ++ l)) ls'
               end
      | InFence n params body =>
          if fenceClose n l then fenceToken params body :: blocks Top ls'
          else blocks (InFence n params (body ++ withLf l terminated)) ls'
      | InCode body blanks =>
          if isBlank l then
            blocks (InCode body (blanks ++ skipn 4 l ++ [lf])) ls'
          else if 4 <=? countLeading 32%N l then
            blocks (InCode (body ++ blanks ++ skipn 4 l ++ [lf]) []) ls'
          else codeToken body :: blocks (startBlock l) ls'
      end
  end.

Definition parse (source : str) : list Token := blocks Top (lines [] source).

Fixpoint escapeHtml (s : str) : str :=
  match s with
  | [] => []
  | c :: s' =>
      (if N.eqb c 38 then lit "&amp;"
       else if N.eqb c 60 then lit "&lt;"
       else if N.eqb c 62 then lit "&gt;"
       else if N.eqb c quote then lit "&quot;"
       else [c]) ++ escapeHtml s'
  end.

(** Inline text with [breaks: true]: a line feed becomes a break. *)
Fixpoint renderInline (s : str) : str :=
  match s with
  | [] => []
  | c :: s' =>
      (if N.eqb c lf then lit "<br>" ++ [lf] else escapeHtml [c])
      ++ renderInline s'
  end.

(** [renderToken] on the block tokens of this instance. *)
Definition renderToken (t : Token) : str :=
  match type t with
  | other "paragraph_close" => lit "</" ++ tag t ++ lit ">" ++ [lf]
  | other "paragraph_open" => lit "<" ++ tag t ++ lit ">"
  | _ => lit "<" ++ tag t ++ lit ">" ++ [lf]
  end.

(** The library's own [fence] rule, without a highlighter. *)
Definition defaultFence (t : Token) : str :=
  let info0 := trim (info t) in
  let langName := takeWhile (fun c => negb (isWhiteSpace c)) info0 in
  (if truthy info0
   then lit "<pre><code class=" ++ [quote] ++ lit "language-"
        ++ escapeHtml langName ++ [quote] ++ lit ">"
   else lit "<pre><code>")
  ++ escapeHtml (content t) ++ lit "</code></pre>" ++ [lf].

(** The library's own [code_block] rule. *)
Definition defaultCodeBlock (t : Token) : str :=
  lit "<pre><code>" ++ escapeHtml (content t) ++ lit "</code></pre>" ++ [lf].

Definition libPiece (rules : RendererRules) (tokens : list Token)
    (i : nat) : str :=
  match nth_error tokens i with
  | None => []
  | Some t =>
      match type t with
      | fence =>
          match rules_fence rules with
          | Some (libRule _) => defaultFence t
          | _ => renderToken t
          end
      | code_block =>
          match rules_code_block rules with
          | Some (libRule _) => defaultCodeBlock t
          | _ => renderToken t
          end
      | inline => renderInline (content t)
      | other _ => renderToken t
      end
  end.

(** markdown-it ships rules for [fence], [code_block] and [image], and
    none for [link_open] and [link_close]. *)
Definition libRules : RendererRules :=
  {| rules_fence := Some (libRule "fence");
     rules_code_block := Some (libRule "code_block");
     rules_image := Some (libRule "image");
     rules_link_open := None;
     rules_link_close := None |}.

Definition processedContent := Preview.processedContent parse libPiece libRules.
Definition segments := Preview.segments parse libPiece libRules.

(** *** Documents used below *)

(** A paragraph, a fence holding [x], a paragraph. *)
Definition docOrder : str :=
  lit "A" ++ [lf] ++ lit "```" ++ [lf] ++ lit "x" ++ [lf]
  ++ lit "```" ++ [lf] ++ lit "B".

(** A fence tagged [js] whose body ends in two line feeds, then an
    indented block. *)
Definition docTwoBlocks : str :=
  lit "```js" ++ [lf] ++ lit "let a" ++ [lf] ++ [lf] ++ lit "```" ++ [lf]
  ++ [lf] ++ lit "    indented" ++ [lf].

(** Three spaces, a line feed, a tab. *)
Definition docWhiteSpace : str := lit "   " ++ [lf; 9%N].

(** Four spaces and a form feed (U+000C): white space for [trim], an
    indented code block holding the form feed for the tokenizer. *)
Definition docFormFeed : str := lit "    " ++ [12%N].

(** A link reference definition on its own: it renders to nothing. *)
Definition docRefDef : str := lit "[foo]: /url".

(** Two plain words. *)
Definition docPlain : str := lit "hello world".

(** A rendered text with a placeholder nobody recorded. *)
Definition htmlStray : str :=
  lit "<p>a</p>" ++ placeholder (lit "code-block-9") ++ lit "<p>b</p>".

End MiniMd.

(* ================================================================= *)
(** ** The reading of a rendered document, for comparison *)

(** What the specification says the segment list is, written directly on
    the token stream: the tokens are taken top to bottom, every code token
    becomes a code segment, and the markup of the tokens between two code
    tokens becomes one HTML segment unless it is blank. *)
Module DocOrder.

Import Js Preview.

Definition isCode (t : Token) : bool :=
  match type t with
  | fence => true
  | code_block => true
  | inline => false
  | other _ => false
  end.

(** The fenced and indented code blocks of a token stream, in order. *)
Definition codeTokens (tokens : list Token) : list Token :=
  filter isCode tokens.

(** The language tag the specification assigns to a code token. *)
Definition languageOf (t : Token) : str :=
  match type t with
  | fence => match info t with
             | [] => lit "plaintext"
             | _ :: _ => info t
             end
  | _ => lit "plaintext"
  end.

(** The descriptor of the [n]-th code block of a document. *)
Definition describe (n : nat) (t : Token) : CodeBlockData :=
  {| id := blockId n;
     code := replaceFinalLf (content t);
     language := languageOf t |}.

Fixpoint describeFrom (n : nat) (ts : list Token) : list CodeBlockData :=
  match ts with
  | [] => []
  | t :: ts' => describe n t :: describeFrom (S n) ts'
  end.

(** The table while the first memo renders. *)
Definition installed : RendererRules :=
  {| rules_fence := Some fenceClosure;
     rules_code_block := Some codeBlockClosure;
     rules_image := Some imageClosure;
     rules_link_open := Some linkOpenClosure;
     rules_link_close := Some linkCloseClosure |}.

(** A rendered document as a sequence of pieces: markup from the
    library, or the place of a code block. *)
Inductive Piece :=
  | PText (t : str)
  | PBlock (cb : CodeBlockData).

Definition pieceText (p : Piece) : str :=
  match p with
  | PText t => t
  | PBlock cb => placeholder (id cb)
  end.

Definition piecesText (ps : list Piece) : str := concat (map pieceText ps).

(** The pieces of [rest], the tokens from position [i] on, of which the
    first code block is the [n]-th of the document. *)
Fixpoint piecesFrom (libPiece : RendererRules -> list Token -> nat -> str)
    (tokens rest : list Token) (i n : nat) : list Piece :=
  match rest with
  | [] => []
  | t :: rest' =>
      if isCode t
      then PBlock (describe n t) :: piecesFrom libPiece tokens rest' (S i) (S n)
      else PText (libPiece installed tokens i)
           :: piecesFrom libPiece tokens rest' (S i) n
  end.

Definition piecesOf (libPiece : RendererRules -> list Token -> nat -> str)
    (tokens : list Token) : list Piece :=
  piecesFrom libPiece tokens tokens 0 0.

(** An HTML segment, unless the fragment is blank. *)
Definition htmlSeg (t : str) : list Segment :=
  if truthy (trim t) then [SegHtml t] else [].

(** The segments of a sequence of pieces; [acc] is the markup gathered
    since the last code block. *)
Fixpoint assemble (acc : str) (ps : list Piece) : list Segment :=
  match ps with
  | [] => htmlSeg acc
  | PText t :: ps' => assemble (acc ++ t) ps'
  | PBlock cb :: ps' => htmlSeg acc ++ SegCode cb :: assemble [] ps'
  end.

(** Whether the opening text of the placeholder occurs in [t]. *)
Fixpoint hasOpen (t : str) : bool :=
  match t with
  | [] => false
  | _ :: t' => startsWith markerOpen t || hasOpen t'
  end.

(** The library's part of the contract: between two code blocks its
    markup never contains the opening text of a placeholder. *)
Fixpoint cleanRuns (acc : str) (ps : list Piece) : bool :=
  match ps with
  | [] => negb (hasOpen acc)
  | PText t :: ps' => cleanRuns (acc ++ t) ps'
  | PBlock _ :: ps' => negb (hasOpen acc) && cleanRuns [] ps'
  end.

Definition cleanDocument
    (libPiece : RendererRules -> list Token -> nat -> str)
    (tokens : list Token) : bool :=
  cleanRuns [] (piecesOf libPiece tokens).

(** The descriptors of the code segments of a list, in order. *)
Fixpoint codeOf (segs : list Segment) : list CodeBlockData :=
  match segs with
  | [] => []
  | SegCode cb :: segs' => cb :: codeOf segs'
  | SegHtml _ :: segs' => codeOf segs'
  end.

(** The fragments of the HTML segments of a list, in order. *)
Fixpoint htmlOf (segs : list Segment) : list str :=
  match segs with
  | [] => []
  | SegHtml c :: segs' => c :: htmlOf segs'
  | SegCode _ :: segs' => htmlOf segs'
  end.

Definition codeSeg (m : JsMap) (g : str) : list Segment :=
  match mapGet m g with
  | Some cb => [SegCode cb]
  | None => []
  end.

(** The scan on the text that is left, [html.slice(lastIndex)]. *)
Fixpoint scanRest (fuel : nat) (m : JsMap) (s : str)
    : option (list Segment) :=
  match fuel with
  | 0 => None
  | S fuel' =>
      match search s 0 with
      | None => Some (htmlSeg s)
      | Some mt =>
          match scanRest fuel' m (skipn (index mt + length0 mt) s) with
          | None => None
          | Some r =>
              Some (htmlSeg (firstn (index mt) s)
                    ++ codeSeg m (group1 mt) ++ r)
          end
      end
  end.

(** An identifier the regular expression can capture: not empty and free
    of double quotes. *)
Definition capturable (g : str) : Prop :=
  g <> [] /\ Forall (fun c => c <> quote) g.

(** A match found in a text that starts at position [i]. *)
Definition shiftMatch (i : nat) (m : Match) : Match :=
  {| index := i + index m; length0 := length0 m; group1 := group1 m |}.

(** The last step of the second memo, after the loop. *)
Definition finish (html0 : str) (st : nat * list Segment) : list Segment :=
  let '(lastIndex, result) := st in
  if lastIndex <? length html0 then
    let htmlContent := sliceFrom html0 lastIndex in
    if truthy (trim htmlContent)
    then push result (SegHtml htmlContent)
    else result
  else result.

(** The descriptors carried by a piece list, in order. *)
Fixpoint blocksOf (ps : list Piece) : list CodeBlockData :=
  match ps with
  | [] => []
  | PText _ :: ps' => blocksOf ps'
  | PBlock cb :: ps' => cb :: blocksOf ps'
  end.

(** The blocks of a piece list are in the map under capturable keys. *)
Definition mapped (m : JsMap) (ps : list Piece) : Prop :=
  forall cb, In (PBlock cb) ps ->
             mapGet m (id cb) = Some cb /\ capturable (id cb).

(** The identifiers [match[1]] of the successive matches of the loop, on
    the text that is left; [fuel] bounds the number of matches. *)
Fixpoint foundIds (fuel : nat) (s : str) : list str :=
  match fuel with
  | 0 => []
  | S fuel' =>
      match search s 0 with
      | None => []
      | Some mt =>
          group1 mt :: foundIds fuel' (skipn (index mt + length0 mt) s)
      end
  end.

(** The identifiers of the placeholders the scan finds in [html0], from
    left to right; a match is at least one code unit long, so the bound
    is never reached (see [foundIds_fuel]). *)
Definition placeholdersOf (html0 : str) : list str :=
  foundIds (S (length html0)) html0.

(** [codeBlockMap] of the second memo. *)
Definition codeBlockMapOf (blocks : list CodeBlockData) : JsMap :=
  newMap (map (fun cb => (id cb, cb)) blocks).

(** What [codeBlockMap.get(g)] contributes to the code segments: the
    descriptor it returns, nothing when it returns [undefined]. *)
Definition recorded (blocks : list CodeBlockData) (g : str)
    : list CodeBlockData :=
  match mapGet (codeBlockMapOf blocks) g with
  | Some cb => [cb]
  | None => []
  end.

End DocOrder.

(* ================================================================= *)
(** ** The rest of the files store *)

Module FilesOps.

Import Js FilesStore.

(** The [updates] argument of [updateFile], a
    [Partial<Pick<SavedFile, 'name' | 'content'>>]: [None] is a key the
    object does not have. *)
Record Updates := {
  newName : option str;
  newContent : option str
}.

(** [{ ...f, ...updates, updatedAt: now }] *)
Definition applyUpdates (f : SavedFile) (u : Updates) (now : N) : SavedFile :=
  {| id := id f;
     name := match newName u with Some n => n | None => name f end;
     content := match newContent u with Some c => c | None => content f end;
     createdAt := createdAt f;
     updatedAt := now |}.

(** The [map] of [updateFile].  [Date.now()] is read once for every file
    that matches; [clock k] is the value of the [k]-th reading. *)
Fixpoint updateAll (clock : nat -> N) (k : nat) (i : str) (u : Updates)
    (fs : list SavedFile) : list SavedFile :=
  match fs with
  | [] => []
  | f :: fs' =>
      if eqb (id f) i
      then applyUpdates f u (clock k) :: updateAll clock (S k) i u fs'
      else f :: updateAll clock k i u fs'
  end.

Definition updateFile (clock : nat -> N) (i : str) (u : Updates)
    (st : Store) : Store :=
  let updated := updateAll clock 0 i u (files st) in
  saveToStorage updated (setFiles updated st).

(** [id ? files().find((f) => f.id === id) : undefined] *)
Definition getCurrentFile (st : Store) : option SavedFile :=
  match currentFileId st with
  | Some i =>
      if truthy i then find (fun f => eqb (id f) i) (files st) else None
  | None => None
  end.

Definition saveCurrentDraft (clock : nat -> N) (content0 : str)
    (st : Store) : Store :=
  match currentFileId st with
  | Some i =>
      if truthy i
      then updateFile clock i {| newName := None; newContent := Some content0 |} st
      else st
  | None => st
  end.

(** [loadFromStorage]; the stored text is kept as the list it encodes, so
    a missing key is the only way to the empty list here. *)
Definition loadFromStorage (w : option LocalStorage) : list SavedFile :=
  match w with
  | None => []
  | Some ls =>
      match storedFiles ls with
      | Some fs => fs
      | None => []
      end
  end.

Definition loadCurrentFileId (w : option LocalStorage) : option str :=
  match w with
  | None => None
  | Some ls => storedCurrentFile ls
  end.

(** The store together with its third signal, [isInitialized]. *)
Record Session := {
  store : Store;
  isInitialized : bool
}.

Definition initializeFilesStore (s : Session) : Session :=
  if isInitialized s then s
  else
    let loadedFiles := loadFromStorage (window (store s)) in
    let st := setFiles loadedFiles (store s) in
    let currentId := loadCurrentFileId (window st) in
    let st :=
      match currentId with
      | Some c =>
          if truthy c && existsb (fun f => eqb (id f) c) loadedFiles
          then setCurrentFileIdInternal (Some c) st
          else st
      | None => st
      end in
    {| store := st; isInitialized := true |}.

(** The module as it is when the page has just been loaded: the signals
    hold their initial values and the browser has kept [localStorage]. *)
Definition pageLoad (w : option LocalStorage) : Session :=
  {| store := {| files := []; currentFileId := None; window := w |};
     isInitialized := false |}.

(** Closing the page and opening it again. *)
Definition reload (st : Store) : Store :=
  store (initializeFilesStore (pageLoad (window st))).

(** The selection is null or the identifier of a stored document. *)
Definition selectionValid (st : Store) : Prop :=
  match currentFileId st with
  | None => True
  | Some c => exists f, In f (files st) /\ id f = c
  end.

(** A store in a browser, a clock, and documents to try the operations
    on. *)
Definition fileA : SavedFile :=
  {| id := lit "1-a"; name := lit "Notes"; content := lit "one";
     createdAt := 1; updatedAt := 1 |}.

Definition fileB : SavedFile :=
  {| id := lit "2-b"; name := lit "Draft"; content := lit "two";
     createdAt := 2; updatedAt := 5 |}.

Definition browserStore : Store :=
  {| files := [fileA; fileB];
     currentFileId := Some (lit "2-b");
     window := Some {| storedFiles := Some [fileA; fileB];
                       storedCurrentFile := Some (lit "2-b") |} |}.

Definition clock9 (k : nat) : N := 9 + N.of_nat k.

End FilesOps.

(* ================================================================= *)
(** ** The image and link renderers of the preview *)

(** The three other closures the first memo installs.  They are called by
    the library's inline renderer on the children of an [inline] token. *)
Module InlineRules.

Import Js.

Inductive InlineType :=
| image
| link_open
| link_close
| otherInline (kind : string).

(** The fields of an inline token the closures read. *)
Record InlineToken := {
  itype : InlineType;
  level : Z
}.

Definition isImage (t : InlineType) : bool :=
  match t with image => true | _ => false end.

Definition isLinkOpen (t : InlineType) : bool :=
  match t with link_open => true | _ => false end.

Definition isLinkClose (t : InlineType) : bool :=
  match t with link_close => true | _ => false end.

(** The button after an image: its [type], [class], the marker attribute,
    [aria-pressed], [aria-label] and [title], and its text. *)
Definition imageToggleButtonHtml : str :=
  lit "<button type=" ++ [quote] ++ lit "button" ++ [quote]
  ++ lit " class=" ++ [quote] ++ lit "md-image-toggle" ++ [quote]
  ++ lit " data-md-image-toggle aria-pressed=" ++ [quote] ++ lit "false"
  ++ [quote] ++ lit " aria-label=" ++ [quote] ++ lit "Invert image colors"
  ++ [quote] ++ lit " title=" ++ [quote] ++ lit "Invert colors" ++ [quote]
  ++ lit ">Invert</button>".

(** The opening tag of the wrapper of an image. *)
Definition wrapperOpen : str :=
  lit "<span class=" ++ [quote] ++ lit "md-image" ++ [quote]
  ++ lit " data-md-image>".

Definition wrapperClose : str := lit "</span>".

(** [tokens[k]?.type === wanted] for an index that is not negative. *)
Definition typeIs (wanted : InlineType -> bool) (tokens : list InlineToken)
    (k : nat) : bool :=
  match nth_error tokens k with
  | Some t => wanted (itype t)
  | None => false
  end.

(** [tokens[idx - k]?.type === wanted]; a negative index finds nothing. *)
Definition typeBeforeIs (wanted : InlineType -> bool)
    (tokens : list InlineToken) (idx k : nat) : bool :=
  if k <=? idx then typeIs wanted tokens (idx - k) else false.

(** The [for] loop of the image closure, on the tokens in front of the
    image from the nearest one backwards. *)
Fixpoint scanBack (parentLevel : Z) (before : list InlineToken) : bool :=
  match before with
  | [] => false
  | token :: before' =>
      if negb (Z.eqb (level token) parentLevel) then scanBack parentLevel before'
      else if isLinkClose (itype token) then false
      else if isLinkOpen (itype token) then true
      else scanBack parentLevel before'
  end.

Section Defaults.

(** [defaultImageRenderer], [defaultLinkOpenRenderer] and
    [defaultLinkCloseRenderer]: the library's rule when it has one, its
    [renderToken] otherwise. *)
Variable defaultImageRenderer : list InlineToken -> nat -> str.
Variable defaultLinkOpenRenderer : list InlineToken -> nat -> str.
Variable defaultLinkCloseRenderer : list InlineToken -> nat -> str.

Definition isInsideLink (tokens : list InlineToken) (idx : nat)
    (token : InlineToken) : bool :=
  let parentLevel := (level token - 1)%Z in
  if (0 <=? parentLevel)%Z
  then scanBack parentLevel (rev (firstn idx tokens))
  else false.

(** [md.renderer.rules.image]; [None] is the [TypeError] of reading
    [tokens[idx].level] when there is no such token. *)
Definition imageRule (tokens : list InlineToken) (idx : nat) : option str :=
  let imageHtml := defaultImageRenderer tokens idx in
  match nth_error tokens idx with
  | None => None
  | Some token =>
      if isInsideLink tokens idx token then Some imageHtml
      else Some (wrapperOpen ++ imageHtml ++ imageToggleButtonHtml
                 ++ wrapperClose)
  end.

Definition isImageLinkAtOpen (tokens : list InlineToken) (idx : nat) : bool :=
  typeIs isImage tokens (idx + 1) && typeIs isLinkClose tokens (idx + 2).

(** [md.renderer.rules.link_open] *)
Definition linkOpenRule (tokens : list InlineToken) (idx : nat) : str :=
  if negb (isImageLinkAtOpen tokens idx)
  then defaultLinkOpenRenderer tokens idx
  else wrapperOpen ++ defaultLinkOpenRenderer tokens idx.

Definition isImageLinkAtClose (tokens : list InlineToken) (idx : nat) : bool :=
  typeBeforeIs isImage tokens idx 1 && typeBeforeIs isLinkOpen tokens idx 2.

(** [md.renderer.rules.link_close] *)
Definition linkCloseRule (tokens : list InlineToken) (idx : nat) : str :=
  if negb (isImageLinkAtClose tokens idx)
  then defaultLinkCloseRenderer tokens idx
  else defaultLinkCloseRenderer tokens idx ++ imageToggleButtonHtml
       ++ wrapperClose.

End Defaults.

(** The children of a paragraph holding a linked image between two
    texts, and stand-ins for the library's renderers. *)
Definition linkedImage : list InlineToken :=
  [ {| itype := otherInline "text"; level := 0 |};
    {| itype := link_open; level := 0 |};
    {| itype := image; level := 1 |};
    {| itype := link_close; level := 0 |};
    {| itype := otherInline "text"; level := 0 |} ].

Definition plainImg (tokens : list InlineToken) (idx : nat) : str :=
  lit "<img>".
Definition plainOpen (tokens : list InlineToken) (idx : nat) : str :=
  lit "<a>".
Definition plainClose (tokens : list InlineToken) (idx : nat) : str :=
  lit "</a>".

End InlineRules.

(* ================================================================= *)
(** ** The code block component: the language it highlights with *)

Module CodeBlockView.

Import Js.

(** [SUPPORTED_LANGUAGES], a [Set]. *)
Definition SUPPORTED_LANGUAGES : list str :=
  [
    lit "javascript"; lit "js"; lit "typescript"; lit "ts";
    lit "jsx"; lit "tsx"; lit "html"; lit "css";
    lit "scss"; lit "json"; lit "markdown"; lit "md";
    lit "python"; lit "py"; lit "rust"; lit "go";
    lit "java"; lit "c"; lit "cpp"; lit "csharp";
    lit "cs"; lit "php"; lit "ruby"; lit "rb";
    lit "swift"; lit "kotlin"; lit "sql"; lit "bash";
    lit "sh"; lit "shell"; lit "zsh"; lit "powershell";
    lit "yaml"; lit "yml"; lit "toml"; lit "xml";
    lit "graphql"; lit "dockerfile"; lit "docker"; lit "vue";
    lit "svelte"; lit "astro"; lit "lua"; lit "perl";
    lit "r"; lit "scala"; lit "elixir"; lit "clojure";
    lit "haskell"; lit "ocaml"; lit "zig"; lit "nim";
    lit "diff"; lit "git-commit"; lit "git-rebase"; lit "makefile";
    lit "nginx"; lit "ini"; lit "properties"; lit "plaintext";
    lit "text"; lit "txt"
  ].

(** The object literal [aliases] of [normalizeLanguage]. *)
Definition aliases : list (str * str) :=
  [
    (lit "js", lit "javascript"); (lit "ts", lit "typescript");
    (lit "py", lit "python"); (lit "rb", lit "ruby");
    (lit "cs", lit "csharp"); (lit "sh", lit "bash");
    (lit "shell", lit "bash"); (lit "zsh", lit "bash");
    (lit "yml", lit "yaml"); (lit "docker", lit "dockerfile");
    (lit "text", lit "plaintext"); (lit "txt", lit "plaintext")
  ].

(** The names [Object.prototype] answers to.  An object literal inherits
    them, so a bracket lookup with one of these names finds a function or
    an object even though the literal has no such key. *)
Definition objectPrototypeKeys : list str :=
  [
    lit "constructor"; lit "__defineGetter__"; lit "__defineSetter__";
    lit "hasOwnProperty"; lit "__lookupGetter__"; lit "__lookupSetter__";
    lit "isPrototypeOf"; lit "propertyIsEnumerable"; lit "toString";
    lit "valueOf"; lit "__proto__"; lit "toLocaleString"
  ].

(** What a bracket lookup in an object literal of strings can give: one
    of its strings, or something inherited from [Object.prototype]. *)
Inductive JsValue :=
| VString (s : str)
| VInherited (key : str).

Definition truthyValue (v : JsValue) : bool :=
  match v with
  | VString s => truthy s
  | VInherited _ => true
  end.

Definition has (set : list str) (k : str) : bool := existsb (eqb k) set.

Fixpoint ownGet (own : list (str * str)) (k : str) : option str :=
  match own with
  | [] => None
  | (k', v) :: own' => if eqb k' k then Some v else ownGet own' k
  end.

(** [obj[k]] for an object literal with the own properties [own]; [None]
    is [undefined]. *)
Definition objectGet (own : list (str * str)) (k : str) : option JsValue :=
  match ownGet own k with
  | Some v => Some (VString v)
  | None => if has objectPrototypeKeys k then Some (VInherited k) else None
  end.

(** The name of a supported language that [aliases] does not translate
    further. *)
Definition canonical (r : str) : Prop :=
  In r SUPPORTED_LANGUAGES /\ ownGet aliases r = None.

Section Lowering.

(** [String.prototype.toLowerCase]. *)
Variable toLowerCase : str -> str.

(** [normalizeLanguage(lang)]; [None] is a missing [language] prop. *)
Definition normalizeLanguage (lang : option str) : JsValue :=
  match lang with
  | None => VString (lit "plaintext")
  | Some l =>
      if negb (truthy l) then VString (lit "plaintext")
      else
        let lower := toLowerCase l in
        match objectGet aliases lower with
        | Some v =>
            if truthyValue v then v
            else if has SUPPORTED_LANGUAGES lower then VString lower
            else VString (lit "plaintext")
        | None =>
            if has SUPPORTED_LANGUAGES lower then VString lower
            else VString (lit "plaintext")
        end
  end.

End Lowering.

(** [toLowerCase] on the strings it is tried on below, which are ASCII:
    the capital letters A to Z move to the small ones. *)
Definition asciiLower (s : str) : str :=
  map (fun c => if ((65 <=? c) && (c <=? 90))%N then (c + 32)%N else c) s.

End CodeBlockView.

(* ================================================================= *)
(** ** Names of new documents: the import and the new-file dialog *)

Module Naming.

Import Js FilesStore.

(** A code unit an extension can be made of: neither a slash nor a full
    stop. *)
Definition extensionChar (d : N) : bool := negb (N.eqb d 47 || N.eqb d 46).

(** [name.replace(/\.[^/.]+$/, '')]: the leftmost full stop that is
    followed, up to the end, by one or more code units that are neither a
    slash nor a full stop, goes with what follows it. *)
Fixpoint stripExtension (s : str) : str :=
  match s with
  | [] => []
  | c :: s' =>
      if N.eqb c 46 && truthy s'
         && forallb (fun d => negb (N.eqb d 47 || N.eqb d 46)) s'
      then []
      else c :: stripExtension s'
  end.

Definition normalizeImportedName (name0 : str) : str :=
  let baseName := trim (stripExtension name0) in
  if truthy baseName then baseName else lit "Imported file".

(** [handleSubmit] of the input dialog: the value the dialog passes to
    [onSubmit], or [None] when it does not call it. *)
Definition handleSubmit (value : str) : option str :=
  let trimmed := trim value in
  if truthy trimmed then Some trimmed else None.

(** The signals of the page that creating a document sets. *)
Record Page := {
  markdown : str;
  lastSavedValue : str;
  currentFileName : str;
  editMode : bool;
  newFileDialogOpen : bool
}.

(** [handleCreateFileSubmit(name)] on the store and the page; the focus
    it asks for afterwards is left out. *)
Definition handleCreateFileSubmit (now : N) (newId name0 : str)
    (st : Store) (pg : Page) : Store * Page :=
  let '(file, st1) := createFile now newId name0 [] st in
  let st2 := setCurrentFileId (Some (id file)) st1 in
  (st2,
   {| markdown := [];
      lastSavedValue := [];
      currentFileName := name file;
      editMode := true;
      newFileDialogOpen := false |}).

(** The new-file dialog from the text in its field to the store. *)
Definition submitNewFile (now : N) (newId value : str) (st : Store)
    (pg : Page) : Store * Page :=
  match handleSubmit value with
  | Some name0 => handleCreateFileSubmit now newId name0 st pg
  | None => (st, pg)
  end.

Definition somePage : Page :=
  {| markdown := lit "# old"; lastSavedValue := lit "# old";
     currentFileName := lit "Notes"; editMode := false;
     newFileDialogOpen := true |}.

End Naming.

(* ================================================================= *)
(** ** The theme store *)

Module ThemeStore.

Import Js.

Inductive ColorMode := light | dark | system.

Inductive AestheticTheme := editorial | minimal | cozy | bold | retro | tokyo.

(** The value of [resolvedColorMode]. *)
Inductive Scheme := Light | Dark.

Definition colorModeName (m : ColorMode) : str :=
  match m with
  | light => lit "light"
  | dark => lit "dark"
  | system => lit "system"
  end.

Definition aestheticName (t : AestheticTheme) : str :=
  match t with
  | editorial => lit "editorial"
  | minimal => lit "minimal"
  | cozy => lit "cozy"
  | bold => lit "bold"
  | retro => lit "retro"
  | tokyo => lit "tokyo"
  end.

Definition allColorModes : list ColorMode := [light; dark; system].

Definition allAesthetics : list AestheticTheme :=
  [editorial; minimal; cozy; bold; retro; tokyo].

(** The mode whose name is [s], when [s] is one of the three names. *)
Definition colorModeOf (s : str) : option ColorMode :=
  find (fun m => eqb (colorModeName m) s) allColorModes.

Definition aestheticOf (s : str) : option AestheticTheme :=
  find (fun t => eqb (aestheticName t) s) allAesthetics.

(** The two [localStorage] entries of the theme store (any strings, or
    absent) and what [matchMedia('(prefers-color-scheme: dark)').matches]
    answers. *)
Record ThemeWindow := {
  storedColorMode : option str;
  storedAesthetic : option str;
  prefersDark : bool
}.

(** The signals of the store, the window and the class list of the
    document element; [None] is an environment without the one or the
    other. *)
Record Theme := {
  colorMode : ColorMode;
  resolvedColorMode : Scheme;
  aesthetic : AestheticTheme;
  themeIsInitialized : bool;
  themeWindow : option ThemeWindow;
  classList : option (list str)
}.

Definition loadColorMode (w : option ThemeWindow) : ColorMode :=
  match w with
  | None => system
  | Some tw =>
      match storedColorMode tw with
      | Some stored =>
          if truthy stored then
            match colorModeOf stored with
            | Some m => m
            | None => system
            end
          else system
      | None => system
      end
  end.

Definition loadAesthetic (w : option ThemeWindow) : AestheticTheme :=
  match w with
  | None => editorial
  | Some tw =>
      match storedAesthetic tw with
      | Some stored =>
          if truthy stored then
            match aestheticOf stored with
            | Some t => t
            | None => editorial
            end
          else editorial
      | None => editorial
      end
  end.

Definition saveColorMode (m : ColorMode) (w : option ThemeWindow)
    : option ThemeWindow :=
  match w with
  | None => None
  | Some tw => Some {| storedColorMode := Some (colorModeName m);
                       storedAesthetic := storedAesthetic tw;
                       prefersDark := prefersDark tw |}
  end.

Definition saveAesthetic (t : AestheticTheme) (w : option ThemeWindow)
    : option ThemeWindow :=
  match w with
  | None => None
  | Some tw => Some {| storedColorMode := storedColorMode tw;
                       storedAesthetic := Some (aestheticName t);
                       prefersDark := prefersDark tw |}
  end.

Definition getSystemPreference (w : option ThemeWindow) : Scheme :=
  match w with
  | None => Light
  | Some tw => if prefersDark tw then Dark else Light
  end.

(** [classList.add(token)] and [classList.remove(...tokens)] of a
    [DOMTokenList]. *)
Definition classAdd (cl : list str) (token : str) : list str :=
  if existsb (eqb token) cl then cl else cl ++ [token].

Definition classRemove (cl : list str) (tokens : list str) : list str :=
  filter (fun c => negb (existsb (eqb c) tokens)) cl.

Definition withClassList (f : list str -> list str) (th : Theme) : Theme :=
  {| colorMode := colorMode th;
     resolvedColorMode := resolvedColorMode th;
     aesthetic := aesthetic th;
     themeIsInitialized := themeIsInitialized th;
     themeWindow := themeWindow th;
     classList := option_map f (classList th) |}.

Definition updateResolvedColorMode (mode : ColorMode) (th : Theme) : Theme :=
  let resolved :=
    match mode with
    | system => getSystemPreference (themeWindow th)
    | light => Light
    | dark => Dark
    end in
  let th1 := {| colorMode := colorMode th;
                resolvedColorMode := resolved;
                aesthetic := aesthetic th;
                themeIsInitialized := themeIsInitialized th;
                themeWindow := themeWindow th;
                classList := classList th |} in
  match resolved with
  | Dark => withClassList (fun cl => classAdd cl (lit "dark")) th1
  | Light => withClassList (fun cl => classRemove cl [lit "dark"]) th1
  end.

Definition setColorMode (newMode : ColorMode) (th : Theme) : Theme :=
  updateResolvedColorMode newMode
    {| colorMode := newMode;
       resolvedColorMode := resolvedColorMode th;
       aesthetic := aesthetic th;
       themeIsInitialized := themeIsInitialized th;
       themeWindow := saveColorMode newMode (themeWindow th);
       classList := classList th |}.

(** [`theme-${theme}`] *)
Definition themeClass (t : AestheticTheme) : str :=
  lit "theme-" ++ aestheticName t.

Definition applyAesthetic (t : AestheticTheme) (th : Theme) : Theme :=
  withClassList
    (fun cl =>
       classAdd
         (classRemove cl
            [ lit "theme-editorial"; lit "theme-minimal"; lit "theme-cozy";
              lit "theme-bold"; lit "theme-retro"; lit "theme-tokyo" ])
         (themeClass t))
    th.

Definition setAesthetic (newAesthetic : AestheticTheme) (th : Theme) : Theme :=
  applyAesthetic newAesthetic
    {| colorMode := colorMode th;
       resolvedColorMode := resolvedColorMode th;
       aesthetic := newAesthetic;
       themeIsInitialized := themeIsInitialized th;
       themeWindow := saveAesthetic newAesthetic (themeWindow th);
       classList := classList th |}.

(** [handleChange], the listener [initializeThemeStore] registers for a
    change of the system preference; the window already answers with the
    new preference when it runs. *)
Definition handleChange (th : Theme) : Theme :=
  match colorMode th with
  | system => updateResolvedColorMode system th
  | _ => th
  end.

Definition initializeThemeStore (th : Theme) : Theme :=
  match themeWindow th with
  | None => th
  | Some _ =>
      if themeIsInitialized th then th
      else
        let storedMode := loadColorMode (themeWindow th) in
        let th1 :=
          updateResolvedColorMode storedMode
            {| colorMode := storedMode;
               resolvedColorMode := resolvedColorMode th;
               aesthetic := aesthetic th;
               themeIsInitialized := themeIsInitialized th;
               themeWindow := themeWindow th;
               classList := classList th |} in
        let storedAesthetic0 := loadAesthetic (themeWindow th1) in
        let th2 :=
          applyAesthetic storedAesthetic0
            {| colorMode := colorMode th1;
               resolvedColorMode := resolvedColorMode th1;
               aesthetic := storedAesthetic0;
               themeIsInitialized := themeIsInitialized th1;
               themeWindow := themeWindow th1;
               classList := classList th1 |} in
        {| colorMode := colorMode th2;
           resolvedColorMode := resolvedColorMode th2;
           aesthetic := aesthetic th2;
           themeIsInitialized := true;
           themeWindow := themeWindow th2;
           classList := classList th2 |}
  end.

(** The signals as the module creates them, in a given environment. *)
Definition themeAtLoad (w : option ThemeWindow) (cl : option (list str))
    : Theme :=
  {| colorMode := system;
     resolvedColorMode := Light;
     aesthetic := editorial;
     themeIsInitialized := false;
     themeWindow := w;
     classList := cl |}.

(** A browser that prefers dark, with a stale class list. *)
Definition darkBrowser : Theme :=
  themeAtLoad
    (Some {| storedColorMode := Some (lit "sepia");
             storedAesthetic := Some (lit "retro");
             prefersDark := true |})
    (Some [lit "theme-bold"; lit "app"; lit "theme-cozy"]).

End ThemeStore.

(* ================================================================= *)
(** ** The command palette *)

Module Palette.

Import Js FilesStore ThemeStore.

(** An entry of [colorModes]. *)
Record ColorModeEntry := {
  modeValue : ColorMode;
  modeLabel : str;
  modeDescription : str
}.

(** An entry of [aestheticThemes], with its preview colours. *)
Record AestheticEntry := {
  themeValue : AestheticTheme;
  themeLabel : str;
  themeDescription : str;
  previewAccent : str;
  previewBg : str;
  previewSecondary : option str
}.

Definition colorModes : list ColorModeEntry :=
  [ {| modeValue := light; modeLabel := lit "Light";
       modeDescription := lit "Bright and clean" |};
    {| modeValue := dark; modeLabel := lit "Dark";
       modeDescription := lit "Easy on the eyes" |};
    {| modeValue := system; modeLabel := lit "System";
       modeDescription := lit "Match your device" |} ].

Definition aestheticThemes : list AestheticEntry :=
  [ {| themeValue := editorial; themeLabel := lit "Editorial";
       themeDescription := lit "Clean, confident serif for focused reading";
       previewAccent := lit "#1a3a5c"; previewBg := lit "#fcfcfa";
       previewSecondary := Some (lit "#8b4a2a") |};
    {| themeValue := minimal; themeLabel := lit "Minimal";
       themeDescription := lit "Clean monochrome, focused reading";
       previewAccent := lit "#404040"; previewBg := lit "#fafafa";
       previewSecondary := None |};
    {| themeValue := cozy; themeLabel := lit "Cozy";
       themeDescription := lit "Warm fireside reading, deep browns & amber";
       previewAccent := lit "#b45930"; previewBg := lit "#faf6f0";
       previewSecondary := Some (lit "#c77a30") |};
    {| themeValue := bold; themeLabel := lit "Bold";
       themeDescription := lit "Vibrant colors, readable maximalism";
       previewAccent := lit "#a78bfa"; previewBg := lit "#12101a";
       previewSecondary := Some (lit "#f472b6") |};
    {| themeValue := retro; themeLabel := lit "Retro";
       themeDescription := lit "Terminal nostalgia, optimized for reading";
       previewAccent := lit "#7ecf7e"; previewBg := lit "#0f1610";
       previewSecondary := Some (lit "#6ecfcf") |};
    {| themeValue := tokyo; themeLabel := lit "Tokyo";
       themeDescription := lit "Tokyo Night - Neovim's beloved color scheme";
       previewAccent := lit "#7aa2f7"; previewBg := lit "#24283b";
       previewSecondary := Some (lit "#bb9af7") |} ].

Inductive CommandItem :=
| ItemFile (file : SavedFile)
| ItemColorMode (mode : ColorModeEntry)
| ItemAesthetic (theme : AestheticEntry)
| ItemAction.

(** [hay.includes(needle)] *)
Fixpoint includes (hay needle : str) : bool :=
  startsWith needle hay
  || match hay with
     | [] => false
     | _ :: hay' => includes hay' needle
     end.

(** [sorted.sort((a, b) => b.updatedAt - a.updatedAt)].  The sort of an
    array is stable, and a stable sort has one result only; it is written
    here as an insertion from the right, which puts a document in front of
    the ones that are not more recent. *)
Fixpoint insertRecent (f : SavedFile) (sorted : list SavedFile)
    : list SavedFile :=
  match sorted with
  | [] => [f]
  | g :: sorted' =>
      if (updatedAt f <? updatedAt g)%N then g :: insertRecent f sorted'
      else f :: g :: sorted'
  end.

Definition sortByRecent (l : list SavedFile) : list SavedFile :=
  fold_right insertRecent [] l.

Section Search.

(** [String.prototype.toLowerCase]. *)
Variable toLowerCase : str -> str.

Definition matchingFiles (query : str) (fileList : list SavedFile)
    : list SavedFile :=
  if truthy query
  then filter (fun f => includes (toLowerCase (name f)) query) fileList
  else fileList.

(** The memo [commands], from the text of the search field and the list
    of documents. *)
Definition commands (search : str) (fileList : list SavedFile)
    : list CommandItem :=
  let query := trim (toLowerCase search) in
  let action :=
    if negb (truthy query) || includes (lit "new file") query
       || includes (lit "create") query
    then [ItemAction] else [] in
  let sortedFiles := sortByRecent (matchingFiles query fileList) in
  let matchingAesthetics :=
    if truthy query
    then filter (fun t => includes (toLowerCase (themeLabel t)) query
                          || includes (toLowerCase (themeDescription t)) query
                          || includes (lit "theme") query
                          || includes (lit "style") query
                          || includes (lit "aesthetic") query)
                aestheticThemes
    else aestheticThemes in
  let matchingModes :=
    if truthy query
    then filter (fun m => includes (toLowerCase (modeLabel m)) query
                          || includes (toLowerCase (modeDescription m)) query
                          || includes (lit "mode") query
                          || includes (lit "dark") query
                          || includes (lit "light") query)
                colorModes
    else colorModes in
  action ++ map ItemFile sortedFiles ++ map ItemAesthetic matchingAesthetics
  ++ map ItemColorMode matchingModes.

End Search.

(** The documents among the items of the palette, in order. *)
Fixpoint fileItems (items : list CommandItem) : list SavedFile :=
  match items with
  | [] => []
  | ItemFile f :: items' => f :: fileItems items'
  | _ :: items' => fileItems items'
  end.

(** *** Moving in the list *)

Inductive Key := ArrowDown | ArrowUp | Enter | Escape | OtherKey.

(** What a key does besides moving the selection. *)
Inductive KeyEffect :=
| Select (item : CommandItem)
| Close
| Nothing.

(** [items.at(i)] for an integer [i]: a negative index counts from the
    end. *)
Definition at_ (items : list CommandItem) (i : Z) : option CommandItem :=
  let len := Z.of_nat (length items) in
  let k := if (i <? 0)%Z then (len + i)%Z else i in
  if (k <? 0)%Z || (len <=? k)%Z then None
  else nth_error items (Z.to_nat k).

(** [handleKeyDown]: the new value of [selectedIndex] and the effect;
    [preventDefault] on the event is left out. *)
Definition handleKeyDown (key : Key) (items : list CommandItem) (i : Z)
    : Z * KeyEffect :=
  match key with
  | ArrowDown => (Z.min (i + 1) (Z.of_nat (length items) - 1), Nothing)
  | ArrowUp => (Z.max (i - 1) 0, Nothing)
  | Enter =>
      (i, match at_ items i with
          | Some selected => Select selected
          | None => Nothing
          end)
  | Escape => (i, Close)
  | OtherKey => (i, Nothing)
  end.

(** The effect that keeps [selectedIndex] valid when the list changes. *)
Definition ensureValid (items : list CommandItem) (i : Z) : Z :=
  let max := (Z.of_nat (length items) - 1)%Z in
  if (max <? i)%Z then Z.max 0 max else i.

(** *** Relative dates *)

Section Dates.

(** [Date.prototype.toLocaleDateString], of a valid date with the given
    time value. *)
Variable toLocaleDateString : Z -> str.

(** The largest time value of a [Date], in milliseconds from the epoch. *)
Definition maxTime : Z := 8640000000000000.

(** [new Date(timestamp)] on an integer of milliseconds: the time value
    of the date, [None] for the invalid date that a time stamp out of
    range gives. *)
Definition newDate (timestamp : Z) : option Z :=
  if (Z.abs timestamp <=? maxTime)%Z then Some timestamp else None.

(** [formatDate(timestamp)], with [now] the time value of [new Date()],
    which is always in range.  Time stamps are integers of milliseconds.
    On an invalid date [getTime()] is NaN, so are the difference and the
    three quotients, every comparison is false, and the last line returns
    what [toLocaleDateString] gives for an invalid date.  On a valid date
    the difference is exact below two to the 53rd, where the rounding of
    a division cannot reach the next integer, so that [Math.floor] of the
    quotient is the integer quotient; from there on the quotients are far
    above the four bounds or far below them, on the same side as the
    integer quotients. *)
Definition formatDate (now timestamp : Z) : str :=
  match newDate timestamp with
  | None => lit "Invalid Date"
  | Some time =>
      let diffMs := (now - time)%Z in
      let diffMins := (diffMs / 60000)%Z in
      let diffHours := (diffMs / 3600000)%Z in
      let diffDays := (diffMs / 86400000)%Z in
      if (diffMins <? 1)%Z then lit "Just now"
      else if (diffMins <? 60)%Z
      then numToString (Z.to_nat diffMins) ++ lit "m ago"
      else if (diffHours <? 24)%Z
      then numToString (Z.to_nat diffHours) ++ lit "h ago"
      else if (diffDays <? 7)%Z
      then numToString (Z.to_nat diffDays) ++ lit "d ago"
      else toLocaleDateString time
  end.

End Dates.

(** Three documents, two of them modified at the same time. *)
Definition doc (i n : string) (t : N) : SavedFile :=
  {| id := lit i; name := lit n; content := [];
     createdAt := 1; updatedAt := t |}.

Definition threeDocs : list SavedFile :=
  [doc "a" "Alpha" 5; doc "b" "Beta" 9; doc "c" "Gamma" 5].

Definition localeStub (timestamp : Z) : str := lit "1/1/2026".

End Palette.

(* ================================================================= *)
(** ** Facts about JavaScript strings *)

Section JsFacts.

Import Js.

Lemma eqb_eq (a b : str) : eqb a b = true <-> a = b.
Proof.
  revert b; induction a as [|x a IH]; intros [|y b]; simpl;
    try (split; [discriminate | congruence]); try tauto.
  rewrite andb_true_iff, N.eqb_eq, IH.
  split; [intros [-> ->]; reflexivity | intros H; inversion H; auto].
Qed.

Lemma eqb_refl (a : str) : eqb a a = true.
Proof. apply eqb_eq; reflexivity. Qed.

Lemma eqb_neq (a b : str) : eqb a b = false <-> a <> b.
Proof.
  rewrite <- eqb_eq. destruct (eqb a b); split; congruence.
Qed.

Lemma truthy_true (s : str) : truthy s = true <-> s <> [].
Proof. destruct s; simpl; split; congruence. Qed.

Lemma truthy_false (s : str) : truthy s = false <-> s = [].
Proof. destruct s; simpl; split; congruence. Qed.

Lemma trimStart_nil (s : str) :
  trimStart s = [] <-> forallb isWhiteSpace s = true.
Proof.
  induction s as [|c s IH]; simpl; [tauto|].
  destruct (isWhiteSpace c); simpl; [exact IH | split; discriminate].
Qed.

Lemma trimStart_head (s : str) :
  match trimStart s with
  | [] => True
  | c :: _ => isWhiteSpace c = false
  end.
Proof.
  induction s as [|c s IH]; simpl; [exact I|].
  destruct (isWhiteSpace c) eqn:E; [exact IH | simpl; exact E].
Qed.

Lemma forallb_rev (f : N -> bool) (s : str) :
  forallb f (rev s) = forallb f s.
Proof.
  induction s as [|c s IH]; simpl; [reflexivity|].
  rewrite forallb_app, IH; simpl. rewrite andb_true_r, andb_comm.
  reflexivity.
Qed.

(** [trim] leaves nothing exactly when every code unit is white space. *)
Lemma trim_nil (s : str) :
  trim s = [] <-> forallb isWhiteSpace s = true.
Proof.
  unfold trim, trimEnd. split.
  - intros H.
    assert (H1 : trimStart (rev (trimStart s)) = []).
    { destruct (trimStart (rev (trimStart s))); [reflexivity|].
      apply (f_equal (@length N)) in H. rewrite length_rev in H.
      discriminate. }
    apply trimStart_nil in H1. rewrite forallb_rev in H1.
    pose proof (trimStart_head s) as H2.
    destruct (trimStart s) as [|c t] eqn:E.
    + apply trimStart_nil; exact E.
    + simpl in H1. rewrite H2 in H1. discriminate.
  - intros H. apply trimStart_nil in H. rewrite H. reflexivity.
Qed.

Lemma trim_blank_false (s : str) :
  truthy (trim s) = false <-> forallb isWhiteSpace s = true.
Proof. rewrite truthy_false. apply trim_nil. Qed.

Lemma replaceFinalLf_snoc_lf (s : str) : replaceFinalLf (s ++ [lf]) = s.
Proof.
  induction s as [|c s IH]; [reflexivity|].
  change ((c :: s) ++ [lf]) with (c :: (s ++ [lf])).
  simpl. rewrite IH. destruct (s ++ [lf]) eqn:E; [|reflexivity].
  destruct s; discriminate.
Qed.

Lemma replaceFinalLf_keep (s : str) :
  (forall c, s <> c ++ [lf]) -> replaceFinalLf s = s.
Proof.
  induction s as [|c s IH]; intros H; [reflexivity|].
  simpl. destruct s as [|d s].
  - destruct (N.eqb_spec c lf) as [->|]; [|reflexivity].
    exfalso; apply (H []); reflexivity.
  - rewrite IH; [reflexivity|].
    intros c' E. apply (H (c :: c')). simpl. rewrite E. reflexivity.
Qed.

Lemma startsWith_app (p r : str) : startsWith p (p ++ r) = true.
Proof.
  induction p as [|c p IH]; simpl; [reflexivity|].
  rewrite N.eqb_refl. exact IH.
Qed.

Lemma startsWith_inv (p s : str) :
  startsWith p s = true -> exists r, s = p ++ r.
Proof.
  revert s; induction p as [|c p IH]; intros s H; simpl in *.
  - exists s; reflexivity.
  - destruct s as [|d s]; [discriminate|].
    apply andb_true_iff in H as [H1 H2].
    apply N.eqb_eq in H1; subst d.
    destruct (IH _ H2) as [r ->]. exists r; reflexivity.
Qed.

Lemma startsWith_more (p s r : str) :
  startsWith p s = true -> startsWith p (s ++ r) = true.
Proof.
  intros H. destruct (startsWith_inv _ _ H) as [t ->].
  rewrite <- app_assoc. apply startsWith_app.
Qed.

Lemma lit_inj (a b : string) : lit a = lit b -> a = b.
Proof.
  unfold lit. intros H.
  rewrite <- (string_of_list_ascii_of_string a),
          <- (string_of_list_ascii_of_string b).
  f_equal.
  revert H. generalize (list_ascii_of_string a) (list_ascii_of_string b).
  intros l; induction l as [|x l IH]; intros [|y l']; simpl;
    try discriminate; [reflexivity|].
  intros H; inversion H as [[H1 H2]].
  f_equal; [|apply IH; exact H2].
  rewrite <- (ascii_N_embedding x), <- (ascii_N_embedding y), H1.
  reflexivity.
Qed.

Lemma numToString_inj (n m : nat) : numToString n = numToString m -> n = m.
Proof.
  unfold numToString. intros H. apply lit_inj in H.
  assert (E : Nat.to_uint n = Nat.to_uint m).
  { pose proof (DecimalString.NilEmpty.usu (Nat.to_uint n)) as Hn.
    pose proof (DecimalString.NilEmpty.usu (Nat.to_uint m)) as Hm.
    rewrite H in Hn. rewrite Hn in Hm. congruence. }
  rewrite <- (DecimalNat.Unsigned.of_to n),
          <- (DecimalNat.Unsigned.of_to m), E.
  reflexivity.
Qed.

Lemma digits_no_quote (d : Decimal.uint) :
  Forall (fun c => c <> quote) (lit (DecimalString.NilEmpty.string_of_uint d)).
Proof.
  induction d; simpl; constructor; solve [discriminate | assumption].
Qed.

Lemma numToString_no_quote (n : nat) :
  Forall (fun c => c <> quote) (numToString n).
Proof. apply digits_no_quote. Qed.

End JsFacts.

(* ================================================================= *)
(** ** Facts about the placeholder scan *)

Import Js Preview DocOrder.

Section MatchFacts.

Lemma takeNonQuote_stop (g r : str) :
  Forall (fun c => c <> quote) g -> takeNonQuote (g ++ quote :: r) = g.
Proof.
  induction 1 as [|c g Hc _ IH]; simpl.
  - reflexivity.
  - destruct (N.eqb_spec c quote); [contradiction|]. rewrite IH; reflexivity.
Qed.

Lemma takeNonQuote_split (s : str) :
  s = takeNonQuote s ++ skipn (length (takeNonQuote s)) s.
Proof.
  induction s as [|c s IH]; simpl; [reflexivity|].
  destruct (N.eqb c quote); simpl; [reflexivity|].
  rewrite <- IH; reflexivity.
Qed.

Lemma takeNonQuote_no_quote (s : str) :
  Forall (fun c => c <> quote) (takeNonQuote s).
Proof.
  induction s as [|c s IH]; simpl; [constructor|].
  destruct (N.eqb_spec c quote); constructor; assumption.
Qed.

Lemma placeholder_length (g : str) :
  length (placeholder g) = length markerOpen + length g + length markerClose.
Proof. unfold placeholder. rewrite !length_app. lia. Qed.

Lemma skipn_exact (A : Type) (p r : list A) : skipn (length p) (p ++ r) = r.
Proof. induction p; simpl; auto. Qed.

Lemma firstn_exact (A : Type) (p r : list A) : firstn (length p) (p ++ r) = p.
Proof. induction p; simpl; f_equal; auto. Qed.

(** A match at the start of a text is a placeholder with a capturable
    identifier, and conversely. *)
Lemma matchHere_inv (s g : str) (n : nat) :
  matchHere s = Some (g, n) ->
  exists rest, s = placeholder g ++ rest /\ n = length (placeholder g)
               /\ capturable g.
Proof.
  unfold matchHere.
  destruct (startsWith markerOpen s) eqn:Ho; [|discriminate].
  destruct (startsWith_inv _ _ Ho) as [s1 ->].
  rewrite skipn_exact.
  destruct (truthy (takeNonQuote s1)) eqn:Ht; [|discriminate].
  destruct (startsWith markerClose (skipn (length (takeNonQuote s1)) s1))
    eqn:Hc; [|discriminate].
  cbn [andb]. intros H; inversion H; subst; clear H.
  destruct (startsWith_inv _ _ Hc) as [rest Hrest].
  exists rest. split; [|split].
  - unfold placeholder. rewrite (takeNonQuote_split s1) at 1.
    rewrite Hrest, <- !app_assoc. reflexivity.
  - rewrite placeholder_length; reflexivity.
  - split; [apply truthy_true; exact Ht | apply takeNonQuote_no_quote].
Qed.

Lemma matchHere_placeholder (g rest : str) :
  capturable g ->
  matchHere (placeholder g ++ rest) = Some (g, length (placeholder g)).
Proof.
  intros [Hne Hq]. unfold matchHere, placeholder.
  rewrite <- !app_assoc, startsWith_app, skipn_exact.
  change (markerClose ++ rest) with (quote :: (lit "></div>" ++ rest)).
  rewrite takeNonQuote_stop by exact Hq.
  rewrite skipn_exact.
  change (quote :: (lit "></div>" ++ rest)) with (markerClose ++ rest).
  rewrite startsWith_app.
  apply truthy_true in Hne; rewrite Hne. cbn [andb].
  rewrite !length_app, Nat.add_assoc. reflexivity.
Qed.

Lemma matchHere_more (s u : str) (r : str * nat) :
  matchHere s = Some r -> matchHere (s ++ u) = Some r.
Proof.
  destruct r as [g n]. intros H.
  destruct (matchHere_inv _ H) as (rest & -> & -> & Hg).
  rewrite <- app_assoc. apply matchHere_placeholder; exact Hg.
Qed.

Lemma matchHere_nil : matchHere [] = None.
Proof. reflexivity. Qed.

Lemma search_shift (s : str) (i : nat) :
  search s i = option_map (shiftMatch i) (search s 0).
Proof.
  revert i; induction s as [|c s IH]; intros i; cbn [search].
  - rewrite matchHere_nil. reflexivity.
  - destruct (matchHere (c :: s)) as [[g n]|]; cbn [option_map].
    + unfold shiftMatch; cbn [index length0 group1].
      rewrite Nat.add_0_r; reflexivity.
    + rewrite (IH (S i)), (IH 1).
      destruct (search s 0); cbn [option_map]; [|reflexivity].
      unfold shiftMatch; cbn [index length0 group1].
      f_equal. f_equal. lia.
Qed.

(** What a successful search says about the text. *)
Lemma search_inv (s : str) (m : Match) :
  search s 0 = Some m ->
  exists pre rest,
    s = pre ++ placeholder (group1 m) ++ rest
    /\ index m = length pre
    /\ length0 m = length (placeholder (group1 m))
    /\ capturable (group1 m)
    /\ search pre 0 = None.
Proof.
  revert m; induction s as [|c s IH]; intros m; cbn [search].
  - rewrite matchHere_nil. discriminate.
  - destruct (matchHere (c :: s)) as [[g n]|] eqn:E.
    + intros H; inversion H; subst; clear H; cbn [index length0 group1].
      destruct (matchHere_inv _ E) as (rest & Hs & Hn & Hg).
      exists [], rest. cbn [app length]. auto.
    + rewrite search_shift.
      destruct (search s 0) as [m'|] eqn:Es; [|discriminate].
      cbn [option_map]. intros H; inversion H; subst; clear H.
      cbn [shiftMatch index length0 group1].
      destruct (IH _ eq_refl) as (pre & rest & Hs & Hi & Hl & Hg & Hn).
      exists (c :: pre), rest. cbn [app length]. rewrite Hi.
      split; [f_equal; exact Hs|].
      split; [reflexivity|].
      split; [exact Hl|].
      split; [exact Hg|].
      cbn [search].
      destruct (matchHere (c :: pre)) as [r|] eqn:E'.
      * apply matchHere_more with (u := placeholder (group1 m') ++ rest) in E'.
        cbn [app] in E'. rewrite <- Hs in E'. congruence.
      * rewrite search_shift, Hn. reflexivity.
Qed.

Lemma search_bounds (s : str) (m : Match) :
  search s 0 = Some m ->
  1 <= length0 m /\ index m + length0 m <= length s.
Proof.
  intros H. destruct (search_inv _ H) as (pre & rest & Hs & Hi & Hl & _).
  rewrite Hi, Hl, placeholder_length.
  apply (f_equal (@length N)) in Hs.
  rewrite !length_app, placeholder_length in Hs.
  assert (0 < length markerOpen) by (vm_compute; lia).
  lia.
Qed.

(** A text that holds a placeholder is found to hold one. *)
Lemma search_finds (a g b : str) :
  capturable g -> search (a ++ placeholder g ++ b) 0 <> None.
Proof.
  intros Hg. induction a as [|c a IH]; cbn [app].
  - destruct (placeholder g ++ b) eqn:E.
    + apply (f_equal (@length N)) in E.
      rewrite length_app, placeholder_length in E.
      assert (0 < length markerOpen) by (vm_compute; lia).
      cbn [length] in E. lia.
    + cbn [search]. rewrite <- E, matchHere_placeholder by exact Hg.
      discriminate.
  - cbn [search].
    destruct (matchHere (c :: a ++ placeholder g ++ b)) as [[g' n]|];
      [discriminate|].
    rewrite search_shift.
    destruct (search (a ++ placeholder g ++ b) 0); [discriminate|].
    contradiction.
Qed.

End MatchFacts.

Section ScanFacts.

Variable m : JsMap.

Lemma htmlSeg_nil : htmlSeg [] = [].
Proof. reflexivity. Qed.

Lemma search_rest_shorter (s : str) (mt : Match) :
  search s 0 = Some mt ->
  length (skipn (index mt + length0 mt) s) < length s.
Proof.
  intros H. destruct (search_bounds _ H) as [H1 H2].
  rewrite length_skipn. lia.
Qed.

(** With more turns than code units the scan comes to an end. *)
Lemma scanRest_total (fuel : nat) (s : str) :
  length s < fuel -> exists r, scanRest fuel m s = Some r.
Proof.
  revert s; induction fuel as [|fuel IH]; intros s Hlen; [lia|].
  cbn [scanRest]. destruct (search s 0) as [mt|] eqn:E.
  - pose proof (search_rest_shorter _ E) as Hs.
    destruct (IH (skipn (index mt + length0 mt) s)) as [r ->]; [lia|].
    eauto.
  - eauto.
Qed.

Lemma scanRest_fuel (f1 f2 : nat) (s : str) :
  length s < f1 -> length s < f2 -> scanRest f1 m s = scanRest f2 m s.
Proof.
  revert f2 s; induction f1 as [|f1 IH]; intros [|f2] s H1 H2; try lia.
  cbn [scanRest]. destruct (search s 0) as [mt|] eqn:E; [|reflexivity].
  pose proof (search_rest_shorter _ E) as Hs.
  rewrite (IH f2) by lia. reflexivity.
Qed.

(** One turn of the scan, at a number of turns that stays enough. *)
Lemma scanRest_step (fuel : nat) (s : str) :
  length s < fuel ->
  scanRest fuel m s =
  match search s 0 with
  | None => Some (htmlSeg s)
  | Some mt =>
      match scanRest fuel m (skipn (index mt + length0 mt) s) with
      | None => None
      | Some r =>
          Some (htmlSeg (firstn (index mt) s) ++ codeSeg m (group1 mt) ++ r)
      end
  end.
Proof.
  intros Hlen. destruct fuel as [|fuel]; [lia|].
  cbn [scanRest]. destruct (search s 0) as [mt|] eqn:E; [|reflexivity].
  pose proof (search_rest_shorter _ E) as Hs.
  rewrite (scanRest_fuel (f1 := fuel) (f2 := S fuel)) by lia.
  reflexivity.
Qed.

(** The loop on indices computes the scan of the text that is left. *)
Lemma scanLoop_scanRest (fuel : nat) (html0 : str) (lastIndex : nat)
    (result : list Segment) :
  option_map (finish html0) (scanLoop fuel html0 m lastIndex result) =
  option_map (app result) (scanRest fuel m (skipn lastIndex html0)).
Proof.
  revert lastIndex result; induction fuel as [|fuel IH];
    intros lastIndex result; [reflexivity|].
  cbn [scanLoop scanRest]. unfold exec. rewrite search_shift.
  destruct (search (skipn lastIndex html0) 0) as [mt|] eqn:E;
    cbn [option_map].
  - cbn [shiftMatch index length0 group1].
    rewrite IH.
    replace (skipn (lastIndex + index mt + length0 mt) html0)
      with (skipn (index mt + length0 mt) (skipn lastIndex html0))
      by (rewrite skipn_skipn; f_equal; lia).
    destruct (scanRest fuel m _) as [r|]; cbn [option_map]; [|reflexivity].
    f_equal.
    assert (Hh : (if lastIndex <? lastIndex + index mt
                  then if truthy (trim (slice html0 lastIndex
                                          (lastIndex + index mt)))
                       then push result
                              (SegHtml (slice html0 lastIndex
                                          (lastIndex + index mt)))
                       else result
                  else result)
                 = result ++ htmlSeg (firstn (index mt)
                                        (skipn lastIndex html0))).
    { unfold slice, htmlSeg, push.
      replace (lastIndex + index mt - lastIndex) with (index mt) by lia.
      destruct (Nat.ltb_spec lastIndex (lastIndex + index mt)) as [Hlt|Hge].
      - destruct (truthy _); [reflexivity | rewrite app_nil_r; reflexivity].
      - replace (index mt) with 0 by lia. cbn [firstn].
        rewrite htmlSeg_nil || idtac. cbn. rewrite app_nil_r. reflexivity. }
    rewrite Hh. unfold codeSeg, push.
    destruct (mapGet m (group1 mt)); rewrite <- ?app_assoc; reflexivity.
  - f_equal. unfold finish, sliceFrom, htmlSeg, push.
    destruct (Nat.ltb_spec lastIndex (length html0)) as [Hlt|Hge].
    + destruct (truthy _); [reflexivity | rewrite app_nil_r; reflexivity].
    + rewrite skipn_all2 by lia. cbn. rewrite app_nil_r. reflexivity.
Qed.

End ScanFacts.

(** The second memo is the scan of the whole text. *)
Lemma segmentsOf_scanRest (pc : Processed) :
  segmentsOf pc =
  scanRest (S (length (html pc)))
           (newMap (map (fun cb => (id cb, cb)) (codeBlocks pc))) (html pc).
Proof.
  unfold segmentsOf.
  destruct (html pc) as [|c h] eqn:E.
  - reflexivity.
  - cbn [truthy negb].
    set (mp := newMap _).
    pose proof (scanLoop_scanRest mp (S (length (c :: h))) (c :: h) 0 [])
      as H.
    cbn [skipn] in H.
    destruct (scanLoop (S (length (c :: h))) (c :: h) mp 0 [])
      as [[li res]|];
      destruct (scanRest (S (length (c :: h))) mp (c :: h)) as [r|];
      cbn [option_map finish] in H; try discriminate; [|reflexivity].
    inversion H as [H']. cbn [app]. reflexivity.
Qed.

(** The second memo never runs out of turns. *)
Lemma segmentsOf_total (pc : Processed) :
  exists segs, segmentsOf pc = Some segs.
Proof.
  rewrite segmentsOf_scanRest. apply scanRest_total. lia.
Qed.

(* ================================================================= *)
(** ** Facts about the identifier map *)

Section MapFacts.

Lemma mapGet_mapSet (mp : JsMap) (k k' : str) (v : CodeBlockData) :
  mapGet (mapSet mp k v) k' = if eqb k k' then Some v else mapGet mp k'.
Proof.
  induction mp as [|[k0 v0] mp IH]; cbn [mapSet mapGet].
  - reflexivity.
  - destruct (eqb k0 k) eqn:E0; cbn [mapGet].
    + apply eqb_eq in E0; subst k0.
      destruct (eqb k k'); reflexivity.
    + destruct (eqb k0 k') eqn:E1; [|exact IH].
      apply eqb_eq in E1; subst k0.
      destruct (eqb k k') eqn:E2; [|reflexivity].
      apply eqb_eq in E2; subst k'. rewrite eqb_refl in E0. discriminate.
Qed.

Lemma newMap_snoc (es : list (str * CodeBlockData)) (e : str * CodeBlockData) :
  newMap (es ++ [e]) = mapSet (newMap es) (fst e) (snd e).
Proof. unfold newMap. rewrite fold_left_app. reflexivity. Qed.

(** Whatever the map returns was one of its entries. *)
Lemma mapGet_newMap_In (es : list (str * CodeBlockData)) (k : str)
    (v : CodeBlockData) :
  mapGet (newMap es) k = Some v -> In (k, v) es.
Proof.
  induction es as [|e es IH] using rev_ind; [discriminate|].
  rewrite newMap_snoc, mapGet_mapSet.
  destruct (eqb (fst e) k) eqn:E.
  - apply eqb_eq in E. intros H; inversion H; subst.
    apply in_or_app; right; left. destruct e; reflexivity.
  - intros H. apply in_or_app; left; auto.
Qed.

(** With distinct keys every entry is returned under its key. *)
Lemma mapGet_newMap_NoDup (es : list (str * CodeBlockData)) (k : str)
    (v : CodeBlockData) :
  NoDup (map fst es) -> In (k, v) es -> mapGet (newMap es) k = Some v.
Proof.
  induction es as [|e es IH] using rev_ind; [contradiction|].
  rewrite map_app. cbn [map]. intros Hnd Hin.
  rewrite newMap_snoc, mapGet_mapSet.
  apply NoDup_remove in Hnd as [Hnd Hnot]. rewrite app_nil_r in Hnd, Hnot.
  apply in_app_or in Hin as [Hin|[->|[]]].
  - destruct (eqb (fst e) k) eqn:E.
    + apply eqb_eq in E. exfalso; apply Hnot. rewrite E.
      apply (in_map fst) in Hin. exact Hin.
    + auto.
  - cbn [fst snd]. rewrite eqb_refl. reflexivity.
Qed.

End MapFacts.

(* ================================================================= *)
(** ** Facts about block identifiers *)

Section IdFacts.

Lemma blockId_inj (a b : nat) : blockId a = blockId b -> a = b.
Proof.
  unfold blockId. intros H. apply app_inv_head in H.
  apply numToString_inj; exact H.
Qed.

Lemma blockId_capturable (n : nat) : capturable (blockId n).
Proof.
  split.
  - discriminate.
  - unfold blockId. apply Forall_app; split.
    + vm_compute. repeat constructor; discriminate.
    + apply numToString_no_quote.
Qed.

Lemma describeFrom_ids (n : nat) (ts : list Token) :
  map id (describeFrom n ts) = map blockId (seq n (length ts)).
Proof.
  revert n; induction ts as [|t ts IH]; intros n; cbn; [reflexivity|].
  f_equal. apply IH.
Qed.

Lemma blockIds_NoDup (n len : nat) : NoDup (map blockId (seq n len)).
Proof.
  revert n; induction len as [|len IH]; intros n; cbn [seq map];
    constructor; [|apply IH].
  intros Hin. apply in_map_iff in Hin as (x & Hx & Hseq).
  apply blockId_inj in Hx; subst x. apply in_seq in Hseq. lia.
Qed.

Lemma describeFrom_app (n : nat) (ts us : list Token) :
  describeFrom n (ts ++ us) =
  describeFrom n ts ++ describeFrom (n + length ts) us.
Proof.
  revert n; induction ts as [|t ts IH]; intros n; cbn [describeFrom app length].
  - rewrite Nat.add_0_r; reflexivity.
  - rewrite IH. f_equal. f_equal. f_equal. lia.
Qed.

Lemma describeFrom_length (n : nat) (ts : list Token) :
  length (describeFrom n ts) = length ts.
Proof.
  revert n; induction ts as [|t ts IH]; intros n; cbn; [reflexivity|].
  f_equal; apply IH.
Qed.

End IdFacts.

(* ================================================================= *)
(** ** Scanning a document whose runs are clean *)

Section CleanScan.

Lemma markerOpen_shape :
  exists tl, markerOpen = 60%N :: tl /\ Forall (fun c => c <> 60%N) tl.
Proof.
  eexists; split; [reflexivity|].
  repeat constructor; discriminate.
Qed.

Lemma startsWith_no_straddle (x : N) (u t r : str) :
  Forall (fun c => c <> x) u ->
  startsWith u (t ++ x :: r) = true -> startsWith u t = true.
Proof.
  intros Hu; revert t; induction Hu as [|c u Hc _ IH]; intros t;
    cbn [startsWith]; [reflexivity|].
  destruct t as [|d t]; cbn [app].
  - destruct (N.eqb_spec c x); [contradiction | discriminate].
  - intros H. apply andb_true_iff in H as [H1 H2].
    rewrite H1, (IH _ H2). reflexivity.
Qed.

(** The opening text cannot begin in a run and end in the placeholder
    that follows it. *)
Lemma open_no_straddle (c : N) (t r : str) :
  startsWith markerOpen ((c :: t) ++ markerOpen ++ r) = true ->
  startsWith markerOpen (c :: t) = true.
Proof.
  destruct markerOpen_shape as (tl & -> & Htl).
  cbn [app startsWith]. intros H.
  apply andb_true_iff in H as [H1 H2]. rewrite H1. cbn [andb].
  apply (startsWith_no_straddle _ _ Htl H2).
Qed.

Lemma search_here (s : str) (i : nat) (g : str) (n : nat) :
  matchHere s = Some (g, n) ->
  search s i = Some {| index := i; length0 := n; group1 := g |}.
Proof. intros H. destruct s; cbn [search]; rewrite H; reflexivity. Qed.

Lemma search_skip (c : N) (s : str) (i : nat) :
  matchHere (c :: s) = None -> search (c :: s) i = search s (S i).
Proof. intros H. cbn [search]. rewrite H. reflexivity. Qed.

Lemma matchHere_needs_open (s : str) :
  startsWith markerOpen s = false -> matchHere s = None.
Proof. intros H. unfold matchHere. rewrite H. reflexivity. Qed.

Lemma hasOpen_search_none (t : str) (i : nat) :
  hasOpen t = false -> search t i = None.
Proof.
  revert i; induction t as [|c t IH]; intros i H.
  - reflexivity.
  - cbn [hasOpen] in H. apply orb_false_iff in H as [H1 H2].
    rewrite search_skip by (apply matchHere_needs_open; exact H1).
    apply IH; exact H2.
Qed.

Lemma search_after_clean (acc g rest : str) (i : nat) :
  hasOpen acc = false -> capturable g ->
  search (acc ++ placeholder g ++ rest) i =
  Some {| index := i + length acc;
          length0 := length (placeholder g);
          group1 := g |}.
Proof.
  intros Hacc Hg. revert i; induction acc as [|c acc IH]; intros i.
  - cbn [app length]. rewrite Nat.add_0_r.
    apply search_here, matchHere_placeholder; exact Hg.
  - cbn [hasOpen] in Hacc. apply orb_false_iff in Hacc as [H1 H2].
    change ((c :: acc) ++ placeholder g ++ rest)
      with (c :: (acc ++ placeholder g ++ rest)).
    rewrite search_skip.
    + rewrite (IH H2). cbn [length]. f_equal. f_equal. lia.
    + apply matchHere_needs_open.
      destruct (startsWith markerOpen (c :: acc ++ placeholder g ++ rest))
        eqn:E; [|reflexivity].
      unfold placeholder in E. rewrite <- app_assoc in E.
      apply (open_no_straddle c acc) in E. congruence.
Qed.

Variable m : JsMap.

Lemma scan_pieces (fuel : nat) (ps : list Piece) (acc : str) :
  mapped m ps ->
  cleanRuns acc ps = true ->
  length (acc ++ piecesText ps) < fuel ->
  scanRest fuel m (acc ++ piecesText ps) = Some (assemble acc ps).
Proof.
  revert acc; induction ps as [|[t|cb] ps IH]; intros acc Hm Hc Hlen.
  - cbn [piecesText map concat] in *. rewrite app_nil_r in *.
    rewrite scanRest_step by exact Hlen.
    cbn [cleanRuns] in Hc. apply negb_true_iff in Hc.
    rewrite hasOpen_search_none by exact Hc. reflexivity.
  - unfold piecesText in *. cbn [map concat pieceText] in *.
    rewrite app_assoc in *. cbn [cleanRuns assemble] in *.
    apply IH; try assumption.
    intros cb Hin; apply Hm; right; exact Hin.
  - unfold piecesText in *. cbn [map concat pieceText] in *.
    cbn [cleanRuns assemble] in *.
    apply andb_true_iff in Hc as [Hc1 Hc2]. apply negb_true_iff in Hc1.
    destruct (Hm cb (or_introl eq_refl)) as [Hget Hcap].
    rewrite scanRest_step by exact Hlen.
    rewrite search_after_clean by assumption.
    cbn [index length0 group1 Nat.add].
    replace (skipn _ _) with (concat (map pieceText ps)).
    2:{ rewrite app_assoc, <- length_app, skipn_exact. reflexivity. }
    rewrite firstn_exact.
    pose proof (IH [] (fun cb' Hin => Hm cb' (or_intror Hin)) Hc2) as IH'.
    cbn [app] in IH'. rewrite IH'.
    + unfold codeSeg. rewrite Hget. reflexivity.
    + rewrite !length_app in Hlen. lia.
Qed.

End CleanScan.

(* ================================================================= *)
(** ** The first memo on a document that is not blank *)

Section RenderFacts.

Variable parse : str -> list Token.
Variable libPiece : RendererRules -> list Token -> nat -> str.
Variable libRules : RendererRules.

Lemma fenceRule_describe (t : Token) (p : Pass) :
  type t = fence ->
  fenceRule t p =
  (placeholder (blockId (blockIndex p)),
   {| pushed := pushed p ++ [describe (blockIndex p) t];
      blockIndex := S (blockIndex p) |}).
Proof.
  intros Ht. unfold fenceRule, describe, languageOf. rewrite Ht.
  destruct (info t); reflexivity.
Qed.

Lemma codeBlockRule_describe (t : Token) (p : Pass) :
  type t = code_block ->
  codeBlockRule t p =
  (placeholder (blockId (blockIndex p)),
   {| pushed := pushed p ++ [describe (blockIndex p) t];
      blockIndex := S (blockIndex p) |}).
Proof.
  intros Ht. unfold codeBlockRule, describe, languageOf. rewrite Ht.
  reflexivity.
Qed.

(** One turn of the renderer under the installed table. *)
Lemma renderPiece_installed (tokens : list Token) (i : nat) (t : Token)
    (p : Pass) :
  renderPiece libPiece installed tokens i t p =
  if isCode t
  then (placeholder (blockId (blockIndex p)),
        {| pushed := pushed p ++ [describe (blockIndex p) t];
           blockIndex := S (blockIndex p) |})
  else (libPiece installed tokens i, p).
Proof.
  unfold renderPiece, isCode, ruleFor.
  destruct (type t) eqn:Ht; cbn [installed rules_fence rules_code_block].
  - apply fenceRule_describe; exact Ht.
  - apply codeBlockRule_describe; exact Ht.
  - reflexivity.
  - reflexivity.
Qed.

Lemma renderFrom_installed (tokens rest : list Token) (i : nat)
    (result : str) (p : Pass) :
  renderFrom libPiece installed tokens rest i result p =
  (result ++ piecesText (piecesFrom libPiece tokens rest i (blockIndex p)),
   {| pushed := pushed p ++ describeFrom (blockIndex p) (codeTokens rest);
      blockIndex := blockIndex p + length (codeTokens rest) |}).
Proof.
  revert i result p; induction rest as [|t rest IH]; intros i result p.
  - cbn. rewrite !app_nil_r, Nat.add_0_r. destruct p; reflexivity.
  - cbn [renderFrom piecesFrom codeTokens filter].
    rewrite renderPiece_installed.
    destruct (isCode t); rewrite IH.
    + cbn [pushed blockIndex describeFrom length].
      unfold piecesText. cbn [map concat pieceText describe id].
      rewrite <- !app_assoc. cbn [app]. unfold codeTokens.
      rewrite <- Nat.add_succ_comm. reflexivity.
    + unfold piecesText. cbn [map concat pieceText].
      rewrite <- !app_assoc. reflexivity.
Qed.

Lemma blocksOf_piecesFrom (tokens rest : list Token) (i n : nat) :
  blocksOf (piecesFrom libPiece tokens rest i n) =
  describeFrom n (codeTokens rest).
Proof.
  revert i n; induction rest as [|t rest IH]; intros i n;
    cbn [piecesFrom codeTokens filter]; [reflexivity|].
  destruct (isCode t); cbn [blocksOf describeFrom];
    [f_equal|]; apply IH.
Qed.

Lemma In_blocksOf (ps : list Piece) (cb : CodeBlockData) :
  In (PBlock cb) ps <-> In cb (blocksOf ps).
Proof.
  induction ps as [|[t|cb'] ps IH]; cbn [blocksOf In].
  - tauto.
  - rewrite <- IH. split; [intros [H|H]; [discriminate|exact H] | auto].
  - rewrite <- IH. split; intros [H|H]; auto; left; congruence.
Qed.

Lemma codeOf_app (a b : list Segment) : codeOf (a ++ b) = codeOf a ++ codeOf b.
Proof.
  induction a as [|[c|cb] a IH]; cbn [app codeOf]; [reflexivity|exact IH|].
  rewrite IH; reflexivity.
Qed.

Lemma htmlOf_app (a b : list Segment) : htmlOf (a ++ b) = htmlOf a ++ htmlOf b.
Proof.
  induction a as [|[c|cb] a IH]; cbn [app htmlOf]; [reflexivity| |exact IH].
  rewrite IH; reflexivity.
Qed.

Lemma codeOf_htmlSeg (t : str) : codeOf (htmlSeg t) = [].
Proof. unfold htmlSeg. destruct (truthy (trim t)); reflexivity. Qed.

(** The code segments of an assembled document are its blocks, each once
    and in order. *)
Lemma codeOf_assemble (acc : str) (ps : list Piece) :
  codeOf (assemble acc ps) = blocksOf ps.
Proof.
  revert acc; induction ps as [|[t|cb] ps IH]; intros acc;
    cbn [assemble blocksOf].
  - apply codeOf_htmlSeg.
  - apply IH.
  - rewrite codeOf_app, codeOf_htmlSeg. cbn [app codeOf]. rewrite IH.
    reflexivity.
Qed.

Lemma htmlSeg_not_blank (t c : str) :
  In (SegHtml c) (htmlSeg t) -> truthy (trim c) = true.
Proof.
  unfold htmlSeg. destruct (truthy (trim t)) eqn:E; [|contradiction].
  intros [H|[]]. inversion H; subst. exact E.
Qed.

(** No HTML segment of an assembled document is blank. *)
Lemma assemble_not_blank (acc : str) (ps : list Piece) (c : str) :
  In (SegHtml c) (assemble acc ps) -> truthy (trim c) = true.
Proof.
  revert acc; induction ps as [|[t|cb] ps IH]; intros acc;
    cbn [assemble].
  - apply htmlSeg_not_blank.
  - apply IH.
  - intros H. apply in_app_or in H as [H|[H|H]].
    + apply (htmlSeg_not_blank _ _ H).
    + discriminate.
    + apply (IH _ H).
Qed.

Lemma installed_after_sets (rules : RendererRules) :
  set_link_close (Some linkCloseClosure)
    (set_link_open (Some linkOpenClosure)
      (set_image (Some imageClosure)
        (set_code_block (Some codeBlockClosure)
          (set_fence (Some fenceClosure) rules)))) = installed.
Proof. reflexivity. Qed.

Lemma restored_after_sets (rules : RendererRules) :
  set_link_close (originalLinkClose libRules)
    (set_link_open (originalLinkOpen libRules)
      (set_image (originalImage libRules)
        (set_code_block (originalCodeBlock libRules)
          (set_fence (originalFence libRules) rules)))) = libRules.
Proof. destruct libRules; reflexivity. Qed.

(** On a blank document the first memo returns at once and touches
    nothing. *)
Lemma processedContent_blank (rules : RendererRules) (source : str) :
  truthy (trim source) = false ->
  processedContent parse libPiece libRules rules source =
  ({| html := []; codeBlocks := [] |}, rules).
Proof. intros H. unfold processedContent. rewrite H. reflexivity. Qed.

(** On any other document it renders under the installed table and puts
    the library's table back. *)
Lemma processedContent_not_blank (rules : RendererRules) (source : str) :
  truthy (trim source) = true ->
  processedContent parse libPiece libRules rules source =
  ({| html := piecesText (piecesOf libPiece (parse source));
      codeBlocks := describeFrom 0 (codeTokens (parse source)) |},
   libRules).
Proof.
  intros H. unfold processedContent. rewrite H. cbn [negb].
  rewrite installed_after_sets. unfold render.
  rewrite renderFrom_installed. cbn [pushed blockIndex app].
  rewrite restored_after_sets. reflexivity.
Qed.

Lemma describeFrom_capturable (n : nat) (ts : list Token) (cb : CodeBlockData) :
  In cb (describeFrom n ts) -> capturable (id cb).
Proof.
  revert n; induction ts as [|t ts IH]; intros n; cbn [describeFrom In];
    [contradiction|].
  intros [<-|H]; [apply blockId_capturable | apply (IH _ H)].
Qed.

(** The segments of a document that is not blank and whose runs are clean
    are the pieces of its token stream, assembled in order. *)
Lemma segments_not_blank (rules : RendererRules) (source : str) :
  truthy (trim source) = true ->
  cleanDocument libPiece (parse source) = true ->
  segments parse libPiece libRules rules source =
  Some (assemble [] (piecesOf libPiece (parse source))).
Proof.
  intros Hnb Hclean. unfold segments.
  rewrite processedContent_not_blank by exact Hnb. cbn [fst].
  rewrite segmentsOf_scanRest. cbn [html codeBlocks].
  set (cbs := describeFrom 0 (codeTokens (parse source))).
  set (ps := piecesOf libPiece (parse source)).
  change (piecesText ps) with ([] ++ piecesText ps).
  apply scan_pieces; [|exact Hclean|cbn [app]; lia].
  intros cb Hin. apply In_blocksOf in Hin.
  unfold ps, piecesOf in Hin. rewrite blocksOf_piecesFrom in Hin.
  fold cbs in Hin. split.
  - apply mapGet_newMap_NoDup.
    + rewrite map_map. cbn [fst]. unfold cbs.
      rewrite describeFrom_ids. apply blockIds_NoDup.
    + apply in_map_iff. exists cb; auto.
  - apply (describeFrom_capturable _ _ _ Hin).
Qed.

Lemma segments_blank (rules : RendererRules) (source : str) :
  truthy (trim source) = false ->
  segments parse libPiece libRules rules source = Some [].
Proof.
  intros H. unfold segments. rewrite processedContent_blank by exact H.
  reflexivity.
Qed.

End RenderFacts.

(** Case analysis on the guard of the first memo: the document is blank
    or it is not, and the memo is rewritten accordingly. *)
Ltac by_blankness source H :=
  destruct (truthy (trim source)) eqn:H;
  [ rewrite ?processedContent_not_blank by exact H
  | rewrite ?processedContent_blank by exact H ].

(* ================================================================= *)
(** ** What the scan emits on any text *)

Section ScanOutput.

Variable m : JsMap.

Lemma scanRest_output (fuel : nat) (s : str) (r : list Segment) :
  scanRest fuel m s = Some r ->
  (forall cb, In (SegCode cb) r -> exists g, mapGet m g = Some cb)
  /\ (forall c, In (SegHtml c) r ->
                truthy (trim c) = true /\ search c 0 = None).
Proof.
  revert s r; induction fuel as [|fuel IH]; intros s r; [discriminate|].
  cbn [scanRest]. destruct (search s 0) as [mt|] eqn:E.
  - destruct (scanRest fuel m (skipn (index mt + length0 mt) s))
      as [r'|] eqn:Er; [|discriminate].
    intros H; inversion H; subst r; clear H.
    destruct (IH _ _ Er) as [IHc IHh].
    destruct (search_inv _ E) as (pre & rest & Hs & Hi & _ & _ & Hpre).
    assert (Hf : firstn (index mt) s = pre)
      by (rewrite Hs, Hi; apply firstn_exact).
    rewrite Hf. split.
    + intros cb Hin. apply in_app_or in Hin as [Hin|Hin].
      * unfold htmlSeg in Hin. destruct (truthy (trim pre));
          [destruct Hin as [Hin|[]]; discriminate | contradiction].
      * apply in_app_or in Hin as [Hin|Hin]; [|apply IHc; exact Hin].
        unfold codeSeg in Hin.
        destruct (mapGet m (group1 mt)) as [cb'|] eqn:Eg; [|contradiction].
        destruct Hin as [Hin|[]]. inversion Hin; subst. eauto.
    + intros c Hin. apply in_app_or in Hin as [Hin|Hin].
      * pose proof (htmlSeg_not_blank _ _ Hin) as Hnb.
        unfold htmlSeg in Hin. destruct (truthy (trim pre));
          [|contradiction].
        destruct Hin as [Hin|[]]. inversion Hin; subst. auto.
      * apply in_app_or in Hin as [Hin|Hin]; [|apply IHh; exact Hin].
        unfold codeSeg in Hin.
        destruct (mapGet m (group1 mt)); [|contradiction].
        destruct Hin as [Hin|[]]. discriminate.
  - intros H; inversion H; subst r; clear H. split.
    + intros cb Hin. unfold htmlSeg in Hin.
      destruct (truthy (trim s));
        [destruct Hin as [Hin|[]]; discriminate | contradiction].
    + intros c Hin. pose proof (htmlSeg_not_blank _ _ Hin) as Hnb.
      unfold htmlSeg in Hin. destruct (truthy (trim s)); [|contradiction].
      destruct Hin as [Hin|[]]. inversion Hin; subst. auto.
Qed.

End ScanOutput.

(* ================================================================= *)
(** ** The placeholders the scan finds, and what it emits for each *)

Section FoundPlaceholders.

Lemma foundIds_fuel (f1 f2 : nat) (s : str) :
  length s < f1 -> length s < f2 -> foundIds f1 s = foundIds f2 s.
Proof.
  revert f2 s; induction f1 as [|f1 IH]; intros [|f2] s H1 H2; try lia.
  cbn [foundIds]. destruct (search s 0) as [mt|] eqn:E; [|reflexivity].
  pose proof search_rest_shorter as Hs. specialize (Hs _ _ E).
  f_equal. apply IH; lia.
Qed.

Lemma scanRest_codeOf (m : JsMap) (fuel : nat) (s : str)
    (r : list Segment) :
  scanRest fuel m s = Some r ->
  codeOf r = flat_map (fun g => codeOf (codeSeg m g)) (foundIds fuel s).
Proof.
  revert s r; induction fuel as [|fuel IH]; intros s r; [discriminate|].
  cbn [scanRest foundIds]. destruct (search s 0) as [mt|] eqn:E.
  - destruct (scanRest fuel m (skipn (index mt + length0 mt) s))
      as [r'|] eqn:Er; [|discriminate].
    intros H; inversion H; subst r; clear H.
    rewrite !codeOf_app, codeOf_htmlSeg. cbn [flat_map app].
    f_equal. apply IH; exact Er.
  - intros H; inversion H; subst r. apply codeOf_htmlSeg.
Qed.

Lemma recorded_codeSeg (blocks : list CodeBlockData) (g : str) :
  recorded blocks g = codeOf (codeSeg (codeBlockMapOf blocks) g).
Proof.
  unfold recorded, codeSeg.
  destruct (mapGet (codeBlockMapOf blocks) g); reflexivity.
Qed.

Lemma recorded_In (blocks : list CodeBlockData) (g : str)
    (cb : CodeBlockData) :
  In cb (recorded blocks g) -> In cb blocks /\ id cb = g.
Proof.
  unfold recorded, codeBlockMapOf.
  destruct (mapGet _ g) as [cb'|] eqn:E; [|contradiction].
  intros [<-|[]]. apply mapGet_newMap_In in E.
  apply in_map_iff in E as (cb0 & Heq & Hin).
  inversion Heq; subst. auto.
Qed.

Lemma recorded_unknown (blocks : list CodeBlockData) (g : str) :
  (forall cb, In cb blocks -> id cb <> g) -> recorded blocks g = [].
Proof.
  intros H. destruct (recorded blocks g) as [|cb l] eqn:E; [reflexivity|].
  destruct (@recorded_In blocks g cb) as [Hin Hid];
    [rewrite E; left; reflexivity|].
  exfalso. apply (H cb Hin Hid).
Qed.

Lemma skipn_placeholder (pre g post : str) :
  skipn (length pre + length (placeholder g)) (pre ++ placeholder g ++ post)
  = post.
Proof. rewrite app_assoc, <- length_app. apply skipn_exact. Qed.

Lemma placeholder_rest_shorter (pre g post : str) :
  length post < length (pre ++ placeholder g ++ post).
Proof.
  assert (Hc : 1 <= length markerClose) by (vm_compute; lia).
  rewrite !length_app, placeholder_length. lia.
Qed.

Lemma foundIds_S (fuel : nat) (s : str) :
  foundIds (S fuel) s =
  match search s 0 with
  | None => []
  | Some mt => group1 mt :: foundIds fuel (skipn (index mt + length0 mt) s)
  end.
Proof. reflexivity. Qed.

Lemma placeholdersOf_step (pre g post : str) :
  hasOpen pre = false -> capturable g ->
  placeholdersOf (pre ++ placeholder g ++ post) = g :: placeholdersOf post.
Proof.
  intros Hpre Hg. unfold placeholdersOf. rewrite foundIds_S.
  pose proof search_after_clean as Hs.
  specialize (Hs pre g post 0 Hpre Hg). rewrite Hs.
  cbn [group1 index length0]. rewrite Nat.add_0_l, skipn_placeholder.
  f_equal. apply foundIds_fuel; [apply placeholder_rest_shorter | lia].
Qed.

Lemma segmentsOf_step (blocks : list CodeBlockData) (pre g post : str) :
  hasOpen pre = false -> capturable g ->
  exists rest,
    segmentsOf {| html := post; codeBlocks := blocks |} = Some rest
    /\ segmentsOf {| html := pre ++ placeholder g ++ post;
                     codeBlocks := blocks |}
       = Some (htmlSeg pre ++ codeSeg (codeBlockMapOf blocks) g ++ rest).
Proof.
  intros Hpre Hg.
  destruct (segmentsOf_total {| html := post; codeBlocks := blocks |})
    as [rest Hrest].
  exists rest. split; [exact Hrest|].
  rewrite segmentsOf_scanRest in Hrest |- *. cbn [html codeBlocks] in *.
  fold (codeBlockMapOf blocks) in Hrest |- *.
  pose proof scanRest_step as Hstep.
  specialize (Hstep (codeBlockMapOf blocks)
                (S (length (pre ++ placeholder g ++ post)))
                (pre ++ placeholder g ++ post) (Nat.lt_succ_diag_r _)).
  rewrite Hstep.
  pose proof search_after_clean as Hs.
  specialize (Hs pre g post 0 Hpre Hg). rewrite Hs.
  cbn [group1 index length0]. rewrite Nat.add_0_l, skipn_placeholder.
  pose proof scanRest_fuel as Hfuel.
  specialize (Hfuel (codeBlockMapOf blocks)
                (S (length (pre ++ placeholder g ++ post)))
                (S (length post)) post).
  rewrite Hfuel, Hrest;
    [| pose proof (placeholder_rest_shorter pre g post); lia | lia].
  rewrite firstn_exact. reflexivity.
Qed.

End FoundPlaceholders.

Lemma assemble_no_blocks (acc : str) (ps : list Piece) :
  blocksOf ps = [] -> assemble acc ps = htmlSeg (acc ++ piecesText ps).
Proof.
  revert acc; induction ps as [|[t|cb] ps IH]; intros acc H;
    unfold piecesText; cbn [assemble map concat pieceText blocksOf] in *.
  - rewrite app_nil_r; reflexivity.
  - rewrite app_assoc. apply IH; exact H.
  - discriminate.
Qed.

Lemma describeFrom_NoDup (n : nat) (ts : list Token) :
  NoDup (describeFrom n ts).
Proof.
  apply (NoDup_map_inv id). rewrite describeFrom_ids. apply blockIds_NoDup.
Qed.

Lemma describeFrom_nth (n k : nat) (ts : list Token) (cb : CodeBlockData) :
  nth_error (describeFrom n ts) k = Some cb ->
  exists t, nth_error ts k = Some t /\ cb = describe (n + k) t.
Proof.
  revert n k; induction ts as [|t ts IH]; intros n [|k];
    cbn [describeFrom nth_error]; try discriminate.
  - intros H; inversion H; subst. exists t. rewrite Nat.add_0_r. auto.
  - intros H. destruct (IH _ _ H) as (t' & Ht & ->).
    exists t'. split; [exact Ht|]. f_equal. lia.
Qed.

Lemma codeTokens_isCode (tokens : list Token) (k : nat) (t : Token) :
  nth_error (codeTokens tokens) k = Some t -> isCode t = true.
Proof.
  intros H. apply nth_error_In in H. apply filter_In in H. tauto.
Qed.

(* ================================================================= *)
(** ** Properties of the segmenter *)

Section Segmenter.

Variable parse : str -> list Token.
Variable libPiece : RendererRules -> list Token -> nat -> str.
Variable libRules : RendererRules.

Local Abbreviation processed := (processedContent parse libPiece libRules).
Local Abbreviation segmentsFrom := (segments parse libPiece libRules).

(** C1.  For a document whose library markup never contains the opening
    text of a placeholder, the segment list exists and: its code segments
    are exactly the recorded descriptors, in the order they were recorded,
    and no descriptor is recorded twice, so each sits in exactly one code
    segment; when the document is not blank the list is the token stream
    read top to bottom, every code token a code segment and the markup
    between two code tokens one HTML segment; and no HTML segment is blank
    after trimming. *)
Theorem C1_segments_cover_blocks_in_order :
  forall (rules : RendererRules) (source : str),
    cleanDocument libPiece (parse source) = true ->
    exists segs,
      segmentsFrom rules source = Some segs
      /\ codeOf segs = codeBlocks (fst (processed rules source))
      /\ NoDup (codeBlocks (fst (processed rules source)))
      /\ (truthy (trim source) = true ->
          segs = assemble [] (piecesOf libPiece (parse source)))
      /\ (forall c, In (SegHtml c) segs -> trim c <> []).
Proof.
  intros rules source Hclean.
  destruct (truthy (trim source)) eqn:Hnb.
  - exists (assemble [] (piecesOf libPiece (parse source))).
    rewrite segments_not_blank, processedContent_not_blank by assumption.
    cbn [fst codeBlocks].
    split; [reflexivity|]. split; [|split; [|split]].
    + rewrite codeOf_assemble. apply blocksOf_piecesFrom.
    + apply describeFrom_NoDup.
    + reflexivity.
    + intros c Hin. apply truthy_true. apply (assemble_not_blank _ _ _ Hin).
  - exists []. rewrite segments_blank, processedContent_blank by assumption.
    cbn [fst codeBlocks codeOf].
    repeat split; try discriminate; [constructor | contradiction].
Qed.

(** C2.  One run of the first memo leaves the library's table behind when
    the document is not blank, and leaves the table as it found it when
    the document is blank (it returns before touching it).  So after any
    sequence of runs that starts from the library's table the table is the
    library's again: its fence and code-block entries are the original
    ones, and rendering any text with it is rendering with the library's
    table. *)
Theorem C2_renderers_restored :
  (forall (rules : RendererRules) (source : str),
     snd (processed rules source) =
     if truthy (trim source) then libRules else rules)
  /\ forall (sources : list str),
       let after :=
         fold_left (fun rules source => snd (processed rules source))
                   sources libRules in
       after = libRules
       /\ rules_fence after = originalFence libRules
       /\ rules_code_block after = originalCodeBlock libRules
       /\ forall (text : str) (p : Pass),
            render parse libPiece after text p =
            render parse libPiece libRules text p.
Proof.
  assert (Hone : forall rules source,
             snd (processed rules source) =
             if truthy (trim source) then libRules else rules).
  { intros rules source. by_blankness source E; reflexivity. }
  split; [exact Hone|].
  intros sources.
  assert (Hall : fold_left
                   (fun rules source => snd (processed rules source))
                   sources libRules = libRules).
  { induction sources as [|source sources IH]; cbn [fold_left];
      [reflexivity|].
    rewrite Hone. destruct (truthy (trim source)); exact IH. }
  cbv zeta. rewrite Hall. repeat split.
Qed.

(** C3, amended.  For a document that is not blank after trimming and
    whose library markup never contains the opening text of a placeholder,
    the segment list has exactly as many code segments as the token stream
    has fenced and indented code blocks, and the code texts of the code
    segments are, block by block, the token contents passed through the
    removal of a final line feed; that removal takes one final line feed
    away and nothing more, and changes nothing when no line feed ends the
    text. *)
Theorem C3_code_segments_match_blocks :
  forall (rules : RendererRules) (source : str),
    truthy (trim source) = true ->
    cleanDocument libPiece (parse source) = true ->
    exists segs,
      segmentsFrom rules source = Some segs
      /\ length (codeOf segs) = length (codeTokens (parse source))
      /\ map code (codeOf segs) =
         map (fun t => replaceFinalLf (content t)) (codeTokens (parse source))
      /\ (forall c, replaceFinalLf (c ++ [lf]) = c)
      /\ (forall s, (forall c, s <> c ++ [lf]) -> replaceFinalLf s = s).
Proof.
  intros rules source Hnb Hclean.
  exists (assemble [] (piecesOf libPiece (parse source))).
  rewrite segments_not_blank by assumption.
  rewrite codeOf_assemble. unfold piecesOf. rewrite blocksOf_piecesFrom.
  split; [reflexivity|]. split; [apply describeFrom_length|].
  split; [|split; [apply replaceFinalLf_snoc_lf | apply replaceFinalLf_keep]].
  generalize 0. induction (codeTokens (parse source)) as [|t ts IH];
    intros n; cbn [describeFrom map describe code]; [reflexivity|].
  f_equal. apply IH.
Qed.

(** C4.  A document that is empty or made of white space only yields the
    empty segment list, an empty HTML text and no descriptor, and the
    renderer table is not touched. *)
Theorem C4_blank_document_is_empty :
  forall (rules : RendererRules) (source : str),
    forallb isWhiteSpace source = true ->
    segmentsFrom rules source = Some []
    /\ processed rules source = ({| html := []; codeBlocks := [] |}, rules).
Proof.
  intros rules source Hws. apply trim_blank_false in Hws.
  split; [apply segments_blank | apply processedContent_blank]; exact Hws.
Qed.

(** C5, amended.  For a document that is not blank after trimming, has no
    fenced or indented code block, and whose library markup never contains
    the opening text of a placeholder: when the rendered HTML is not blank
    after trimming the segment list is this HTML as one HTML segment, and
    when the rendered HTML is empty or blank the segment list is empty; in
    both cases there is no code segment. *)
Theorem C5_no_code_block_one_html_segment :
  forall (rules : RendererRules) (source : str),
    truthy (trim source) = true ->
    codeTokens (parse source) = [] ->
    cleanDocument libPiece (parse source) = true ->
    let html0 := html (fst (processed rules source)) in
    segmentsFrom rules source =
    Some (if truthy (trim html0) then [SegHtml html0] else []).
Proof.
  intros rules source Hnb Hnone Hclean. cbv zeta.
  rewrite segments_not_blank, processedContent_not_blank by assumption.
  cbn [fst html]. f_equal.
  rewrite assemble_no_blocks.
  - reflexivity.
  - unfold piecesOf. rewrite blocksOf_piecesFrom, Hnone. reflexivity.
Qed.

(** C6.  The [k]-th descriptor a run records belongs to the [k]-th code
    token of the document, and its language tag is the token's info string
    itself when the token is a fence with an info string that is not
    empty, and the tag plaintext when the token is a fence with an empty
    info string or an indented code block. *)
Theorem C6_language_tag :
  forall (rules : RendererRules) (source : str) (k : nat)
         (cb : CodeBlockData),
    nth_error (codeBlocks (fst (processed rules source))) k = Some cb ->
    exists t,
      nth_error (codeTokens (parse source)) k = Some t
      /\ ((type t = fence /\ info t <> [] /\ language cb = info t)
          \/ (type t = fence /\ info t = []
              /\ language cb = lit "plaintext")
          \/ (type t = code_block /\ language cb = lit "plaintext")).
Proof.
  intros rules source k cb.
  by_blankness source Hnb.
  - cbn [fst codeBlocks].
    intros H. destruct (describeFrom_nth _ _ _ H) as (t & Ht & ->).
    exists t. split; [exact Ht|].
    pose proof (codeTokens_isCode _ _ Ht) as Hc.
    unfold isCode in Hc. cbn [describe language]. unfold languageOf.
    destruct (type t) eqn:Ety; try discriminate.
    + destruct (info t) eqn:Ei.
      * right; left. auto.
      * left. repeat split. discriminate.
    + right; right. auto.
  - cbn [fst codeBlocks]. destruct k; discriminate.
Qed.

(** C7.  On any HTML text and any list of descriptors the scan comes to an
    end with a segment list.  Its code segments are, in order, the
    descriptors the map returns for the identifiers of the placeholders
    found, and the map returns nothing for an identifier no descriptor
    has: a placeholder with such an identifier gives no code segment.
    Where the text is a stretch without the opening text of the marker,
    then a placeholder with such an identifier, then more text, the
    segment list is the HTML segment of the stretch (if it is not blank)
    followed by the segment list of the text after the placeholder:
    nothing is emitted for the placeholder itself.  No HTML segment
    contains a placeholder, whatever its identifier. *)
Theorem C7_unknown_placeholder_is_dropped :
  forall (html0 : str) (blocks : list CodeBlockData),
    exists segs,
      segmentsOf {| html := html0; codeBlocks := blocks |} = Some segs
      /\ codeOf segs = flat_map (recorded blocks) (placeholdersOf html0)
      /\ (forall g, (forall cb, In cb blocks -> id cb <> g) ->
                    recorded blocks g = [])
      /\ (forall pre g post,
            html0 = pre ++ placeholder g ++ post ->
            hasOpen pre = false -> capturable g ->
            (forall cb, In cb blocks -> id cb <> g) ->
            placeholdersOf html0 = g :: placeholdersOf post
            /\ exists rest,
                 segmentsOf {| html := post; codeBlocks := blocks |}
                 = Some rest
                 /\ segs = htmlSeg pre ++ rest)
      /\ (forall cb, In (SegCode cb) segs -> In cb blocks)
      /\ (forall g, (forall cb, In cb blocks -> id cb <> g) ->
                    forall cb, In (SegCode cb) segs -> id cb <> g)
      /\ (forall c, In (SegHtml c) segs ->
                    forall a g b, capturable g ->
                                  c <> a ++ placeholder g ++ b).
Proof.
  intros html0 blocks.
  destruct (segmentsOf_total {| html := html0; codeBlocks := blocks |})
    as [segs Hsegs].
  exists segs. split; [exact Hsegs|].
  pose proof Hsegs as Hscan.
  rewrite segmentsOf_scanRest in Hscan. cbn [html codeBlocks] in Hscan.
  destruct (scanRest_output _ _ _ Hscan) as [Hc Hh].
  assert (Hin : forall cb, In (SegCode cb) segs -> In cb blocks).
  { intros cb H. destruct (Hc _ H) as [g Hg].
    apply mapGet_newMap_In in Hg. apply in_map_iff in Hg as (cb' & E & Hin).
    inversion E; subst. exact Hin. }
  split; [|split; [|split; [|split; [|split]]]].
  - fold (codeBlockMapOf blocks) in Hscan.
    rewrite (scanRest_codeOf _ _ _ Hscan). unfold placeholdersOf.
    apply flat_map_ext. intros g. symmetry. apply recorded_codeSeg.
  - apply recorded_unknown.
  - intros pre g post -> Hpre Hg Hunknown.
    split; [apply placeholdersOf_step; assumption|].
    destruct (@segmentsOf_step blocks pre g post Hpre Hg)
      as (rest & Hrest & Hall).
    exists rest. split; [exact Hrest|].
    rewrite Hall in Hsegs. inversion Hsegs; subst segs.
    pose proof (recorded_unknown _ Hunknown) as Hrec.
    rewrite recorded_codeSeg in Hrec. unfold codeSeg in Hrec |- *.
    destruct (mapGet (codeBlockMapOf blocks) g); [discriminate|].
    reflexivity.
  - exact Hin.
  - intros g Hg cb H. apply Hg, Hin, H.
  - intros c H a g b Hcap ->. destruct (Hh _ H) as [_ Hs].
    apply (search_finds a b Hcap Hs).
Qed.

(** C8.  A second run on the same document, from the table the first run
    left, returns the same HTML and descriptors and so the same segment
    list; indeed the result of a run does not depend on the table it
    finds.  Within a run the identifiers are those of the counter values
    0, 1, 2, ... in the order of recording, and they are pairwise
    distinct. *)
Theorem C8_runs_are_deterministic :
  forall (rules : RendererRules) (source : str),
    let run1 := processed rules source in
    let run2 := processed (snd run1) source in
    fst run1 = fst run2
    /\ segmentsOf (fst run1) = segmentsOf (fst run2)
    /\ (forall rules', fst (processed rules' source) = fst run1)
    /\ map id (codeBlocks (fst run1)) =
       map blockId (seq 0 (length (codeBlocks (fst run1))))
    /\ NoDup (map id (codeBlocks (fst run1)))
    /\ (forall a b, blockId a = blockId b -> a = b).
Proof.
  intros rules source. cbv zeta.
  assert (Hind : forall r r',
             fst (processed r source) = fst (processed r' source)).
  { intros r r'. by_blankness source Hnb; reflexivity. }
  assert (Hids : map id (codeBlocks (fst (processed rules source))) =
                 map blockId
                   (seq 0 (length (codeBlocks (fst (processed rules source)))))).
  { by_blankness source Hnb; [|reflexivity].
    cbn [fst codeBlocks].
    rewrite describeFrom_ids, describeFrom_length. reflexivity. }
  split; [apply Hind|]. split; [f_equal; apply Hind|].
  split; [intros r'; apply Hind|]. split; [exact Hids|].
  split; [rewrite Hids; apply blockIds_NoDup | exact blockId_inj].
Qed.

End Segmenter.

(* ================================================================= *)
(** ** Properties of the files store *)

Section Files.

Import FilesStore.

Lemma saveToStorage_signals (fs : list SavedFile) (st : Store) :
  files (saveToStorage fs st) = files st
  /\ currentFileId (saveToStorage fs st) = currentFileId st.
Proof. unfold saveToStorage. destruct (window st); auto. Qed.

Lemma saveCurrentFileId_signals (i : option str) (st : Store) :
  files (saveCurrentFileId i st) = files st
  /\ currentFileId (saveCurrentFileId i st) = currentFileId st.
Proof. unfold saveCurrentFileId. destruct (window st); auto. Qed.

Lemma deleteFile_files (i : str) (st : Store) :
  files (deleteFile i st) =
  filter (fun f => negb (eqb (FilesStore.id f) i)) (files st).
Proof.
  unfold deleteFile.
  destruct (isCurrent _ i).
  - unfold setCurrentFileId.
    rewrite (proj1 (saveCurrentFileId_signals _ _)). cbn [files setCurrentFileIdInternal].
    rewrite (proj1 (saveToStorage_signals _ _)). reflexivity.
  - rewrite (proj1 (saveToStorage_signals _ _)). reflexivity.
Qed.

Lemma deleteFile_current (i : str) (st : Store) :
  currentFileId (deleteFile i st) =
  if isCurrent st i then None else currentFileId st.
Proof.
  unfold deleteFile.
  assert (E : isCurrent
                (saveToStorage
                   (filter (fun f => negb (eqb (FilesStore.id f) i)) (files st))
                   (setFiles
                      (filter (fun f => negb (eqb (FilesStore.id f) i))
                              (files st)) st)) i
              = isCurrent st i).
  { unfold isCurrent. rewrite (proj2 (saveToStorage_signals _ _)).
    reflexivity. }
  rewrite E. destruct (isCurrent st i).
  - unfold setCurrentFileId.
    rewrite (proj2 (saveCurrentFileId_signals _ _)). reflexivity.
  - rewrite (proj2 (saveToStorage_signals _ _)). reflexivity.
Qed.

(** C9.  A document created with the empty name is named Untitled, a
    name that is not empty is kept, and every created document has its
    creation time equal to its last-modified time; the document is the one
    appended to the list of files. *)
Theorem C9_createFile_defaults :
  forall (now : N) (newId content0 : str) (st : Store),
    name (fst (createFile now newId [] content0 st)) = lit "Untitled"
    /\ forall name0,
         let created := createFile now newId name0 content0 st in
         createdAt (fst created) = updatedAt (fst created)
         /\ (name0 <> [] -> name (fst created) = name0)
         /\ files (snd created) = files st ++ [fst created].
Proof.
  intros now newId content0 st. split; [reflexivity|].
  intros name0. cbv zeta. unfold createFile. cbn [fst snd createdAt updatedAt name].
  split; [reflexivity|]. split.
  - intros H. apply truthy_true in H. rewrite H. reflexivity.
  - rewrite (proj1 (saveToStorage_signals _ _)). reflexivity.
Qed.

(** C10.  After deleting by identifier the list of files holds exactly the
    documents of the old list whose identifier differs, as many times as
    before and unchanged, and none whose identifier is the given one; the
    current-file selection becomes null when it was the given identifier
    and is the old selection otherwise. *)
Theorem C10_deleteFile_frame :
  forall (i : str) (st : Store),
    let st' := deleteFile i st in
    (forall f, In f (files st') <-> In f (files st) /\ FilesStore.id f <> i)
    /\ (forall f, FilesStore.id f <> i ->
                  count_occ SavedFile_eq_dec (files st') f =
                  count_occ SavedFile_eq_dec (files st) f)
    /\ (forall f, FilesStore.id f = i ->
                  count_occ SavedFile_eq_dec (files st') f = 0)
    /\ (currentFileId st = Some i -> currentFileId st' = None)
    /\ (currentFileId st <> Some i -> currentFileId st' = currentFileId st).
Proof.
  intros i st. cbv zeta. rewrite deleteFile_files, deleteFile_current.
  split; [|split; [|split; [|split]]].
  - intros f. rewrite filter_In, negb_true_iff, eqb_neq. tauto.
  - intros f Hf. induction (files st) as [|g fs IH]; cbn [filter];
      [reflexivity|].
    destruct (eqb (FilesStore.id g) i) eqn:E; cbn [negb count_occ].
    + apply eqb_eq in E.
      destruct (SavedFile_eq_dec g f) as [->|_]; [contradiction | exact IH].
    + destruct (SavedFile_eq_dec g f); rewrite IH; reflexivity.
  - intros f Hf. apply count_occ_not_In. rewrite filter_In.
    intros [_ H]. apply negb_true_iff, eqb_neq in H. contradiction.
  - intros H. unfold isCurrent. rewrite H, eqb_refl. reflexivity.
  - intros H. unfold isCurrent.
    destruct (currentFileId st) as [c|]; [|reflexivity].
    destruct (eqb c i) eqn:E; [|reflexivity].
    apply eqb_eq in E. congruence.
Qed.

End Files.

(* ================================================================= *)
(** ** The component on concrete documents *)

Section Instances.

Import MiniMd.

(** The document of the specification's ordering example gives the markup
    of A, the block holding x, the markup of B. *)
Example segments_docOrder :
  MiniMd.segments libRules docOrder =
  Some [ SegHtml (lit "<p>A</p>" ++ [lf]);
         SegCode {| id := lit "code-block-0";
                    code := lit "x";
                    language := lit "plaintext" |};
         SegHtml (lit "<p>B</p>" ++ [lf]) ].
Proof. vm_compute. reflexivity. Qed.

(** A fence tagged js and an indented block: the tag is kept as written,
    one of the two final line feeds of the fence body goes, and the
    indented block is plaintext. *)
Example segments_docTwoBlocks :
  MiniMd.segments libRules docTwoBlocks =
  Some [ SegCode {| id := lit "code-block-0";
                    code := lit "let a" ++ [lf];
                    language := lit "js" |};
         SegCode {| id := lit "code-block-1";
                    code := lit "indented";
                    language := lit "plaintext" |} ].
Proof. vm_compute. reflexivity. Qed.

(** A placeholder nobody recorded leaves the markup on its two sides and
    nothing else. *)
Example segmentsOf_htmlStray :
  segmentsOf {| html := htmlStray; codeBlocks := [] |} =
  Some [ SegHtml (lit "<p>a</p>"); SegHtml (lit "<p>b</p>") ].
Proof. vm_compute. reflexivity. Qed.

(** After a run the library renders code blocks its own way again. *)
Example render_after_run :
  fst (render parse libPiece
         (snd (MiniMd.processedContent libRules docOrder))
         docTwoBlocks {| pushed := []; blockIndex := 0 |}) =
  lit "<pre><code class=" ++ [quote] ++ lit "language-js" ++ [quote]
  ++ lit ">let a" ++ [lf; lf] ++ lit "</code></pre>" ++ [lf]
  ++ lit "<pre><code>indented" ++ [lf] ++ lit "</code></pre>" ++ [lf].
Proof. vm_compute. reflexivity. Qed.

Lemma C1_witness :
  cleanDocument libPiece (parse docOrder) = true
  /\ exists segs,
       Preview.segments parse libPiece libRules libRules docOrder = Some segs
       /\ codeOf segs =
          codeBlocks
            (fst (Preview.processedContent parse libPiece libRules libRules
                    docOrder))
       /\ NoDup
            (codeBlocks
               (fst (Preview.processedContent parse libPiece libRules
                       libRules docOrder)))
       /\ (truthy (trim docOrder) = true ->
           segs = assemble [] (piecesOf libPiece (parse docOrder)))
       /\ (forall c, In (SegHtml c) segs -> trim c <> []).
Proof.
  split.
  - vm_compute. reflexivity.
  - apply (C1_segments_cover_blocks_in_order parse libPiece libRules
             libRules docOrder).
    vm_compute. reflexivity.
Defined.

(** C3 as stated fails on a document that is blank for [trim] and still
    holds a code block: four spaces and a form feed make one indented code
    block, and the segment list is empty. *)
Lemma C3_counterexample :
  codeTokens (parse docFormFeed) = [codeToken [12%N; lf]]
  /\ cleanDocument libPiece (parse docFormFeed) = true
  /\ MiniMd.segments libRules docFormFeed = Some []
  /\ length (codeOf []) <> length (codeTokens (parse docFormFeed)).
Proof.
  repeat split; try (vm_compute; reflexivity).
  vm_compute. discriminate.
Qed.

Lemma C3_witness :
  truthy (trim docTwoBlocks) = true
  /\ cleanDocument libPiece (parse docTwoBlocks) = true
  /\ exists segs,
       Preview.segments parse libPiece libRules libRules docTwoBlocks
       = Some segs
       /\ length (codeOf segs) = length (codeTokens (parse docTwoBlocks))
       /\ map code (codeOf segs) =
          map (fun t => replaceFinalLf (content t))
              (codeTokens (parse docTwoBlocks))
       /\ (forall c, replaceFinalLf (c ++ [lf]) = c)
       /\ (forall s, (forall c, s <> c ++ [lf]) -> replaceFinalLf s = s).
Proof.
  split; [vm_compute; reflexivity|].
  split; [vm_compute; reflexivity|].
  apply (C3_code_segments_match_blocks parse libPiece libRules libRules
           docTwoBlocks); vm_compute; reflexivity.
Defined.

Lemma C4_witness :
  forallb isWhiteSpace docWhiteSpace = true
  /\ Preview.segments parse libPiece libRules libRules docWhiteSpace = Some []
  /\ Preview.processedContent parse libPiece libRules libRules docWhiteSpace
     = ({| html := []; codeBlocks := [] |}, libRules).
Proof.
  split; [vm_compute; reflexivity|].
  apply (C4_blank_document_is_empty parse libPiece libRules libRules
           docWhiteSpace).
  vm_compute. reflexivity.
Defined.

(** C5 as stated fails on a document that renders to nothing: a link
    reference definition is not blank and holds no code block, and the
    segment list is empty instead of one HTML segment. *)
Lemma C5_counterexample :
  truthy (trim docRefDef) = true
  /\ codeTokens (parse docRefDef) = []
  /\ cleanDocument libPiece (parse docRefDef) = true
  /\ MiniMd.segments libRules docRefDef = Some []
  /\ length (htmlOf []) <> 1.
Proof.
  repeat split; try (vm_compute; reflexivity).
  vm_compute. discriminate.
Qed.

Lemma C5_witness :
  truthy (trim docPlain) = true
  /\ codeTokens (parse docPlain) = []
  /\ cleanDocument libPiece (parse docPlain) = true
  /\ Preview.segments parse libPiece libRules libRules docPlain =
     Some (if truthy
                (trim (html (fst (Preview.processedContent parse libPiece
                                    libRules libRules docPlain))))
           then [SegHtml
                   (html (fst (Preview.processedContent parse libPiece
                                 libRules libRules docPlain)))]
           else []).
Proof.
  split; [vm_compute; reflexivity|].
  split; [vm_compute; reflexivity|].
  split; [vm_compute; reflexivity|].
  apply (C5_no_code_block_one_html_segment parse libPiece libRules libRules
           docPlain); vm_compute; reflexivity.
Defined.

Lemma C6_witness :
  nth_error
    (codeBlocks (fst (Preview.processedContent parse libPiece libRules
                        libRules docTwoBlocks))) 0
  = Some {| id := lit "code-block-0";
            code := lit "let a" ++ [lf];
            language := lit "js" |}
  /\ exists t,
       nth_error (codeTokens (parse docTwoBlocks)) 0 = Some t
       /\ ((type t = fence /\ info t <> [] /\ lit "js" = info t)
           \/ (type t = fence /\ info t = [] /\ lit "js" = lit "plaintext")
           \/ (type t = code_block /\ lit "js" = lit "plaintext")).
Proof.
  split; [vm_compute; reflexivity|].
  apply (@C6_language_tag parse libPiece libRules libRules docTwoBlocks 0
           {| id := lit "code-block-0";
              code := lit "let a" ++ [lf];
              language := lit "js" |}).
  vm_compute. reflexivity.
Defined.

End Instances.

(* ================================================================= *)
(** ** More about the files store *)

Section FilesMore.

Import FilesStore FilesOps.

Lemma updateAll_nth (clock : nat -> N) (i : str) (u : Updates)
    (fs : list SavedFile) (k0 k : nat) (f : SavedFile) :
  nth_error fs k = Some f ->
  exists g,
    nth_error (updateAll clock k0 i u fs) k = Some g
    /\ (FilesStore.id f <> i -> g = f)
    /\ (FilesStore.id f = i -> exists j, g = applyUpdates f u (clock j)).
Proof.
  revert k0 k; induction fs as [|f0 fs IH]; intros k0 [|k];
    cbn [nth_error updateAll]; try discriminate.
  - intros H; inversion H; subst f0; clear H.
    destruct (eqb (FilesStore.id f) i) eqn:E; cbn [nth_error].
    + apply eqb_eq in E. eexists; split; [reflexivity|].
      split; [intros Hn; contradiction | eauto].
    + apply eqb_neq in E. eexists; split; [reflexivity|].
      split; [reflexivity | intros He; contradiction].
  - intros H. destruct (eqb (FilesStore.id f0) i); cbn [nth_error];
      apply IH; exact H.
Qed.

Lemma updateAll_length (clock : nat -> N) (i : str) (u : Updates)
    (fs : list SavedFile) (k0 : nat) :
  length (updateAll clock k0 i u fs) = length fs.
Proof.
  revert k0; induction fs as [|f fs IH]; intros k0; cbn [updateAll];
    [reflexivity|].
  destruct (eqb (FilesStore.id f) i); cbn [length]; rewrite IH; reflexivity.
Qed.

Lemma updateAll_ids (clock : nat -> N) (i : str) (u : Updates)
    (fs : list SavedFile) (k0 : nat) :
  map FilesStore.id (updateAll clock k0 i u fs) = map FilesStore.id fs
  /\ map createdAt (updateAll clock k0 i u fs) = map createdAt fs.
Proof.
  revert k0; induction fs as [|f fs IH]; intros k0; cbn [updateAll];
    [split; reflexivity|].
  destruct (IH k0) as [I1 I2]. destruct (IH (S k0)) as [J1 J2].
  destruct (eqb (FilesStore.id f) i); cbn [map applyUpdates FilesStore.id createdAt];
    split; congruence.
Qed.

Lemma updateAll_absent (clock : nat -> N) (i : str) (u : Updates)
    (fs : list SavedFile) (k0 : nat) :
  (forall f, In f fs -> FilesStore.id f <> i) ->
  updateAll clock k0 i u fs = fs.
Proof.
  induction fs as [|f fs IH]; intros H; cbn [updateAll]; [reflexivity|].
  destruct (eqb (FilesStore.id f) i) eqn:E.
  - apply eqb_eq in E. exfalso. apply (H f); [left; reflexivity | exact E].
  - rewrite IH; [reflexivity|]. intros g Hg; apply H; right; exact Hg.
Qed.

Lemma updateFile_signals (clock : nat -> N) (i : str) (u : Updates)
    (st : Store) :
  files (updateFile clock i u st) = updateAll clock 0 i u (files st)
  /\ currentFileId (updateFile clock i u st) = currentFileId st.
Proof.
  unfold updateFile.
  destruct (saveToStorage_signals (updateAll clock 0 i u (files st))
              (setFiles (updateAll clock 0 i u (files st)) st)) as [H1 H2].
  rewrite H1, H2. split; reflexivity.
Qed.

Lemma createFile_signals (now : N) (newId name0 content0 : str) (st : Store) :
  files (snd (createFile now newId name0 content0 st)) =
    files st ++ [fst (createFile now newId name0 content0 st)]
  /\ currentFileId (snd (createFile now newId name0 content0 st)) =
     currentFileId st.
Proof.
  unfold createFile. cbn [fst snd].
  match goal with
  | |- context [saveToStorage ?a ?b] =>
      destruct (saveToStorage_signals a b) as [H1 H2]
  end.
  rewrite H1, H2. split; reflexivity.
Qed.

Lemma In_ids (fs : list SavedFile) (c : str) :
  (exists f, In f fs /\ FilesStore.id f = c) <-> In c (map FilesStore.id fs).
Proof.
  rewrite in_map_iff. split; intros (f & H1 & H2); exists f; tauto.
Qed.

(** X1.  [updateFile] keeps the number of documents, their identifiers
    and creation times, their order and the selection.  A document with
    another identifier is left as it is; a document with the given
    identifier takes the name and the content the update carries, keeps
    the ones the update does not carry, and its last-modified time is a
    reading of the clock. *)
Theorem updateFile_frame :
  forall (clock : nat -> N) (i : str) (u : Updates) (st : Store),
    let st' := updateFile clock i u st in
    length (files st') = length (files st)
    /\ map FilesStore.id (files st') = map FilesStore.id (files st)
    /\ map createdAt (files st') = map createdAt (files st)
    /\ currentFileId st' = currentFileId st
    /\ forall k f,
         nth_error (files st) k = Some f ->
         exists g,
           nth_error (files st') k = Some g
           /\ (FilesStore.id f <> i -> g = f)
           /\ (FilesStore.id f = i ->
               name g = match newName u with Some n => n | None => name f end
               /\ content g =
                  match newContent u with Some c => c | None => content f end
               /\ exists j, updatedAt g = clock j).
Proof.
  intros clock i u st. cbv zeta.
  destruct (updateFile_signals clock i u st) as [Hf Hc]. rewrite Hf, Hc.
  destruct (updateAll_ids clock i u (files st) 0) as [Hi Ht].
  split; [apply updateAll_length|].
  split; [exact Hi|]. split; [exact Ht|]. split; [reflexivity|].
  intros k f Hk.
  destruct (updateAll_nth clock i u (files st) 0 k Hk) as (g & Hg & Hne & He).
  exists g. split; [exact Hg|]. split; [exact Hne|].
  intros E. destruct (He E) as [j ->]. cbn [applyUpdates name content updatedAt].
  eauto.
Qed.

(** X2.  [updateFile] with an identifier no document has changes neither
    the list of documents nor the selection. *)
Theorem updateFile_unknown_id :
  forall (clock : nat -> N) (i : str) (u : Updates) (st : Store),
    (forall f, In f (files st) -> FilesStore.id f <> i) ->
    files (updateFile clock i u st) = files st
    /\ currentFileId (updateFile clock i u st) = currentFileId st.
Proof.
  intros clock i u st H.
  destruct (updateFile_signals clock i u st) as [Hf Hc]. rewrite Hf, Hc.
  split; [apply updateAll_absent; exact H | reflexivity].
Qed.

Lemma saveCurrentDraft_signals (clock : nat -> N) (c : str) (st : Store) :
  map FilesStore.id (files (saveCurrentDraft clock c st)) =
    map FilesStore.id (files st)
  /\ currentFileId (saveCurrentDraft clock c st) = currentFileId st.
Proof.
  unfold saveCurrentDraft.
  destruct (currentFileId st) as [i|] eqn:E; [|rewrite E; auto].
  destruct (truthy i); [|rewrite E; auto].
  destruct (updateFile_signals clock i
              {| newName := None; newContent := Some c |} st) as [Hf Hc].
  rewrite Hf, Hc.
  split; [apply updateAll_ids | exact E].
Qed.

(** X3.  When the selection is null or names a stored document, it still
    is after [createFile], [updateFile], [deleteFile] and
    [saveCurrentDraft]. *)
Theorem selection_stays_valid :
  forall (st : Store),
    selectionValid st ->
    (forall now newId name0 content0,
        selectionValid (snd (createFile now newId name0 content0 st)))
    /\ (forall clock i u, selectionValid (updateFile clock i u st))
    /\ (forall i, selectionValid (deleteFile i st))
    /\ (forall clock c, selectionValid (saveCurrentDraft clock c st)).
Proof.
  intros st Hv. unfold selectionValid in *.
  split; [|split; [|split]].
  - intros now newId name0 content0.
    destruct (createFile_signals now newId name0 content0 st) as [Hf Hc].
    rewrite Hc, Hf. destruct (currentFileId st) as [c|]; [|exact I].
    destruct Hv as (f & Hin & Hid). exists f. split; [|exact Hid].
    apply in_or_app; left; exact Hin.
  - intros clock i u.
    destruct (updateFile_signals clock i u st) as [Hf Hc].
    rewrite Hc. destruct (currentFileId st) as [c|]; [|exact I].
    apply In_ids. rewrite Hf, (proj1 (updateAll_ids clock i u (files st) 0)).
    apply In_ids; exact Hv.
  - intros i. rewrite deleteFile_current, deleteFile_files.
    unfold isCurrent. destruct (currentFileId st) as [c|]; [|exact I].
    destruct (eqb c i) eqn:E; [exact I|].
    destruct Hv as (f & Hin & Hid). exists f. split; [|exact Hid].
    apply filter_In. split; [exact Hin|]. rewrite Hid, E. reflexivity.
  - intros clock c.
    destruct (saveCurrentDraft_signals clock c st) as [Hf Hc].
    rewrite Hc. destruct (currentFileId st) as [c0|]; [|exact I].
    apply In_ids. rewrite Hf. apply In_ids; exact Hv.
Qed.

(** X4.  On a page load [initializeFilesStore] takes the stored list of
    documents, and takes the stored selection exactly when it is a string
    that is not empty and is the identifier of one of these documents; a
    stored selection that names no document is ignored.  The selection it
    leaves is therefore valid.  Once the store is initialized a further
    call changes nothing, whatever the storage holds by then. *)
Theorem initialize_validates_selection :
  forall (w : option LocalStorage),
    let s := initializeFilesStore (pageLoad w) in
    isInitialized s = true
    /\ files (store s) = loadFromStorage w
    /\ (forall c, currentFileId (store s) = Some c <->
                  loadCurrentFileId w = Some c /\ c <> []
                  /\ exists f, In f (loadFromStorage w) /\ FilesStore.id f = c)
    /\ selectionValid (store s)
    /\ window (store s) = w
    /\ forall s0, isInitialized s0 = true -> initializeFilesStore s0 = s0.
Proof.
  intros w. cbv zeta.
  assert (Hlast : forall s0, isInitialized s0 = true ->
                             initializeFilesStore s0 = s0).
  { intros s0 H. unfold initializeFilesStore. rewrite H. reflexivity. }
  unfold initializeFilesStore, pageLoad.
  cbn [isInitialized store window setFiles files currentFileId].
  destruct (loadCurrentFileId w) as [c|] eqn:Ec.
  - destruct (truthy c && existsb (fun f => eqb (FilesStore.id f) c)
                                   (loadFromStorage w)) eqn:E.
    + apply andb_true_iff in E as [E1 E2].
      apply truthy_true in E1. apply existsb_exists in E2 as (f & Hin & Hf).
      apply eqb_eq in Hf.
      cbn [store isInitialized setCurrentFileIdInternal files currentFileId
           window selectionValid].
      split; [reflexivity|]. split; [reflexivity|].
      split; [|split; [unfold selectionValid; cbn; eauto|split; auto]].
      intros c'. split.
      * intros H; inversion H; subst c'. eauto.
      * intros (H & _). congruence.
    + cbn [store isInitialized files currentFileId window].
      split; [reflexivity|]. split; [reflexivity|].
      split; [|split; [exact I|split; auto]].
      intros c'. split; [discriminate|].
      intros (H & Hne & f & Hin & Hf). injection H as Hc.
      rewrite <- Hc in Hne, Hf. clear Hc.
      apply andb_false_iff in E as [E|E].
      * apply truthy_false in E. congruence.
      * assert (existsb (fun f => eqb (FilesStore.id f) c)
                        (loadFromStorage w) = true)
          by (apply existsb_exists; exists f; split;
              [exact Hin | apply eqb_eq; exact Hf]).
        congruence.
  - cbn [store isInitialized files currentFileId window].
    split; [reflexivity|]. split; [reflexivity|].
    split; [|split; [exact I|split; auto]].
    intros c'. split; [discriminate|]. intros (H & _). discriminate.
Qed.

End FilesMore.

Section FilesReload.

Import FilesStore FilesOps.

Lemma saveToStorage_window (fs : list SavedFile) (st : Store) :
  window (saveToStorage fs st) =
  match window st with
  | None => None
  | Some ls => Some {| storedFiles := Some fs;
                       storedCurrentFile := storedCurrentFile ls |}
  end.
Proof.
  unfold saveToStorage. destruct (window st) eqn:E; [reflexivity | exact E].
Qed.

Lemma reload_signals (st : Store) :
  files (reload st) = loadFromStorage (window st)
  /\ currentFileId (reload st) =
     match loadCurrentFileId (window st) with
     | Some c =>
         if truthy c && existsb (fun f => eqb (FilesStore.id f) c)
                                (loadFromStorage (window st))
         then Some c else None
     | None => None
     end.
Proof.
  unfold reload, initializeFilesStore, pageLoad.
  cbn [isInitialized store window setFiles files currentFileId].
  destruct (loadCurrentFileId (window st)) as [c|]; [|split; reflexivity].
  destruct (truthy c && _); split; reflexivity.
Qed.

Lemma stored_after_save (fs : list SavedFile) (st : Store) :
  window st <> None ->
  loadFromStorage (window (saveToStorage fs st)) = fs.
Proof.
  intros H. rewrite saveToStorage_window.
  destruct (window st); [reflexivity | congruence].
Qed.

Lemma deleteFile_window (i : str) (st : Store) :
  window st <> None ->
  loadFromStorage (window (deleteFile i st)) = files (deleteFile i st)
  /\ (currentFileId st = Some i ->
      loadCurrentFileId (window (deleteFile i st)) = None).
Proof.
  intros Hw. rewrite deleteFile_files. unfold deleteFile.
  set (updated := filter _ (files st)).
  assert (E : isCurrent (saveToStorage updated (setFiles updated st)) i
              = isCurrent st i).
  { unfold isCurrent. rewrite (proj2 (saveToStorage_signals _ _)).
    reflexivity. }
  rewrite E.
  assert (Hs : window (saveToStorage updated (setFiles updated st)) <> None).
  { rewrite saveToStorage_window. cbn [setFiles window].
    destruct (window st); [discriminate | congruence]. }
  destruct (isCurrent st i) eqn:Ec.
  - unfold setCurrentFileId, saveCurrentFileId.
    cbn [setCurrentFileIdInternal window].
    pose proof (@stored_after_save updated (setFiles updated st)) as Hl.
    cbn [setFiles window] in Hl. specialize (Hl Hw).
    destruct (window (saveToStorage updated (setFiles updated st)))
      as [ls|]; [|contradiction].
    cbn [window loadFromStorage loadCurrentFileId storedFiles
         storedCurrentFile] in *.
    split; [exact Hl | reflexivity].
  - split; [apply stored_after_save; exact Hw|].
    intros H. unfold isCurrent in Ec. rewrite H, eqb_refl in Ec.
    discriminate.
Qed.

(** X5.  In a browser, closing and opening the page after [createFile],
    [updateFile] or [deleteFile] brings back the list of documents the
    operation left. *)
Theorem reload_restores_files :
  forall (st : Store),
    window st <> None ->
    (forall now newId name0 content0,
        files (reload (snd (createFile now newId name0 content0 st))) =
        files (snd (createFile now newId name0 content0 st)))
    /\ (forall clock i u,
          files (reload (updateFile clock i u st)) =
          files (updateFile clock i u st))
    /\ (forall i,
          files (reload (deleteFile i st)) = files (deleteFile i st)).
Proof.
  intros st Hw. split; [|split].
  - intros now newId name0 content0.
    rewrite (proj1 (reload_signals _)).
    rewrite (proj1 (createFile_signals now newId name0 content0 st)).
    unfold createFile. cbn [fst snd].
    apply stored_after_save. exact Hw.
  - intros clock i u. rewrite (proj1 (reload_signals _)).
    rewrite (proj1 (updateFile_signals clock i u st)).
    unfold updateFile. apply stored_after_save. exact Hw.
  - intros i. rewrite (proj1 (reload_signals _)).
    apply deleteFile_window. exact Hw.
Qed.

(** X6.  In a browser whose stored list is the list of documents,
    selecting an identifier and reloading the page keeps the selection
    exactly when the identifier is not the empty string and some document
    has it; selecting null, or deleting the selected document, leaves no
    selection after a reload. *)
Theorem reload_restores_selection :
  forall (st : Store) (ls : LocalStorage),
    window st = Some ls ->
    storedFiles ls = Some (files st) ->
    (forall i,
        currentFileId (reload (setCurrentFileId (Some i) st)) =
        if truthy i && existsb (fun f => eqb (FilesStore.id f) i) (files st)
        then Some i else None)
    /\ currentFileId (reload (setCurrentFileId None st)) = None
    /\ (forall i, currentFileId st = Some i ->
                  currentFileId (reload (deleteFile i st)) = None).
Proof.
  intros st ls Hw Hs. split; [|split].
  - intros i. rewrite (proj2 (reload_signals _)).
    unfold setCurrentFileId, saveCurrentFileId.
    cbn [setCurrentFileIdInternal window]. rewrite Hw.
    cbn [window loadCurrentFileId loadFromStorage storedFiles
         storedCurrentFile].
    rewrite Hs. destruct (truthy i) eqn:Et; cbn [andb]; [|reflexivity].
    rewrite Et. reflexivity.
  - rewrite (proj2 (reload_signals _)).
    unfold setCurrentFileId, saveCurrentFileId.
    cbn [setCurrentFileIdInternal window]. rewrite Hw. reflexivity.
  - intros i Hc. rewrite (proj2 (reload_signals _)).
    assert (Hn : window st <> None) by (rewrite Hw; discriminate).
    rewrite (proj2 (@deleteFile_window i st Hn) Hc). reflexivity.
Qed.

Lemma find_first_id (fs : list SavedFile) (i : str) (f : SavedFile) :
  find (fun g => eqb (FilesStore.id g) i) fs = Some f ->
  In f fs /\ FilesStore.id f = i.
Proof.
  intros H. apply find_some in H as [H1 H2]. apply eqb_eq in H2. auto.
Qed.

(** X7.  [getCurrentFile] only returns a stored document whose identifier
    is the selection, and that identifier is not the empty string.  It
    returns one whenever the selection is a string that is not empty and
    names a stored document, and none when the selection is null, empty
    or names no document. *)
Theorem getCurrentFile_sound_complete :
  forall (st : Store),
    (forall f, getCurrentFile st = Some f ->
               In f (files st)
               /\ currentFileId st = Some (FilesStore.id f)
               /\ FilesStore.id f <> [])
    /\ (getCurrentFile st = None <->
        currentFileId st = None
        \/ currentFileId st = Some []
        \/ exists c, currentFileId st = Some c
                     /\ forall f, In f (files st) -> FilesStore.id f <> c).
Proof.
  intros st. unfold getCurrentFile.
  destruct (currentFileId st) as [c|].
  - destruct (truthy c) eqn:Et.
    + apply truthy_true in Et. split.
      * intros f H. apply find_first_id in H as [H1 H2]. subst c. auto.
      * split.
        -- intros H. right; right. exists c. split; [reflexivity|].
           intros f Hin Hid.
           apply (find_none _ _ H) in Hin. cbv beta in Hin.
           rewrite Hid, eqb_refl in Hin. discriminate.
        -- intros [H|[H|(c' & H & Hno)]]; try congruence.
           inversion H; subst c'.
           destruct (find _ (files st)) as [f|] eqn:Ef; [|reflexivity].
           apply find_first_id in Ef as [H1 H2].
           exfalso. apply (Hno f H1 H2).
    + apply truthy_false in Et. subst c. split; [discriminate|].
      split; auto.
  - split; [discriminate|]. split; auto.
Qed.

(** X8.  Creating a document and selecting its identifier, as the new-file
    dialog and the import do, makes it the current file, provided the
    identifier is not empty and no stored document has it already. *)
Theorem created_file_becomes_current :
  forall (now : N) (newId name0 content0 : str) (st : Store),
    newId <> [] ->
    (forall f, In f (files st) -> FilesStore.id f <> newId) ->
    let created := createFile now newId name0 content0 st in
    getCurrentFile
      (setCurrentFileId (Some (FilesStore.id (fst created))) (snd created))
    = Some (fst created).
Proof.
  intros now newId name0 content0 st Hne Hfresh. cbv zeta.
  unfold getCurrentFile, setCurrentFileId.
  rewrite (proj2 (saveCurrentFileId_signals _ _)),
          (proj1 (saveCurrentFileId_signals _ _)).
  cbn [setCurrentFileIdInternal currentFileId files].
  rewrite (proj1 (createFile_signals now newId name0 content0 st)).
  unfold createFile. cbn [fst FilesStore.id].
  apply truthy_true in Hne. rewrite Hne.
  induction (files st) as [|f fs IH]; cbn [app find FilesStore.id].
  - rewrite eqb_refl. reflexivity.
  - destruct (eqb (FilesStore.id f) newId) eqn:E.
    + apply eqb_eq in E. exfalso.
      apply (Hfresh f); [left; reflexivity | exact E].
    + apply IH. intros g Hg. apply Hfresh. right; exact Hg.
Qed.

(** X9.  Deleting a document that was just created under an identifier
    no stored document had gives back the list of documents as it was,
    and leaves the selection alone unless it was that identifier. *)
Theorem delete_undoes_create :
  forall (now : N) (newId name0 content0 : str) (st : Store),
    (forall f, In f (files st) -> FilesStore.id f <> newId) ->
    let st' := deleteFile newId (snd (createFile now newId name0 content0 st)) in
    files st' = files st
    /\ (currentFileId st <> Some newId -> currentFileId st' = currentFileId st).
Proof.
  intros now newId name0 content0 st Hfresh. cbv zeta.
  rewrite deleteFile_files, deleteFile_current.
  destruct (createFile_signals now newId name0 content0 st) as [Hf Hc].
  rewrite Hf. unfold isCurrent. rewrite Hc. split.
  - rewrite filter_app. unfold createFile.
    cbn [fst filter FilesStore.id]. rewrite eqb_refl. cbn [negb].
    rewrite app_nil_r. clear Hf Hc.
    induction (files st) as [|f fs IH]; cbn [filter]; [reflexivity|].
    destruct (eqb (FilesStore.id f) newId) eqn:E.
    + apply eqb_eq in E. exfalso.
      apply (Hfresh f); [left; reflexivity | exact E].
    + cbn [negb]. f_equal. apply IH. intros g Hg. apply Hfresh.
      right; exact Hg.
  - intros Hn. destruct (currentFileId st) as [c|]; [|reflexivity].
    destruct (eqb c newId) eqn:E; [|reflexivity].
    apply eqb_eq in E. congruence.
Qed.

Lemma filter_twice (A : Type) (p : A -> bool) (l : list A) :
  filter p (filter p l) = filter p l.
Proof.
  induction l as [|a l IH]; cbn [filter]; [reflexivity|].
  destruct (p a) eqn:E; cbn [filter]; [rewrite E, IH|]; auto.
Qed.

Lemma deleteFile_state (i : str) (st : Store) :
  deleteFile i st =
  {| files := filter (fun f => negb (eqb (FilesStore.id f) i)) (files st);
     currentFileId := if isCurrent st i then None else currentFileId st;
     window :=
       match window st with
       | None => None
       | Some ls =>
           Some {| storedFiles :=
                     Some (filter (fun f => negb (eqb (FilesStore.id f) i))
                                  (files st));
                   storedCurrentFile :=
                     if isCurrent st i then None else storedCurrentFile ls |}
       end |}.
Proof.
  unfold deleteFile, setCurrentFileId, saveCurrentFileId, saveToStorage,
    setCurrentFileIdInternal, setFiles, isCurrent.
  cbn [window files currentFileId].
  destruct (window st) as [ls|]; cbn [window files currentFileId];
    destruct (currentFileId st) as [c|]; try reflexivity;
    destruct (eqb c i); reflexivity.
Qed.

(** X10.  Deleting the same identifier a second time changes nothing:
    neither the documents, nor the selection, nor the storage. *)
Theorem deleteFile_twice :
  forall (i : str) (st : Store),
    deleteFile i (deleteFile i st) = deleteFile i st.
Proof.
  intros i st. rewrite (deleteFile_state i (deleteFile i st)).
  rewrite (deleteFile_state i st).
  cbn [files currentFileId window]. rewrite filter_twice.
  assert (Hcur : isCurrent
                   {| files := filter (fun f => negb (eqb (FilesStore.id f) i))
                                      (files st);
                      currentFileId :=
                        if isCurrent st i then None else currentFileId st;
                      window :=
                        match window st with
                        | None => None
                        | Some ls =>
                            Some {| storedFiles :=
                                      Some (filter
                                              (fun f =>
                                                 negb (eqb (FilesStore.id f) i))
                                              (files st));
                                    storedCurrentFile :=
                                      if isCurrent st i then None
                                      else storedCurrentFile ls |}
                        end |} i = false).
  { unfold isCurrent. cbn [currentFileId].
    destruct (currentFileId st) as [c|]; [|reflexivity].
    destruct (eqb c i) eqn:E; [reflexivity | exact E]. }
  rewrite Hcur. destruct (window st); reflexivity.
Qed.

(** X11.  [saveCurrentDraft] does nothing at all when nothing is selected
    or the selection is the empty string.  Otherwise it keeps every
    document's identifier, name and creation time, puts the draft into
    the content of the documents the selection names, and leaves the
    other documents as they are. *)
Theorem saveCurrentDraft_frame :
  forall (clock : nat -> N) (draft : str) (st : Store),
    let st' := saveCurrentDraft clock draft st in
    (currentFileId st = None \/ currentFileId st = Some [] -> st' = st)
    /\ forall k f,
         nth_error (files st) k = Some f ->
         exists g,
           nth_error (files st') k = Some g
           /\ FilesStore.id g = FilesStore.id f
           /\ name g = name f
           /\ createdAt g = createdAt f
           /\ (currentFileId st = Some (FilesStore.id f) ->
               FilesStore.id f <> [] -> content g = draft)
           /\ (currentFileId st <> Some (FilesStore.id f) -> g = f).
Proof.
  intros clock draft st. cbv zeta. unfold saveCurrentDraft.
  destruct (currentFileId st) as [c|] eqn:Ec.
  - destruct (truthy c) eqn:Et.
    + split.
      * intros [H|H]; [discriminate|]. inversion H; subst c. discriminate.
      * intros k f Hk.
        rewrite (proj1 (updateFile_signals clock c
                          {| newName := None; newContent := Some draft |} st)).
        destruct (updateAll_nth clock c
                    {| newName := None; newContent := Some draft |}
                    (files st) 0 k Hk) as (g & Hg & Hne & He).
        exists g. split; [exact Hg|].
        destruct (eqb (FilesStore.id f) c) eqn:E.
        -- apply eqb_eq in E. destruct (He E) as [j ->].
           cbn [applyUpdates FilesStore.id name createdAt content newName
                newContent].
           repeat split; try reflexivity. intros Hn. congruence.
        -- apply eqb_neq in E. rewrite (Hne E).
           repeat split; try reflexivity. intros H. congruence.
    + apply truthy_false in Et. subst c. split; [reflexivity|].
      intros k f Hk. exists f. repeat split; try assumption.
      intros H Hn. congruence.
  - split; [reflexivity|].
    intros k f Hk. exists f. repeat split; try assumption.
    intros H. discriminate.
Qed.

End FilesReload.

(* ================================================================= *)
(** ** The wrappers of images *)

Section ImageWrappers.

Import InlineRules.

Variable defaultImageRenderer : list InlineToken -> nat -> str.
Variable defaultLinkOpenRenderer : list InlineToken -> nat -> str.
Variable defaultLinkCloseRenderer : list InlineToken -> nat -> str.

Lemma firstn_snoc (A : Type) (l : list A) (i : nat) (a : A) :
  nth_error l i = Some a -> firstn (S i) l = firstn i l ++ [a].
Proof.
  revert i; induction l as [|b l IH]; intros [|i] H; cbn [nth_error] in H;
    try discriminate.
  - inversion H; reflexivity.
  - change (b :: firstn (S i) l = b :: (firstn i l ++ [a])).
    f_equal. apply IH; exact H.
Qed.

Lemma typeIs_true (wanted : InlineType -> bool) (tokens : list InlineToken)
    (k : nat) :
  typeIs wanted tokens k = true <->
  exists t, nth_error tokens k = Some t /\ wanted (itype t) = true.
Proof.
  unfold typeIs. destruct (nth_error tokens k) as [t|].
  - split; [eauto | intros (t' & H & Hw); inversion H; subst; exact Hw].
  - split; [discriminate | intros (t' & H & _); discriminate].
Qed.


(** X13.  A link that holds exactly an image, the image one level below
    the link, is rendered as one wrapper with one button: the opening tag,
    the library's markup of the opening link, of the image and of the
    closing link, the button, the closing tag.  The image closure adds
    nothing of its own there. *)
Theorem linked_image_has_one_wrapper :
  forall (tokens : list InlineToken) (i : nat) (o im c : InlineToken),
    nth_error tokens i = Some o ->
    nth_error tokens (i + 1) = Some im ->
    nth_error tokens (i + 2) = Some c ->
    itype o = link_open -> itype im = image -> itype c = link_close ->
    (0 <= level o)%Z -> level im = (level o + 1)%Z ->
    imageRule defaultImageRenderer tokens (i + 1)
      = Some (defaultImageRenderer tokens (i + 1))
    /\ linkOpenRule defaultLinkOpenRenderer tokens i
       ++ defaultImageRenderer tokens (i + 1)
       ++ linkCloseRule defaultLinkCloseRenderer tokens (i + 2)
       = wrapperOpen ++ defaultLinkOpenRenderer tokens i
         ++ defaultImageRenderer tokens (i + 1)
         ++ defaultLinkCloseRenderer tokens (i + 2)
         ++ imageToggleButtonHtml ++ wrapperClose.
Proof.
  intros tokens i o im c Ho Him Hc To Tim Tc Hl Hlev. split.
  - unfold imageRule. rewrite Him. unfold isInsideLink.
    replace (level im - 1)%Z with (level o) by lia.
    replace (0 <=? level o)%Z with true by (symmetry; apply Z.leb_le; exact Hl).
    replace (i + 1) with (S i) by lia.
    rewrite (firstn_snoc _ _ Ho), rev_app_distr. cbn [rev app scanBack].
    rewrite Z.eqb_refl, To. reflexivity.
  - assert (H1 : isImageLinkAtOpen tokens i = true).
    { unfold isImageLinkAtOpen, typeIs. rewrite Him, Hc, Tim, Tc.
      reflexivity. }
    assert (H2 : isImageLinkAtClose tokens (i + 2) = true).
    { unfold isImageLinkAtClose, typeBeforeIs, typeIs.
      replace (1 <=? i + 2) with true by (symmetry; apply Nat.leb_le; lia).
      replace (2 <=? i + 2) with true by (symmetry; apply Nat.leb_le; lia).
      replace (i + 2 - 1) with (i + 1) by lia.
      replace (i + 2 - 2) with i by lia.
      rewrite Him, Ho, Tim, To. reflexivity. }
    unfold linkOpenRule, linkCloseRule. rewrite H1, H2. cbn [negb].
    rewrite <- !app_assoc. reflexivity.
Qed.

(** X14.  An image that is not below any token (level 0), or whose
    nearest token one level up is a closing link, gets its own wrapper and
    button. *)
Theorem free_image_is_wrapped :
  forall (tokens : list InlineToken) (idx : nat) (im : InlineToken),
    nth_error tokens idx = Some im ->
    (level im <= 0)%Z
    \/ (exists before k after,
           firstn idx tokens = before ++ [k] ++ after
           /\ level k = (level im - 1)%Z
           /\ itype k = link_close
           /\ Forall (fun t => level t <> (level im - 1)%Z) after) ->
    imageRule defaultImageRenderer tokens idx =
    Some (wrapperOpen ++ defaultImageRenderer tokens idx
          ++ imageToggleButtonHtml ++ wrapperClose).
Proof.
  intros tokens idx im Him H. unfold imageRule. rewrite Him.
  assert (E : isInsideLink tokens idx im = false).
  { unfold isInsideLink. destruct H as [H|(before & k & after & Hs & Hk & Tk & Ha)].
    - replace (0 <=? level im - 1)%Z with false
        by (symmetry; apply Z.leb_gt; lia).
      reflexivity.
    - destruct (0 <=? level im - 1)%Z; [|reflexivity].
      rewrite Hs, !rev_app_distr. cbn [rev app].
      assert (Hr : Forall (fun t => level t <> (level im - 1)%Z) (rev after))
        by (apply Forall_rev; exact Ha).
      induction Hr as [|t l Ht _ IH]; cbn [app scanBack].
      + rewrite Hk, Z.eqb_refl, Tk. reflexivity.
      + apply Z.eqb_neq in Ht. rewrite Ht. cbn [negb]. exact IH. }
  rewrite E. reflexivity.
Qed.

End ImageWrappers.

(* ================================================================= *)
(** ** The language a code block is highlighted with *)

Section TrimFacts.

Lemma trimStart_idem (s : str) : trimStart (trimStart s) = trimStart s.
Proof.
  induction s as [|c s IH]; cbn [trimStart]; [reflexivity|].
  destruct (isWhiteSpace c) eqn:E; [exact IH|].
  cbn [trimStart]. rewrite E. reflexivity.
Qed.

Lemma trimStart_keeps_last (l : str) (c : N) :
  isWhiteSpace c = false -> exists u, trimStart (l ++ [c]) = u ++ [c].
Proof.
  intros Hc. induction l as [|d l IH]; cbn [app trimStart].
  - rewrite Hc. exists []. reflexivity.
  - destruct (isWhiteSpace d); [exact IH|]. exists (d :: l). reflexivity.
Qed.

(** Trimming what is already trimmed changes nothing. *)
Lemma trim_idem (s : str) : trim (trim s) = trim s.
Proof.
  unfold trim, trimEnd.
  pose proof (trimStart_head s) as Hh.
  destruct (trimStart s) as [|c t] eqn:Et; [reflexivity|].
  destruct (@trimStart_keeps_last (rev t) c Hh) as [u Hu].
  cbn [rev]. rewrite Hu.
  assert (H1 : rev (u ++ [c]) = c :: rev u)
    by (rewrite rev_app_distr; reflexivity).
  rewrite H1. cbn [trimStart]. rewrite Hh.
  assert (H2 : rev (c :: rev u) = u ++ [c])
    by (cbn [rev]; rewrite rev_involutive; reflexivity).
  rewrite H2, <- Hu, trimStart_idem, Hu. exact H1.
Qed.

End TrimFacts.

Section Languages.

Import CodeBlockView.

Variable toLowerCase : str -> str.

Lemma has_In (set : list str) (k : str) : has set k = true <-> In k set.
Proof.
  unfold has. rewrite existsb_exists. split.
  - intros (x & Hin & E). apply eqb_eq in E. subst x. exact Hin.
  - intros H. exists k. split; [exact H | apply eqb_refl].
Qed.

Lemma ownGet_In (own : list (str * str)) (k v : str) :
  ownGet own k = Some v -> In (k, v) own.
Proof.
  induction own as [|[k' v'] own IH]; cbn [ownGet]; [discriminate|].
  destruct (eqb k' k) eqn:E.
  - apply eqb_eq in E. intros H; inversion H; subst. left; reflexivity.
  - intros H. right. apply IH; exact H.
Qed.

(** Every alias stands for a supported language that is not an alias
    itself and is not a name of [Object.prototype]; every supported
    language is a string that is not empty and no such name either. *)
Lemma tables_consistent :
  forallb (fun kv => has SUPPORTED_LANGUAGES (snd kv)
                     && match ownGet aliases (snd kv) with
                        | None => true | Some _ => false end
                     && truthy (snd kv))
          aliases = true
  /\ forallb (fun l => truthy l && negb (has objectPrototypeKeys l))
             SUPPORTED_LANGUAGES = true
  /\ forallb (fun k => match ownGet aliases k with
                       | None => true | Some _ => false end)
             objectPrototypeKeys = true.
Proof. repeat split; vm_compute; reflexivity. Qed.

Lemma plaintext_canonical : canonical (lit "plaintext").
Proof.
  split; [apply has_In; vm_compute; reflexivity | vm_compute; reflexivity].
Qed.

Lemma alias_canonical (k v : str) : ownGet aliases k = Some v -> canonical v.
Proof.
  intros H. apply ownGet_In in H.
  destruct tables_consistent as [Ht _].
  rewrite forallb_forall in Ht. specialize (Ht _ H). cbn [snd] in Ht.
  apply andb_true_iff in Ht as [Ht _]. apply andb_true_iff in Ht as [H1 H2].
  split; [apply has_In; exact H1|].
  destruct (ownGet aliases v); [discriminate | reflexivity].
Qed.

Lemma alias_truthy (k v : str) : ownGet aliases k = Some v -> truthy v = true.
Proof.
  intros H. apply ownGet_In in H.
  destruct tables_consistent as [Ht _].
  rewrite forallb_forall in Ht. specialize (Ht _ H). cbn [snd] in Ht.
  apply andb_true_iff in Ht as [_ Ht]. exact Ht.
Qed.

Lemma normalizeLanguage_string (lang : option str) (r : str) :
  normalizeLanguage toLowerCase lang = VString r -> canonical r.
Proof.
  unfold normalizeLanguage. destruct lang as [l|].
  - destruct (truthy l); cbn [negb].
    + unfold objectGet.
      destruct (ownGet aliases (toLowerCase l)) as [v|] eqn:Ea.
      * cbn [truthyValue]. rewrite (alias_truthy _ Ea).
        intros H; inversion H; subst. apply (alias_canonical _ Ea).
      * destruct (has objectPrototypeKeys (toLowerCase l)).
        -- cbn [truthyValue]. discriminate.
        -- destruct (has SUPPORTED_LANGUAGES (toLowerCase l)) eqn:Es.
           ++ intros H; inversion H; subst. split; [apply has_In; exact Es|].
              exact Ea.
           ++ intros H; inversion H; subst. apply plaintext_canonical.
    + intros H; inversion H; subst. apply plaintext_canonical.
  - intros H; inversion H; subst. apply plaintext_canonical.
Qed.

(** X15.  Unless the lower-cased tag is one of the names of
    [Object.prototype], [normalizeLanguage] returns a string, and this
    string is one of the supported languages and is not an alias: for a
    tag that lower-cases to an alias, the language of the alias; for one
    that lower-cases to a supported name, that name; for one that
    lower-cases to neither (an unknown tag), plaintext; and plaintext for
    a missing or empty tag. *)
Theorem normalizeLanguage_supported :
  forall (lang : option str),
    (forall l, lang = Some l -> has objectPrototypeKeys (toLowerCase l) = false) ->
    exists r,
      normalizeLanguage toLowerCase lang = VString r
      /\ In r SUPPORTED_LANGUAGES
      /\ ownGet aliases r = None
      /\ (forall l v, lang = Some l -> l <> [] ->
                      ownGet aliases (toLowerCase l) = Some v -> r = v)
      /\ (forall l, lang = Some l -> l <> [] ->
                    ownGet aliases (toLowerCase l) = None ->
                    In (toLowerCase l) SUPPORTED_LANGUAGES -> r = toLowerCase l)
      /\ (forall l, lang = Some l ->
                    ownGet aliases (toLowerCase l) = None ->
                    ~ In (toLowerCase l) SUPPORTED_LANGUAGES ->
                    r = lit "plaintext")
      /\ (lang = None \/ lang = Some [] -> r = lit "plaintext").
Proof.
  intros lang Hproto.
  assert (Hs : exists r, normalizeLanguage toLowerCase lang = VString r).
  { unfold normalizeLanguage. destruct lang as [l|]; [|eauto].
    destruct (truthy l); cbn [negb]; [|eauto].
    unfold objectGet. rewrite (Hproto l eq_refl).
    destruct (ownGet aliases (toLowerCase l)) as [v|] eqn:Ea.
    - cbn [truthyValue]. rewrite (alias_truthy _ Ea). eauto.
    - destruct (has SUPPORTED_LANGUAGES (toLowerCase l)); eauto. }
  destruct Hs as [r Hr]. exists r. split; [exact Hr|].
  destruct (normalizeLanguage_string _ Hr) as [H1 H2].
  split; [exact H1|]. split; [exact H2|].
  unfold normalizeLanguage in Hr. split; [|split; [|split]].
  - intros l v -> Hne Ha. apply truthy_true in Hne. rewrite Hne in Hr.
    cbn [negb] in Hr. unfold objectGet in Hr. rewrite Ha in Hr.
    cbn [truthyValue] in Hr. rewrite (alias_truthy _ Ha) in Hr.
    inversion Hr; reflexivity.
  - intros l -> Hne Ha Hin. apply truthy_true in Hne. rewrite Hne in Hr.
    cbn [negb] in Hr. unfold objectGet in Hr.
    rewrite Ha, (Hproto l eq_refl) in Hr.
    apply has_In in Hin. rewrite Hin in Hr. inversion Hr; reflexivity.
  - intros l -> Ha Hnot. destruct (truthy l); cbn [negb] in Hr;
      [|inversion Hr; reflexivity].
    unfold objectGet in Hr. rewrite Ha, (Hproto l eq_refl) in Hr.
    destruct (has SUPPORTED_LANGUAGES (toLowerCase l)) eqn:Es.
    + exfalso. apply Hnot, has_In, Es.
    + inversion Hr; reflexivity.
  - intros [->| ->]; cbn in Hr; inversion Hr; reflexivity.
Qed.

(** X16.  Normalizing is stable: whenever [normalizeLanguage] returns a
    string, normalizing that string returns it again, as long as
    [toLowerCase] leaves the names of the supported languages (all in
    small ASCII letters) as they are. *)
Theorem normalizeLanguage_stable :
  forall (lang : option str) (r : str),
    (forall s, In s SUPPORTED_LANGUAGES -> toLowerCase s = s) ->
    normalizeLanguage toLowerCase lang = VString r ->
    normalizeLanguage toLowerCase (Some r) = VString r.
Proof.
  intros lang r Hlow Hr.
  destruct (normalizeLanguage_string _ Hr) as [Hin Hno].
  destruct tables_consistent as (_ & Hsup & _).
  rewrite forallb_forall in Hsup. specialize (Hsup _ Hin).
  apply andb_true_iff in Hsup as [Ht Hp]. apply negb_true_iff in Hp.
  unfold normalizeLanguage. rewrite Ht. cbn [negb].
  rewrite (Hlow _ Hin). unfold objectGet. rewrite Hno, Hp.
  apply has_In in Hin. rewrite Hin. reflexivity.
Qed.

(** X17.  A tag that lower-cases to a name of [Object.prototype] (a
    fence tagged constructor, say) is not normalized to a language: the
    alias lookup finds the inherited property, which is truthy, and
    [normalizeLanguage] returns it instead of a string. *)
Theorem normalizeLanguage_inherited :
  forall (l : str),
    l <> [] ->
    In (toLowerCase l) objectPrototypeKeys ->
    normalizeLanguage toLowerCase (Some l) = VInherited (toLowerCase l).
Proof.
  intros l Hne Hin. unfold normalizeLanguage.
  apply truthy_true in Hne. rewrite Hne. cbn [negb]. unfold objectGet.
  destruct tables_consistent as (_ & _ & Hp).
  rewrite forallb_forall in Hp. specialize (Hp _ Hin).
  destruct (ownGet aliases (toLowerCase l)); [discriminate|].
  apply has_In in Hin. rewrite Hin. reflexivity.
Qed.

End Languages.

(* ================================================================= *)
(** ** Code segments are genuine *)

Section GenuineSegments.

Variable parse : str -> list Token.
Variable libPiece : RendererRules -> list Token -> nat -> str.
Variable libRules : RendererRules.

Lemma describeFrom_In (n : nat) (ts : list Token) (cb : CodeBlockData) :
  In cb (describeFrom n ts) -> exists k t, In t ts /\ cb = describe k t.
Proof.
  revert n; induction ts as [|t ts IH]; intros n; cbn [describeFrom In];
    [contradiction|].
  intros [<-|H].
  - exists n, t. auto.
  - destruct (IH _ H) as (k & t' & Ht & E). exists k, t'. auto.
Qed.

Lemma languageOf_not_empty (t : Token) : languageOf t <> [].
Proof.
  unfold languageOf. destruct (type t); try discriminate.
  destruct (info t) eqn:E; [discriminate | rewrite <- E; congruence].
Qed.

(** X18.  Whatever markup the library produces (no assumption on it),
    every code segment of a preview carries the descriptor of a fenced or
    indented code block of the document: its code is that block's content
    without a final line feed, its language is the block's tag, and that
    language is never the empty string, so the code block component never
    falls back for want of a language. *)
Theorem code_segments_are_genuine :
  forall (rules : RendererRules) (source : str) (segs : list Segment)
         (cb : CodeBlockData),
    segments parse libPiece libRules rules source = Some segs ->
    In (SegCode cb) segs ->
    language cb <> []
    /\ In cb (codeBlocks (fst (processedContent parse libPiece libRules
                                 rules source)))
    /\ exists t,
         In t (parse source) /\ isCode t = true
         /\ code cb = replaceFinalLf (content t)
         /\ language cb = languageOf t.
Proof.
  intros rules source segs cb Hsegs Hin. unfold segments in Hsegs.
  rewrite segmentsOf_scanRest in Hsegs.
  destruct (scanRest_output _ _ _ Hsegs) as [Hc _].
  destruct (Hc _ Hin) as [g Hg].
  apply mapGet_newMap_In in Hg. apply in_map_iff in Hg as (cb' & E & Hcb).
  inversion E; subst cb'; clear E.
  revert Hcb. by_blankness source Hnb; cbn [fst codeBlocks];
    [|contradiction].
  intros Hcb. destruct (describeFrom_In _ _ _ Hcb) as (k & t & Ht & ->).
  apply filter_In in Ht as [Ht1 Ht2].
  cbn [describe language code]. split; [apply languageOf_not_empty|].
  split; [exact Hcb|]. exists t. auto.
Qed.

End GenuineSegments.

(* ================================================================= *)
(** ** Names of new documents *)

Section Names.

Import FilesStore Naming.

Lemma stripExtension_step (c : N) (s : str) :
  forallb extensionChar s = false \/ s = [] \/ c <> 46%N ->
  stripExtension (c :: s) = c :: stripExtension s.
Proof.
  intros H. cbn [stripExtension].
  fold extensionChar.
  destruct H as [H|[H|H]].
  - change (forallb (fun d => negb (N.eqb d 47 || N.eqb d 46)) s)
      with (forallb extensionChar s).
    rewrite H, andb_false_r. reflexivity.
  - subst s. cbn [truthy]. rewrite andb_false_r. reflexivity.
  - apply N.eqb_neq in H. rewrite H. reflexivity.
Qed.

Lemma forallb_extension_dot (a b : str) :
  forallb extensionChar (a ++ 46%N :: b) = false.
Proof.
  rewrite forallb_app. cbn [forallb]. unfold extensionChar at 2.
  rewrite N.eqb_refl, orb_true_r. cbn [negb andb].
  apply andb_false_r.
Qed.

(** X19.  A final extension goes: when the name ends in a full stop
    followed by one or more code units that are neither a full stop nor a
    slash, [stripExtension] returns what is in front of that full stop,
    earlier full stops included. *)
Theorem stripExtension_strips :
  forall (base ext : str),
    ext <> [] ->
    forallb extensionChar ext = true ->
    stripExtension (base ++ 46%N :: ext) = base.
Proof.
  intros base ext Hne Hext. induction base as [|c base IH].
  - cbn [app stripExtension]. fold extensionChar.
    change (forallb (fun d => negb (N.eqb d 47 || N.eqb d 46)) ext)
      with (forallb extensionChar ext).
    apply truthy_true in Hne. rewrite Hne, Hext. reflexivity.
  - cbn [app]. rewrite stripExtension_step, IH; [reflexivity|].
    left. apply forallb_extension_dot.
Qed.

(** X20.  A name with no such extension is kept whole: a name without a
    full stop, a name that ends in a full stop, and a name with a slash
    after its last full stop. *)
Theorem stripExtension_keeps :
  forall (s : str),
    forallb (fun c => negb (N.eqb c 46)) s = true
    \/ (exists a, s = a ++ [46%N])
    \/ (exists a b, s = a ++ 46%N :: b
                    /\ forallb (fun c => negb (N.eqb c 46)) b = true
                    /\ In 47%N b) ->
    stripExtension s = s.
Proof.
  intros s [H|[(a & ->)|(a & b & -> & Hb & Hs)]].
  - induction s as [|c s IH]; [reflexivity|].
    cbn [forallb] in H. apply andb_true_iff in H as [Hc Hs].
    rewrite stripExtension_step, (IH Hs); [reflexivity|].
    right; right. apply negb_true_iff, N.eqb_neq in Hc. exact Hc.
  - induction a as [|c a IH]; [reflexivity|].
    cbn [app]. rewrite stripExtension_step, IH; [reflexivity|].
    left. apply (forallb_extension_dot a []).
  - assert (Hbad : forallb extensionChar b = false).
    { apply not_true_is_false. intros Hall.
      rewrite forallb_forall in Hall. specialize (Hall _ Hs).
      discriminate. }
    assert (Hkeep : stripExtension b = b).
    { clear Hbad Hs. induction b as [|c b IH]; [reflexivity|].
      cbn [forallb] in Hb. apply andb_true_iff in Hb as [Hc Hb].
      rewrite stripExtension_step, (IH Hb); [reflexivity|].
      right; right. apply negb_true_iff, N.eqb_neq in Hc. exact Hc. }
    induction a as [|c a IH].
    + cbn [app]. rewrite stripExtension_step, Hkeep; [reflexivity|].
      left; exact Hbad.
    + cbn [app]. rewrite stripExtension_step, IH; [reflexivity|].
      left. apply forallb_extension_dot.
Qed.

(** X21.  The name of an imported document is never empty and has no
    white space at either end, and [createFile] keeps it as it is: an
    import never ends up under the fallback name of [createFile]. *)
Theorem imported_name_is_kept :
  forall (fileName : str) (now : N) (newId content0 : str) (st : Store),
    let name0 := normalizeImportedName fileName in
    name0 <> []
    /\ trim name0 = name0
    /\ name (fst (createFile now newId name0 content0 st)) = name0
    /\ (trim (stripExtension fileName) = [] -> name0 = lit "Imported file").
Proof.
  intros fileName now newId content0 st. cbv zeta.
  assert (Hne : normalizeImportedName fileName <> []).
  { unfold normalizeImportedName.
    destruct (truthy (trim (stripExtension fileName))) eqn:E;
      [apply truthy_true; exact E | discriminate]. }
  split; [exact Hne|]. split; [|split].
  - unfold normalizeImportedName.
    destruct (truthy (trim (stripExtension fileName)));
      [apply trim_idem | vm_compute; reflexivity].
  - unfold createFile. cbn [fst name]. apply truthy_true in Hne.
    rewrite Hne. reflexivity.
  - intros H. unfold normalizeImportedName. rewrite H. reflexivity.
Qed.

(** X22.  The new-file dialog creates nothing from a blank text and
    leaves store and page as they are.  From any other text it appends one
    document named by the trimmed text, with empty content and equal
    creation and last-modified times, selects its identifier, empties the
    editor, shows the trimmed text as the current name, switches to edit
    mode and closes the dialog. *)
Theorem new_file_dialog :
  forall (now : N) (newId value : str) (st : Store) (pg : Page),
    (truthy (trim value) = false ->
     submitNewFile now newId value st pg = (st, pg))
    /\ (truthy (trim value) = true ->
        let st' := fst (submitNewFile now newId value st pg) in
        let pg' := snd (submitNewFile now newId value st pg) in
        let file := {| FilesStore.id := newId; name := trim value;
                       content := []; createdAt := now;
                       updatedAt := now |} in
        files st' = files st ++ [file]
        /\ currentFileId st' = Some newId
        /\ pg' = {| markdown := []; lastSavedValue := [];
                    currentFileName := trim value; editMode := true;
                    newFileDialogOpen := false |}).
Proof.
  intros now newId value st pg. unfold submitNewFile, handleSubmit. split.
  - intros H. rewrite H. reflexivity.
  - intros H. rewrite H. cbv zeta. unfold handleCreateFileSubmit.
    unfold createFile. rewrite H.
    cbn [fst snd FilesStore.id name].
    unfold setCurrentFileId.
    rewrite (proj1 (saveCurrentFileId_signals _ _)),
            (proj2 (saveCurrentFileId_signals _ _)).
    cbn [setCurrentFileIdInternal files currentFileId].
    rewrite (proj1 (saveToStorage_signals _ _)).
    cbn [setFiles files]. repeat split.
Qed.

End Names.

(* ================================================================= *)
(** ** The list of the command palette *)

Section PaletteList.

Import FilesStore ThemeStore Palette.

Variable toLowerCase : str -> str.

Lemma insertRecent_perm (f : SavedFile) (l : list SavedFile) :
  Permutation (insertRecent f l) (f :: l).
Proof.
  induction l as [|g l IH]; cbn [insertRecent]; [apply Permutation_refl|].
  destruct (updatedAt f <? updatedAt g)%N; [|apply Permutation_refl].
  eapply Permutation_trans; [apply perm_skip, IH | apply perm_swap].
Qed.

Lemma sortByRecent_perm (l : list SavedFile) :
  Permutation (sortByRecent l) l.
Proof.
  induction l as [|f l IH]; cbn [sortByRecent fold_right];
    [apply Permutation_refl|].
  eapply Permutation_trans; [apply insertRecent_perm|].
  apply perm_skip, IH.
Qed.

Lemma insertRecent_sorted (f : SavedFile) (l : list SavedFile) :
  StronglySorted (fun a b => (updatedAt b <= updatedAt a)%N) l ->
  StronglySorted (fun a b => (updatedAt b <= updatedAt a)%N)
                 (insertRecent f l).
Proof.
  induction l as [|g l IH]; intros Hs; cbn [insertRecent].
  - repeat constructor.
  - apply StronglySorted_inv in Hs as [Hs Hg]. specialize (IH Hs).
    destruct (N.ltb_spec (updatedAt f) (updatedAt g)) as [Hlt|Hge].
    + constructor; [exact IH|].
      apply Forall_forall. intros x Hx.
      apply (Permutation_in _ (insertRecent_perm f l)) in Hx.
      destruct Hx as [<-|Hx]; [lia|].
      rewrite Forall_forall in Hg. apply Hg; exact Hx.
    + constructor; [constructor; assumption|].
      constructor; [exact Hge|].
      apply Forall_forall. intros x Hx.
      rewrite Forall_forall in Hg. specialize (Hg _ Hx). lia.
Qed.

Lemma sortByRecent_sorted (l : list SavedFile) :
  StronglySorted (fun a b => (updatedAt b <= updatedAt a)%N) (sortByRecent l).
Proof.
  induction l as [|f l IH]; cbn [sortByRecent fold_right]; [constructor|].
  apply insertRecent_sorted; exact IH.
Qed.

Lemma insertRecent_stable (t : N) (f : SavedFile) (l : list SavedFile) :
  filter (fun g => N.eqb (updatedAt g) t) (insertRecent f l) =
  filter (fun g => N.eqb (updatedAt g) t) (f :: l).
Proof.
  induction l as [|g l IH]; cbn [insertRecent]; [reflexivity|].
  destruct (N.ltb_spec (updatedAt f) (updatedAt g)) as [Hlt|Hge];
    [|reflexivity].
  cbn [filter] in *.
  destruct (N.eqb_spec (updatedAt g) t) as [Eg|Eg];
    destruct (N.eqb_spec (updatedAt f) t) as [Ef|Ef];
    rewrite IH; try reflexivity.
  lia.
Qed.

Lemma sortByRecent_stable (t : N) (l : list SavedFile) :
  filter (fun g => N.eqb (updatedAt g) t) (sortByRecent l) =
  filter (fun g => N.eqb (updatedAt g) t) l.
Proof.
  induction l as [|f l IH]; cbn [sortByRecent fold_right]; [reflexivity|].
  rewrite insertRecent_stable. cbn [filter]. fold (sortByRecent l).
  rewrite IH. reflexivity.
Qed.

Lemma fileItems_app (a b : list CommandItem) :
  fileItems (a ++ b) = fileItems a ++ fileItems b.
Proof.
  induction a as [|x a IH]; cbn [app]; [reflexivity|].
  destruct x; cbn [fileItems app]; rewrite ?IH; reflexivity.
Qed.

Lemma fileItems_files (l : list SavedFile) : fileItems (map ItemFile l) = l.
Proof. induction l as [|f l IH]; cbn; [|rewrite IH]; reflexivity. Qed.

Lemma fileItems_none (A : Type) (mk : A -> CommandItem) (l : list A) :
  (forall a, match mk a with ItemFile _ => False | _ => True end) ->
  fileItems (map mk l) = [].
Proof.
  intros H. induction l as [|a l IH]; cbn [map fileItems]; [reflexivity|].
  specialize (H a). destruct (mk a); [contradiction | | |]; exact IH.
Qed.

Lemma fileItems_commands (search : str) (fileList : list SavedFile) :
  fileItems (commands toLowerCase search fileList) =
  sortByRecent (matchingFiles toLowerCase (trim (toLowerCase search)) fileList).
Proof.
  unfold commands. cbv zeta. rewrite !fileItems_app, fileItems_files.
  rewrite (fileItems_none ItemAesthetic), (fileItems_none ItemColorMode)
    by (intros; exact I).
  rewrite !app_nil_r.
  destruct (negb _ || _ || _); reflexivity.
Qed.

(** X23.  The documents the palette lists are the documents whose
    lower-cased name contains the query (all of them when the query is
    blank), each as often as the store holds it, the most recently
    modified first, and documents modified at the same time in the order
    of the store. *)
Theorem palette_lists_recent_first :
  forall (search : str) (fileList : list SavedFile),
    let query := trim (toLowerCase search) in
    let listed := fileItems (commands toLowerCase search fileList) in
    Permutation listed (matchingFiles toLowerCase query fileList)
    /\ StronglySorted (fun a b => (updatedAt b <= updatedAt a)%N) listed
    /\ (forall t, filter (fun g => N.eqb (updatedAt g) t) listed =
                  filter (fun g => N.eqb (updatedAt g) t)
                         (matchingFiles toLowerCase query fileList))
    /\ (query = [] -> Permutation listed fileList)
    /\ (query <> [] ->
        forall f, In f listed <->
                  In f fileList
                  /\ includes (toLowerCase (name f)) query = true).
Proof.
  intros search fileList. cbv zeta. rewrite fileItems_commands.
  split; [apply sortByRecent_perm|]. split; [apply sortByRecent_sorted|].
  split; [intros t; apply sortByRecent_stable|]. split.
  - intros H. rewrite H. cbn [matchingFiles truthy].
    apply sortByRecent_perm.
  - intros H f. apply truthy_true in H.
    unfold matchingFiles. rewrite H. split.
    + intros Hin.
      apply (Permutation_in _ (sortByRecent_perm _)) in Hin.
      apply filter_In in Hin. exact Hin.
    + intros Hin.
      apply (Permutation_in _ (Permutation_sym (sortByRecent_perm _))).
      apply filter_In. exact Hin.
Qed.

(** X24.  While the list is not empty, the arrow keys keep a valid index
    valid (the down arrow stops at the last item, the up arrow at the
    first) and Enter activates the item at the index.  When the list has
    become shorter, the repairing effect brings an index that is too large
    back to the last item, and leaves a valid index alone.  On the empty
    list the down arrow leaves the index at -1 and Enter does nothing. *)
Theorem selection_stays_in_list :
  forall (items : list CommandItem) (i : Z),
    let len := Z.of_nat (length items) in
    (0 <= i < len ->
     (forall key, 0 <= fst (handleKeyDown key items i) < len)
     /\ fst (handleKeyDown ArrowDown items i) = (if i + 1 <? len then i + 1 else i)
     /\ fst (handleKeyDown ArrowUp items i) = (if 0 <? i then i - 1 else i)
     /\ snd (handleKeyDown Enter items i) =
        match nth_error items (Z.to_nat i) with
        | Some item => Select item
        | None => Nothing
        end
     /\ nth_error items (Z.to_nat i) <> None
     /\ ensureValid items i = i)%Z
    /\ (0 < len -> len <= i -> ensureValid items i = len - 1)%Z
    /\ (len = 0 -> 0 <= i ->
        ensureValid items i = 0
        /\ handleKeyDown ArrowDown items i = (-1, Nothing)
        /\ snd (handleKeyDown Enter items (-1)) = Nothing)%Z.
Proof.
  intros items i. cbv zeta. split; [|split].
  - intros Hi.
    assert (Hnth : nth_error items (Z.to_nat i) <> None)
      by (apply nth_error_Some; lia).
    split; [|split; [|split; [|split; [|split]]]].
    + intros [| | | |]; cbn [handleKeyDown fst]; lia.
    + cbn [handleKeyDown fst].
      destruct (Z.ltb_spec (i + 1) (Z.of_nat (length items))); lia.
    + cbn [handleKeyDown fst]. destruct (Z.ltb_spec 0 i); lia.
    + cbn [handleKeyDown snd]. unfold at_. cbv zeta.
      destruct (Z.ltb_spec i 0) as [Hneg|_]; [lia|].
      destruct (Z.ltb_spec i 0) as [Hneg|_]; [lia|].
      destruct (Z.leb_spec (Z.of_nat (length items)) i) as [Hbig|_]; [lia|].
      reflexivity.
    + exact Hnth.
    + unfold ensureValid.
      replace (Z.of_nat (length items) - 1 <? i)%Z with false
        by (symmetry; apply Z.ltb_ge; lia).
      reflexivity.
  - intros Hlen Hi. unfold ensureValid.
    replace (Z.of_nat (length items) - 1 <? i)%Z with true
      by (symmetry; apply Z.ltb_lt; lia).
    lia.
  - intros Hlen Hi. unfold ensureValid, handleKeyDown, at_.
    rewrite Hlen. cbn [fst snd].
    replace (0 - 1 <? i)%Z with true by (symmetry; apply Z.ltb_lt; lia).
    repeat split.
    f_equal. lia.
Qed.

End PaletteList.

Section RelativeDates.

Import Palette.

Variable toLocaleDateString : Z -> str.

(** X25.  [formatDate] at a time [now] that is a time value.  For a
    time stamp out of the range of a [Date] it says Invalid Date.  For a
    time stamp in the range it goes by the age [now - timestamp] in
    milliseconds: below one minute (a time stamp in the future included)
    it says Just now; from one minute up to one hour, the whole minutes,
    1 to 59; from one hour up to one day, the whole hours, 1 to 23; from
    one day up to seven days, the whole days, 1 to 6; from seven days on,
    the date in the locale. *)
Theorem formatDate_buckets :
  forall (now timestamp : Z),
    (Z.abs now <= maxTime)%Z ->
    let age := (now - timestamp)%Z in
    let shown := formatDate toLocaleDateString now timestamp in
    ((maxTime < Z.abs timestamp)%Z -> shown = lit "Invalid Date")
    /\ ((Z.abs timestamp <= maxTime)%Z ->
        ((age < 60000)%Z -> shown = lit "Just now")
        /\ ((60000 <= age < 3600000)%Z ->
            exists n, (1 <= n <= 59)%Z /\ (n = age / 60000)%Z
                      /\ shown = numToString (Z.to_nat n) ++ lit "m ago")
        /\ ((3600000 <= age < 86400000)%Z ->
            exists n, (1 <= n <= 23)%Z /\ (n = age / 3600000)%Z
                      /\ shown = numToString (Z.to_nat n) ++ lit "h ago")
        /\ ((86400000 <= age < 604800000)%Z ->
            exists n, (1 <= n <= 6)%Z /\ (n = age / 86400000)%Z
                      /\ shown = numToString (Z.to_nat n) ++ lit "d ago")
        /\ ((604800000 <= age)%Z -> shown = toLocaleDateString timestamp)).
Proof.
  intros now timestamp Hnow. cbv zeta. unfold formatDate, newDate.
  split.
  { intros Hout.
    replace (Z.abs timestamp <=? maxTime)%Z with false
      by (symmetry; apply Z.leb_gt; exact Hout).
    reflexivity. }
  intros Hin.
  replace (Z.abs timestamp <=? maxTime)%Z with true
    by (symmetry; apply Z.leb_le; exact Hin).
  cbv zeta.
  set (age := (now - timestamp)%Z).
  assert (Hm : forall k, (k * 60000 <= age <-> k <= age / 60000)%Z)
    by (intros k; split; intros H;
        [apply Z.div_le_lower_bound; lia
        | pose proof (Z.mul_div_le age 60000); nia]).
  assert (Hh : forall k, (k * 3600000 <= age <-> k <= age / 3600000)%Z)
    by (intros k; split; intros H;
        [apply Z.div_le_lower_bound; lia
        | pose proof (Z.mul_div_le age 3600000); nia]).
  assert (Hd : forall k, (k * 86400000 <= age <-> k <= age / 86400000)%Z)
    by (intros k; split; intros H;
        [apply Z.div_le_lower_bound; lia
        | pose proof (Z.mul_div_le age 86400000); nia]).
  pose proof (Hm 1%Z) as Hm1. pose proof (Hm 60%Z) as Hm60.
  pose proof (Hh 1%Z) as Hh1. pose proof (Hh 24%Z) as Hh24.
  pose proof (Hd 1%Z) as Hd1. pose proof (Hd 7%Z) as Hd7.
  split; [|split; [|split; [|split]]].
  - intros H.
    replace (age / 60000 <? 1)%Z with true
      by (symmetry; apply Z.ltb_lt; lia).
    reflexivity.
  - intros H.
    replace (age / 60000 <? 1)%Z with false
      by (symmetry; apply Z.ltb_ge; lia).
    replace (age / 60000 <? 60)%Z with true
      by (symmetry; apply Z.ltb_lt; lia).
    exists (age / 60000)%Z. repeat split; lia.
  - intros H.
    replace (age / 60000 <? 1)%Z with false
      by (symmetry; apply Z.ltb_ge; lia).
    replace (age / 60000 <? 60)%Z with false
      by (symmetry; apply Z.ltb_ge; lia).
    replace (age / 3600000 <? 24)%Z with true
      by (symmetry; apply Z.ltb_lt; lia).
    exists (age / 3600000)%Z. repeat split; lia.
  - intros H.
    replace (age / 60000 <? 1)%Z with false
      by (symmetry; apply Z.ltb_ge; lia).
    replace (age / 60000 <? 60)%Z with false
      by (symmetry; apply Z.ltb_ge; lia).
    replace (age / 3600000 <? 24)%Z with false
      by (symmetry; apply Z.ltb_ge; lia).
    replace (age / 86400000 <? 7)%Z with true
      by (symmetry; apply Z.ltb_lt; lia).
    exists (age / 86400000)%Z. repeat split; lia.
  - intros H.
    replace (age / 60000 <? 1)%Z with false
      by (symmetry; apply Z.ltb_ge; lia).
    replace (age / 60000 <? 60)%Z with false
      by (symmetry; apply Z.ltb_ge; lia).
    replace (age / 3600000 <? 24)%Z with false
      by (symmetry; apply Z.ltb_ge; lia).
    replace (age / 86400000 <? 7)%Z with false
      by (symmetry; apply Z.ltb_ge; lia).
    reflexivity.
Qed.

End RelativeDates.

(* ================================================================= *)
(** ** The theme store *)

Section Themes.

Import ThemeStore.

Lemma classAdd_In (cl : list str) (t c : str) :
  In c (classAdd cl t) <-> In c cl \/ c = t.
Proof.
  unfold classAdd. destruct (existsb (eqb t) cl) eqn:E.
  - split; [auto|]. intros [H| ->]; [exact H|].
    apply existsb_exists in E as (x & Hx & Ex). apply eqb_eq in Ex.
    subst x. exact Hx.
  - rewrite in_app_iff. cbn [In]. split; intros [H|H]; auto.
    + destruct H as [H|[]]; auto.
Qed.

Lemma classRemove_In (cl tokens : list str) (c : str) :
  In c (classRemove cl tokens) <-> In c cl /\ ~ In c tokens.
Proof.
  unfold classRemove. rewrite filter_In, negb_true_iff.
  split; intros [H1 H2]; split; try exact H1.
  - intros Hin. assert (existsb (eqb c) tokens = true)
      by (apply existsb_exists; exists c; split; [exact Hin|apply eqb_refl]).
    congruence.
  - apply not_true_is_false. intros E.
    apply existsb_exists in E as (x & Hx & Ex). apply eqb_eq in Ex.
    subst x. contradiction.
Qed.

Lemma classAdd_NoDup (cl : list str) (t : str) :
  NoDup cl -> NoDup (classAdd cl t).
Proof.
  intros H. unfold classAdd. destruct (existsb (eqb t) cl) eqn:E;
    [exact H|].
  apply NoDup_app; [exact H | repeat constructor; intros [] |].
  intros x Hx [Ex|[]]. subst x.
  assert (existsb (eqb t) cl = true)
    by (apply existsb_exists; exists t; split; [exact Hx|apply eqb_refl]).
  congruence.
Qed.

Lemma classRemove_NoDup (cl tokens : list str) :
  NoDup cl -> NoDup (classRemove cl tokens).
Proof. intros H. unfold classRemove. apply NoDup_filter; exact H. Qed.

Lemma colorModeOf_name (m : ColorMode) :
  colorModeOf (colorModeName m) = Some m /\ truthy (colorModeName m) = true.
Proof. destruct m; split; reflexivity. Qed.

Lemma aestheticOf_name (t : AestheticTheme) :
  aestheticOf (aestheticName t) = Some t /\ truthy (aestheticName t) = true.
Proof. destruct t; split; reflexivity. Qed.

Lemma themeClass_inj (t u : AestheticTheme) :
  themeClass t = themeClass u -> t = u.
Proof. destruct t, u; intros H; try reflexivity; discriminate. Qed.

Lemma themeClasses_listed :
  [ lit "theme-editorial"; lit "theme-minimal"; lit "theme-cozy";
    lit "theme-bold"; lit "theme-retro"; lit "theme-tokyo" ]
  = map themeClass allAesthetics.
Proof. reflexivity. Qed.

Lemma In_themeClasses (c : str) :
  In c (map themeClass allAesthetics) <-> exists u, c = themeClass u.
Proof.
  rewrite in_map_iff. split.
  - intros (u & <- & _). eauto.
  - intros (u & ->). exists u. split; [reflexivity|].
    destruct u; cbn; tauto.
Qed.

(** X26.  [setColorMode] makes the resolved scheme dark for the mode
    dark, light for the mode light, and the preference of the system for
    the mode system.  With a document, the class dark is on the document
    element afterwards exactly when the resolved scheme is dark, every
    other class is as before, and a class list without repetition stays
    so. *)
Theorem setColorMode_resolves :
  forall (m : ColorMode) (th : Theme),
    let th' := setColorMode m th in
    colorMode th' = m
    /\ aesthetic th' = aesthetic th
    /\ resolvedColorMode th' =
       match m with
       | dark => Dark
       | light => Light
       | system => getSystemPreference (themeWindow th)
       end
    /\ (classList th = None -> classList th' = None)
    /\ forall cl,
         classList th = Some cl ->
         exists cl',
           classList th' = Some cl'
           /\ (In (lit "dark") cl' <-> resolvedColorMode th' = Dark)
           /\ (forall c, c <> lit "dark" -> (In c cl' <-> In c cl))
           /\ (NoDup cl -> NoDup cl').
Proof.
  intros m th. cbv zeta. unfold setColorMode, updateResolvedColorMode.
  cbn [themeWindow classList colorMode aesthetic resolvedColorMode].
  assert (Hp : getSystemPreference (saveColorMode m (themeWindow th))
               = getSystemPreference (themeWindow th)).
  { unfold saveColorMode, getSystemPreference.
    destruct (themeWindow th); reflexivity. }
  set (resolved := match m with
                   | light => Light
                   | dark => Dark
                   | system => getSystemPreference
                                 (saveColorMode m (themeWindow th))
                   end).
  assert (Hr : resolved = match m with
                          | dark => Dark
                          | light => Light
                          | system => getSystemPreference (themeWindow th)
                          end)
    by (unfold resolved; destruct m; try reflexivity; exact Hp).
  clearbody resolved.
  destruct resolved;
    cbn [withClassList colorMode aesthetic resolvedColorMode classList];
    (split; [reflexivity|]); (split; [reflexivity|]);
    (split; [exact Hr|]);
    (split; [intros H; rewrite H; reflexivity|]);
    intros cl Hcl; rewrite Hcl; cbn [option_map];
    eexists; (split; [reflexivity|]).
  - split; [|split].
    + rewrite classRemove_In. split; [|discriminate].
      intros [_ H]. exfalso. apply H. left; reflexivity.
    + intros c Hc. rewrite classRemove_In. cbn [In]. split.
      * tauto.
      * intros H. split; [exact H|]. intros [E|[]]. congruence.
    + apply classRemove_NoDup.
  - split; [|split].
    + rewrite classAdd_In. split; auto.
    + intros c Hc. rewrite classAdd_In. split; [|auto].
      intros [H|H]; [exact H | contradiction].
    + apply classAdd_NoDup.
Qed.

(** X27.  With a document, after [setAesthetic] the document element
    carries the class of the chosen theme and of no other of the six
    themes, whichever of them it carried before; every other class is as
    before, and a class list without repetition stays so.  Colour mode
    and resolved scheme are not touched. *)
Theorem setAesthetic_one_theme_class :
  forall (t : AestheticTheme) (th : Theme) (cl : list str),
    classList th = Some cl ->
    let th' := setAesthetic t th in
    aesthetic th' = t
    /\ colorMode th' = colorMode th
    /\ resolvedColorMode th' = resolvedColorMode th
    /\ exists cl',
         classList th' = Some cl'
         /\ (forall u, In (themeClass u) cl' <-> u = t)
         /\ (forall c, (forall u, c <> themeClass u) ->
                       (In c cl' <-> In c cl))
         /\ (NoDup cl -> NoDup cl').
Proof.
  intros t th cl Hcl. cbv zeta. unfold setAesthetic, applyAesthetic.
  cbn [withClassList colorMode aesthetic resolvedColorMode classList].
  rewrite Hcl. cbn [option_map]. rewrite themeClasses_listed.
  split; [reflexivity|]. split; [reflexivity|]. split; [reflexivity|].
  eexists. split; [reflexivity|]. split; [|split].
  - intros u. rewrite classAdd_In, classRemove_In. split.
    + intros [[_ H]|H]; [|apply themeClass_inj; exact H].
      exfalso. apply H. apply In_themeClasses. eauto.
    + intros ->. right; reflexivity.
  - intros c Hc. rewrite classAdd_In, classRemove_In. split.
    + intros [[H _]|H]; [exact H|]. exfalso. apply (Hc t); exact H.
    + intros H. left. split; [exact H|].
      intros Hin. apply In_themeClasses in Hin as (u & Hu).
      apply (Hc u); exact Hu.
  - intros H. apply classAdd_NoDup, classRemove_NoDup; exact H.
Qed.

(** X28.  In a browser the theme survives a reload: after [setColorMode]
    and [setAesthetic], initializing the store on a fresh page with the
    storage they left gives back the mode and the theme that were set,
    and the resolved scheme of that mode. *)
Theorem theme_survives_reload :
  forall (m : ColorMode) (t : AestheticTheme) (th : Theme)
         (cl : option (list str)),
    themeWindow th <> None ->
    let w := themeWindow (setAesthetic t (setColorMode m th)) in
    let th' := initializeThemeStore (themeAtLoad w cl) in
    colorMode th' = m
    /\ aesthetic th' = t
    /\ themeIsInitialized th' = true
    /\ resolvedColorMode th' =
       match m with
       | dark => Dark
       | light => Light
       | system => getSystemPreference (themeWindow th)
       end.
Proof.
  intros m t th cl Hw. cbv zeta.
  destruct (themeWindow th) as [tw|] eqn:Etw; [|congruence].
  assert (Ew : themeWindow (setAesthetic t (setColorMode m th)) =
               Some {| storedColorMode := Some (colorModeName m);
                       storedAesthetic := Some (aestheticName t);
                       prefersDark := prefersDark tw |}).
  { unfold setAesthetic, applyAesthetic, setColorMode,
      updateResolvedColorMode.
    cbn [withClassList themeWindow].
    destruct m; cbn [withClassList themeWindow];
      try destruct (getSystemPreference _);
      cbn [withClassList themeWindow]; rewrite Etw; reflexivity. }
  rewrite Ew. unfold initializeThemeStore, themeAtLoad.
  cbn [themeWindow themeIsInitialized loadColorMode storedColorMode].
  destruct (colorModeOf_name m) as [Hm1 Hm2]. rewrite Hm2, Hm1.
  destruct (aestheticOf_name t) as [Ht1 Ht2].
  unfold updateResolvedColorMode, applyAesthetic.
  cbn [themeWindow getSystemPreference prefersDark].
  destruct m; cbn [withClassList themeWindow colorMode aesthetic
                   resolvedColorMode themeIsInitialized classList
                   loadAesthetic storedAesthetic];
    try destruct (prefersDark tw);
    cbn [withClassList themeWindow colorMode aesthetic
         resolvedColorMode themeIsInitialized classList
         loadAesthetic storedAesthetic];
    rewrite Ht2, Ht1; repeat split.
Qed.

(** X29.  Only the three names are accepted from the storage: the mode
    [loadColorMode] returns is system unless the stored text is exactly
    the name of the mode it returns; likewise [loadAesthetic] returns
    editorial unless the stored text is exactly the name of the theme. *)
Theorem stored_theme_is_validated :
  forall (w : option ThemeWindow),
    (loadColorMode w = system
     \/ exists tw, w = Some tw
                   /\ storedColorMode tw
                      = Some (colorModeName (loadColorMode w)))
    /\ (loadAesthetic w = editorial
        \/ exists tw, w = Some tw
                      /\ storedAesthetic tw
                         = Some (aestheticName (loadAesthetic w))).
Proof.
  intros w. split.
  - unfold loadColorMode. destruct w as [tw|]; [|left; reflexivity].
    destruct (storedColorMode tw) as [stored|] eqn:Es; [|left; reflexivity].
    destruct (truthy stored); [|left; reflexivity].
    destruct (colorModeOf stored) as [m|] eqn:Em; [|left; reflexivity].
    right. exists tw. split; [reflexivity|].
    unfold colorModeOf in Em. apply find_some in Em as [_ Em].
    apply eqb_eq in Em. rewrite Es, Em. reflexivity.
  - unfold loadAesthetic. destruct w as [tw|]; [|left; reflexivity].
    destruct (storedAesthetic tw) as [stored|] eqn:Es; [|left; reflexivity].
    destruct (truthy stored); [|left; reflexivity].
    destruct (aestheticOf stored) as [t|] eqn:Et; [|left; reflexivity].
    right. exists tw. split; [reflexivity|].
    unfold aestheticOf in Et. apply find_some in Et as [_ Et].
    apply eqb_eq in Et. rewrite Es, Et. reflexivity.
Qed.

End Themes.

(* ================================================================= *)
(** ** The properties on concrete stores, token lists and names *)

Section MoreInstances.

Import FilesStore FilesOps InlineRules CodeBlockView Naming ThemeStore.

Lemma updateFile_unknown_id_witness :
  (forall f, In f (files browserStore) -> FilesStore.id f <> lit "3-c")
  /\ files (updateFile clock9 (lit "3-c")
              {| newName := Some (lit "Other"); newContent := None |}
              browserStore) = files browserStore
  /\ currentFileId (updateFile clock9 (lit "3-c")
                      {| newName := Some (lit "Other"); newContent := None |}
                      browserStore) = currentFileId browserStore.
Proof.
  assert (H : forall f, In f (files browserStore) ->
                        FilesStore.id f <> lit "3-c").
  { intros f [E|[E|[]]]; subst f; vm_compute; discriminate. }
  split; [exact H|].
  apply (@updateFile_unknown_id clock9 (lit "3-c")
           {| newName := Some (lit "Other"); newContent := None |}
           browserStore H).
Defined.

Lemma selection_stays_valid_witness :
  selectionValid browserStore
  /\ selectionValid (deleteFile (lit "2-b") browserStore)
  /\ selectionValid
       (updateFile clock9 (lit "2-b")
          {| newName := None; newContent := Some (lit "three") |}
          browserStore).
Proof.
  assert (H : selectionValid browserStore).
  { exists fileB. split; [right; left; reflexivity | reflexivity]. }
  split; [exact H|].
  destruct (selection_stays_valid browserStore H) as (_ & Hu & Hd & _).
  split; [apply Hd | apply Hu].
Defined.

Lemma reload_restores_files_witness :
  window browserStore <> None
  /\ files (reload (deleteFile (lit "1-a") browserStore)) =
     files (deleteFile (lit "1-a") browserStore).
Proof.
  assert (H : window browserStore <> None) by (vm_compute; discriminate).
  split; [exact H|].
  destruct (reload_restores_files browserStore H) as (_ & _ & Hd).
  apply Hd.
Defined.

Lemma reload_restores_selection_witness :
  currentFileId (reload (setCurrentFileId (Some (lit "1-a")) browserStore))
  = Some (lit "1-a")
  /\ currentFileId (reload (setCurrentFileId (Some (lit "3-c")) browserStore))
     = None
  /\ currentFileId (reload (deleteFile (lit "2-b") browserStore)) = None.
Proof.
  destruct (@reload_restores_selection browserStore
              {| storedFiles := Some [fileA; fileB];
                 storedCurrentFile := Some (lit "2-b") |}
              eq_refl eq_refl) as (Hs & _ & Hd).
  split; [|split].
  - rewrite (Hs (lit "1-a")). vm_compute. reflexivity.
  - rewrite (Hs (lit "3-c")). vm_compute. reflexivity.
  - apply Hd. reflexivity.
Defined.

Lemma created_file_becomes_current_witness :
  lit "7-x" <> []
  /\ (forall f, In f (files browserStore) -> FilesStore.id f <> lit "7-x")
  /\ getCurrentFile
       (setCurrentFileId
          (Some (FilesStore.id
                   (fst (createFile 7 (lit "7-x") (lit "New") [] browserStore))))
          (snd (createFile 7 (lit "7-x") (lit "New") [] browserStore)))
     = Some (fst (createFile 7 (lit "7-x") (lit "New") [] browserStore)).
Proof.
  assert (H0 : lit "7-x" <> []) by (vm_compute; discriminate).
  assert (H : forall f, In f (files browserStore) ->
                        FilesStore.id f <> lit "7-x").
  { intros f [E|[E|[]]]; subst f; vm_compute; discriminate. }
  split; [exact H0|]. split; [exact H|].
  apply (@created_file_becomes_current 7%N (lit "7-x") (lit "New") []
           browserStore H0 H).
Defined.

Lemma delete_undoes_create_witness :
  (forall f, In f (files browserStore) -> FilesStore.id f <> lit "7-x")
  /\ files (deleteFile (lit "7-x")
              (snd (createFile 7 (lit "7-x") (lit "New") [] browserStore)))
     = files browserStore.
Proof.
  assert (H : forall f, In f (files browserStore) ->
                        FilesStore.id f <> lit "7-x").
  { intros f [E|[E|[]]]; subst f; vm_compute; discriminate. }
  split; [exact H|].
  apply (@delete_undoes_create 7%N (lit "7-x") (lit "New") []
           browserStore H).
Defined.

Lemma linked_image_has_one_wrapper_witness :
  imageRule plainImg linkedImage 2 = Some (lit "<img>")
  /\ linkOpenRule plainOpen linkedImage 1
     ++ plainImg linkedImage 2
     ++ linkCloseRule plainClose linkedImage 3
     = wrapperOpen ++ lit "<a>" ++ lit "<img>" ++ lit "</a>"
       ++ imageToggleButtonHtml ++ wrapperClose.
Proof.
  apply (@linked_image_has_one_wrapper plainImg plainOpen plainClose
           linkedImage 1
           {| itype := link_open; level := 0 |}
           {| itype := image; level := 1 |}
           {| itype := link_close; level := 0 |}
           eq_refl eq_refl eq_refl eq_refl eq_refl eq_refl).
  - vm_compute. discriminate.
  - reflexivity.
Defined.

Lemma free_image_is_wrapped_witness :
  imageRule plainImg
    [ {| itype := otherInline "text"; level := 0 |};
      {| itype := image; level := 0 |} ] 1
  = Some (wrapperOpen ++ lit "<img>" ++ imageToggleButtonHtml
          ++ wrapperClose).
Proof.
  apply (@free_image_is_wrapped plainImg
           [ {| itype := otherInline "text"; level := 0 |};
             {| itype := image; level := 0 |} ] 1
           {| itype := image; level := 0 |} eq_refl).
  left. vm_compute. discriminate.
Defined.

Lemma asciiLower_supported (s : str) :
  In s SUPPORTED_LANGUAGES -> asciiLower s = s.
Proof.
  assert (H : forallb (fun l => eqb (asciiLower l) l) SUPPORTED_LANGUAGES
              = true) by (vm_compute; reflexivity).
  intros Hin. apply eqb_eq. exact (proj1 (forallb_forall _ _) H s Hin).
Defined.

Lemma normalizeLanguage_supported_witness :
  normalizeLanguage asciiLower (Some (lit "JS")) = VString (lit "javascript")
  /\ normalizeLanguage asciiLower (Some (lit "Klingon"))
     = VString (lit "plaintext").
Proof.
  split.
  - destruct (@normalizeLanguage_supported asciiLower (Some (lit "JS")))
      as (r & Hr & _ & _ & Halias & _).
    + intros l E. injection E as <-. vm_compute. reflexivity.
    + rewrite Hr. f_equal.
      apply (Halias (lit "JS") (lit "javascript") eq_refl).
      * vm_compute. discriminate.
      * vm_compute. reflexivity.
  - destruct (@normalizeLanguage_supported asciiLower (Some (lit "Klingon")))
      as (r & Hr & _ & _ & _ & _ & Hunknown & _).
    + intros l E. injection E as <-. vm_compute. reflexivity.
    + rewrite Hr. f_equal.
      apply (Hunknown (lit "Klingon") eq_refl).
      * vm_compute. reflexivity.
      * intros Hin. apply has_In in Hin. vm_compute in Hin. discriminate.
Defined.

Lemma normalizeLanguage_stable_witness :
  normalizeLanguage asciiLower (Some (lit "JS")) = VString (lit "javascript")
  /\ normalizeLanguage asciiLower (Some (lit "javascript"))
     = VString (lit "javascript").
Proof.
  assert (H : normalizeLanguage asciiLower (Some (lit "JS"))
              = VString (lit "javascript")) by (vm_compute; reflexivity).
  split; [exact H|].
  apply (@normalizeLanguage_stable asciiLower (Some (lit "JS"))
           (lit "javascript") asciiLower_supported H).
Defined.

Lemma normalizeLanguage_inherited_witness :
  normalizeLanguage asciiLower (Some (lit "Constructor"))
  = VInherited (lit "constructor").
Proof.
  apply (@normalizeLanguage_inherited asciiLower (lit "Constructor")).
  - vm_compute. discriminate.
  - apply has_In. vm_compute. reflexivity.
Defined.

Lemma code_segments_are_genuine_witness :
  exists t,
    In t (MiniMd.parse MiniMd.docTwoBlocks)
    /\ DocOrder.isCode t = true
    /\ lit "indented" = replaceFinalLf (Preview.content t)
    /\ lit "plaintext" = DocOrder.languageOf t.
Proof.
  destruct (@code_segments_are_genuine MiniMd.parse MiniMd.libPiece
              MiniMd.libRules MiniMd.libRules MiniMd.docTwoBlocks
              [ Preview.SegCode
                  {| Preview.id := lit "code-block-0";
                     Preview.code := lit "let a" ++ [lf];
                     Preview.language := lit "js" |};
                Preview.SegCode
                  {| Preview.id := lit "code-block-1";
                     Preview.code := lit "indented";
                     Preview.language := lit "plaintext" |} ]
              {| Preview.id := lit "code-block-1";
                 Preview.code := lit "indented";
                 Preview.language := lit "plaintext" |})
    as (_ & _ & t & Ht).
  - vm_compute. reflexivity.
  - right. left. reflexivity.
  - exists t. exact Ht.
Defined.

Lemma stripExtension_strips_witness :
  stripExtension (lit "notes.v2.md") = lit "notes.v2".
Proof.
  apply (@stripExtension_strips (lit "notes.v2") (lit "md")).
  - vm_compute. discriminate.
  - vm_compute. reflexivity.
Defined.

Lemma stripExtension_keeps_witness :
  stripExtension (lit "README") = lit "README"
  /\ stripExtension (lit "v1.0/notes") = lit "v1.0/notes".
Proof.
  split.
  - apply (@stripExtension_keeps (lit "README")).
    left. vm_compute. reflexivity.
  - apply (@stripExtension_keeps (lit "v1.0/notes")).
    right. right. exists (lit "v1"), (lit "0/notes").
    split; [reflexivity|]. split; [vm_compute; reflexivity|].
    right. left. reflexivity.
Defined.

Lemma setAesthetic_one_theme_class_witness :
  classList (setAesthetic tokyo darkBrowser)
  = Some [lit "app"; lit "theme-tokyo"]
  /\ exists cl',
       classList (setAesthetic tokyo darkBrowser) = Some cl'
       /\ (forall u, In (themeClass u) cl' <-> u = tokyo).
Proof.
  split; [vm_compute; reflexivity|].
  destruct (@setAesthetic_one_theme_class tokyo darkBrowser
              [lit "theme-bold"; lit "app"; lit "theme-cozy"] eq_refl)
    as (_ & _ & _ & cl' & Hcl & Hone & _).
  exists cl'. split; [exact Hcl | exact Hone].
Defined.

Lemma theme_survives_reload_witness :
  themeWindow darkBrowser <> None
  /\ colorMode
       (initializeThemeStore
          (themeAtLoad
             (themeWindow (setAesthetic tokyo (setColorMode light darkBrowser)))
             (Some [])))
     = light
  /\ aesthetic
       (initializeThemeStore
          (themeAtLoad
             (themeWindow (setAesthetic tokyo (setColorMode light darkBrowser)))
             (Some [])))
     = tokyo.
Proof.
  assert (H : themeWindow darkBrowser <> None) by (vm_compute; discriminate).
  split; [exact H|].
  destruct (theme_survives_reload light tokyo darkBrowser (Some []) H)
    as (Hm & Ht & _).
  split; [exact Hm | exact Ht].
Defined.

Lemma formatDate_buckets_witness :
  (Z.abs 1767873600000 <= Palette.maxTime)%Z
  /\ Palette.formatDate Palette.localeStub 1767873600000 1767873480000
     = lit "2m ago"
  /\ Palette.formatDate Palette.localeStub 1767873600000 9000000000000000
     = lit "Invalid Date".
Proof.
  assert (H : (Z.abs 1767873600000 <= Palette.maxTime)%Z)
    by (unfold Palette.maxTime; lia).
  split; [exact H|].
  destruct (formatDate_buckets Palette.localeStub 1767873600000
              1767873480000 H) as [_ Hin].
  destruct (formatDate_buckets Palette.localeStub 1767873600000
              9000000000000000 H) as [Hout _].
  split.
  - destruct Hin as (_ & Hm & _); [unfold Palette.maxTime; lia|].
    destruct Hm as (n & _ & Hn & Hs); [lia|].
    rewrite Hs, Hn. vm_compute. reflexivity.
  - apply Hout. unfold Palette.maxTime; lia.
Defined.

(** A placeholder nobody recorded, next to one that was: only the second
    gives a code segment. *)
Example segmentsOf_unknown_then_known :
  Preview.segmentsOf
    {| Preview.html :=
         lit "<p>a</p>" ++ Preview.placeholder (lit "code-block-9")
         ++ Preview.placeholder (lit "code-block-0") ++ lit "<p>b</p>";
       Preview.codeBlocks :=
         [ {| Preview.id := lit "code-block-0"; Preview.code := lit "x";
              Preview.language := lit "plaintext" |} ] |}
  = Some [ Preview.SegHtml (lit "<p>a</p>");
           Preview.SegCode
             {| Preview.id := lit "code-block-0"; Preview.code := lit "x";
                Preview.language := lit "plaintext" |};
           Preview.SegHtml (lit "<p>b</p>") ].
Proof. vm_compute. reflexivity. Qed.

End MoreInstances.
